(** * Pressure-based incompressible flux kernels of SU2

    A shallow embedding of [numerics_direct_mean_inc.cpp] (the second file
    held in [src/SU2_CFD/include/variables/CDiscAdjVariable.hpp]): the four
    face kernels [CUpwPB_Flow], [CCentJSTPB_Flow], [CCentLaxPB_Flow] and
    [CPressureSource], each with its constructor and its [ComputeResidual].

    The scalar type of the source is [su2double], a typedef that SU2 binds
    either to [double] or to an operator-overloading differentiation type.
    The kernels are therefore written once over an interface of the
    operations they use ([SU2Double]) and instantiated twice:
    - at the real numbers ([R]), the exact-arithmetic reading used for the
      algebraic statements: rounding, infinities and NaN are not part of it,
      and a quotient by zero has the value the reals of the library give it;
    - at [checked], reals with faults, where a quotient whose divisor is
      zero is reported instead of being given a value.
    Statements that hold for every instance hold in particular for any
    faithful model of [double].

    A raw [su2double*] buffer is a map from an index to a value, without
    bounds, as the pointer is; a [su2double**] buffer is a map from two
    indices.  A C [for] loop over [0 .. n-1] is [for_loop n body].  The
    members of an object that a call assigns are fields of the object's
    record, and a call returns the object together with the caller's output
    buffers. *)

From Stdlib Require Import Reals QArith Lra Lia Arith Bool List FunctionalExtensionality.
Import ListNotations.

Close Scope Q_scope.

Set Implicit Arguments.

(** ** The scalar interface *)

Class SU2Double (T : Type) : Type := {
  lit  : Q -> T;            (* a floating literal of the source text *)
  cast : nat -> T;          (* su2double(n) for an unsigned integer n *)
  add  : T -> T -> T;
  sub  : T -> T -> T;
  mul  : T -> T -> T;
  div  : T -> T -> T;
  fabs : T -> T;
  sqrt : T -> T;
  pow  : T -> T -> T;
  max  : T -> T -> T;
  gt   : T -> T -> bool     (* a > b *)
}.

Arguments lit {T _} _%_Q.

Declare Scope su2_scope.
Delimit Scope su2_scope with su2.
Infix "+" := add : su2_scope.
Infix "-" := sub : su2_scope.
Infix "*" := mul : su2_scope.
Infix "/" := div : su2_scope.
Infix ">" := gt : su2_scope.

(** ** Buffers and loops *)

Definition array (T : Type) : Type := nat -> T.
Definition matrix (T : Type) : Type := nat -> nat -> T.

(** [a[i] = v] *)
Definition store {T} (a : array T) (i : nat) (v : T) : array T :=
  fun k => if Nat.eqb k i then v else a k.

(** [m[i][j] = v] *)
Definition store2 {T} (m : matrix T) (i j : nat) (v : T) : matrix T :=
  fun r c => if Nat.eqb r i && Nat.eqb c j then v else m r c.

(** [for (i = 0; i < n; i++) s = body i s] *)
Fixpoint for_loop {S : Type} (n : nat) (body : nat -> S -> S) (s : S) : S :=
  match n with
  | O => s
  | S m => body m (for_loop m body s)
  end.

(** A buffer holding the listed values, zero beyond them. *)
Definition of_list {T} `{SU2Double T} (l : list T) : array T :=
  fun k => nth k l (lit 0.0).

(** The first [n] cells of a buffer. *)
Definition to_list {T} (n : nat) (a : array T) : list T :=
  map a (seq 0 n).

(** ** Configuration and the per-face data of the base class *)

Inductive TimeIntScheme : Type :=
| RUNGE_KUTTA_EXPLICIT
| EULER_EXPLICIT
| EULER_IMPLICIT
| CLASSICAL_RK4_EXPLICIT.

Definition TimeIntScheme_eqb (a b : TimeIntScheme) : bool :=
  match a, b with
  | RUNGE_KUTTA_EXPLICIT, RUNGE_KUTTA_EXPLICIT => true
  | EULER_EXPLICIT, EULER_EXPLICIT => true
  | EULER_IMPLICIT, EULER_IMPLICIT => true
  | CLASSICAL_RK4_EXPLICIT, CLASSICAL_RK4_EXPLICIT => true
  | _, _ => false
  end.

(** What the constructors read from [CConfig]. *)
Record CConfig (T : Type) : Type := {
  GetKind_TimeIntScheme_Flow : TimeIntScheme;
  GetGravityForce : bool;
  GetFroude : T;
  GetGrid_Movement : bool;
  GetKappa_1st_Flow : T;
  GetKappa_2nd_Flow : T;
  GetKappa_4th_Flow : T
}.

(** The members of [CNumerics] that the solver sets before each call. *)
Record CNumerics (T : Type) : Type := {
  nDim : nat;
  nVar : nat;
  V_i : array T;  V_j : array T;
  U_i : array T;  U_j : array T;
  Normal : array T;
  Und_Lapl_i : array T;  Und_Lapl_j : array T;
  Sensor_i : T;  Sensor_j : T;
  Neighbor_i : nat;  Neighbor_j : nat;
  Lambda_i : T;  Lambda_j : T
}.

(** What a call hands back: the object with its members as the call left
    them, and the caller's three output buffers. *)
Record Call (K T : Type) : Type := {
  self : K;
  val_residual : array T;
  val_Jacobian_i : matrix T;
  val_Jacobian_j : matrix T
}.

(** ** CUpwPB_Flow *)

Module CUpwPB_Flow.
Section Kernel.
Context {T : Type} `{SU2Double T}.
Local Open Scope su2_scope.

(** [CNumerics::GetInviscidPBProjJac(density, velocity, normal, scale, out)],
    defined outside this file; its first argument here is the [nDim] of
    the object it is called on. *)
Variable GetInviscidPBProjJac :
  nat -> T -> array T -> array T -> T -> matrix T -> matrix T.

Record t : Type := {
  implicit : bool;
  gravity : bool;
  Froude : T;
  Velocity_i : array T;
  Velocity_j : array T;
  MeanVelocity : array T;
  Pressure_i : T;  Pressure_j : T;
  DensityInc_i : T;  DensityInc_j : T;
  Face_Flux : T
}.

(** The constructor.  [fresh] is the content of newly allocated storage
    and [fresh0] that of the scalar members before their first assignment.
    The buffers [Diff_U], [ProjFlux_i], [ProjFlux_j], [Lambda], [Epsilon],
    [P_Tensor] and [invP_Tensor], allocated here and released by the
    destructor, are used by no method of this class and are left out. *)
Definition new (val_nDim val_nVar : nat) (config : CConfig T)
           (fresh : array T) (fresh0 : T) : t :=
  {| implicit := TimeIntScheme_eqb (GetKind_TimeIntScheme_Flow config) EULER_IMPLICIT;
     gravity := GetGravityForce config;
     Froude := GetFroude config;
     Velocity_i := fresh;
     Velocity_j := fresh;
     MeanVelocity := fresh;
     Pressure_i := fresh0;  Pressure_j := fresh0;
     DensityInc_i := fresh0;  DensityInc_j := fresh0;
     Face_Flux := fresh0 |}.

(** The state of the first loop: the three velocity buffers and the
    running face flux. *)
Definition flux_loop (n : CNumerics T) (rho_i rho_j : T)
  : nat -> array T * array T * array T * T -> array T * array T * array T * T :=
  fun iDim '(Vel_i, Vel_j, MeanVel, FF) =>
    let Vel_i := store Vel_i iDim (V_i n (iDim + 1)%nat) in
    let Vel_j := store Vel_j iDim (V_j n (iDim + 1)%nat) in
    let MeanVel := store MeanVel iDim (lit 0.5 * (Vel_i iDim + Vel_j iDim)) in
    let MeanDensity := lit 0.5 * (rho_i + rho_j) in
    let FF := FF + MeanDensity * MeanVel iDim * Normal n iDim in
    (Vel_i, Vel_j, MeanVel, FF).

Definition ComputeResidual (k : t) (n : CNumerics T)
           (res : array T) (Jac_i Jac_j : matrix T) : Call t T :=
  let P_i := V_i n 0 in
  let P_j := V_j n 0 in
  let rho_i := V_i n (nDim n + 1)%nat in
  let rho_j := V_j n (nDim n + 1)%nat in
  let '(Vel_i, Vel_j, MeanVel, FF) :=
    for_loop (nDim n) (flux_loop n rho_i rho_j)
             (Velocity_i k, Velocity_j k, MeanVelocity k, lit 0.0) in
  let res :=
    if FF > lit 0.0
    then for_loop (nVar n) (fun iVar r => store r iVar (FF * V_i n (iVar + 1)%nat)) res
    else for_loop (nVar n) (fun iVar r => store r iVar (FF * V_j n (iVar + 1)%nat)) res in
  let '(Jac_i, Jac_j) :=
    if implicit k then
      let '(Jac_i, Jac_j) :=
        for_loop (nVar n) (fun iVar =>
          for_loop (nVar n) (fun jVar '(Ji, Jj) =>
            let Jj := store2 Jj iVar jVar (lit 0.0) in
            let Ji := store2 Ji iVar jVar (lit 0.0) in
            (Ji, Jj))) (Jac_i, Jac_j) in
      if FF > lit 0.0
      then (GetInviscidPBProjJac (nDim n) rho_i Vel_i (Normal n) (lit 1.0) Jac_i, Jac_j)
      else (Jac_i, GetInviscidPBProjJac (nDim n) rho_j Vel_j (Normal n) (lit 1.0) Jac_j)
    else (Jac_i, Jac_j) in
  {| self := {| implicit := implicit k;
                gravity := gravity k;
                Froude := Froude k;
                Velocity_i := Vel_i;
                Velocity_j := Vel_j;
                MeanVelocity := MeanVel;
                Pressure_i := P_i;  Pressure_j := P_j;
                DensityInc_i := rho_i;  DensityInc_j := rho_j;
                Face_Flux := FF |};
     val_residual := res;
     val_Jacobian_i := Jac_i;
     val_Jacobian_j := Jac_j |}.

End Kernel.
End CUpwPB_Flow.

(** ** CPressureSource *)

Module CPressureSource.
Section Kernel.
Context {T : Type} `{SU2Double T}.
Local Open Scope su2_scope.

Record t : Type := {
  Pressure_i : T;  Pressure_j : T;
  MeanPressure : T
}.

Definition new (val_nDim val_nVar : nat) (config : CConfig T) (fresh0 : T) : t :=
  {| Pressure_i := fresh0;  Pressure_j := fresh0;  MeanPressure := fresh0 |}.

(** This overload has one Jacobian parameter only. *)
Record Out : Type := {
  self : t;
  val_residual : array T;
  val_Jacobian_i : matrix T
}.

Definition ComputeResidual (k : t) (n : CNumerics T)
           (res : array T) (Jac_i : matrix T) : Out :=
  let P_i := V_i n 0 in
  let P_j := V_j n 0 in
  let MeanP := lit 0.5 * (P_i + P_j) in
  let res :=
    for_loop (nDim n) (fun iDim r => store r iDim (MeanP * Normal n iDim)) res in
  {| self := {| Pressure_i := P_i;  Pressure_j := P_j;  MeanPressure := MeanP |};
     val_residual := res;
     val_Jacobian_i := Jac_i |}.

End Kernel.
End CPressureSource.

(** ** CCentJSTPB_Flow *)

Module CCentJSTPB_Flow.
Section Kernel.
Context {T : Type} `{SU2Double T}.
Local Open Scope su2_scope.

(** [CNumerics::GetInviscidPBProjFlux(density, velocity, pressure, normal, out)]
    and [CNumerics::GetInviscidPBProjJac(density, velocity, normal, scale, out)],
    both defined outside this file; the first argument here is the [nDim]
    of the object they are called on. *)
Variable GetInviscidPBProjFlux :
  nat -> T -> array T -> T -> array T -> array T -> array T.
Variable GetInviscidPBProjJac :
  nat -> T -> array T -> array T -> T -> matrix T -> matrix T.

Record t : Type := {
  implicit : bool;
  grid_movement : bool;
  gravity : bool;
  Froude : T;
  Param_p : T;
  Param_Kappa_2 : T;
  Param_Kappa_4 : T;
  Diff_U : array T;
  Diff_Lapl : array T;
  Velocity_i : array T;
  Velocity_j : array T;
  MeanVelocity : array T;
  ProjFlux : array T;
  Pressure_i : T;  Pressure_j : T;
  DensityInc_i : T;  DensityInc_j : T;
  sq_vel_i : T;  sq_vel_j : T;
  MeanDensity : T;  MeanPressure : T;
  ProjVelocity_i : T;  ProjVelocity_j : T;
  Area : T;
  Local_Lambda_i : T;  Local_Lambda_j : T;
  MeanLambda : T;
  Phi_i : T;  Phi_j : T;
  StretchingFactor : T;
  sc2 : T;  sc4 : T;
  Epsilon_2 : T;  Epsilon_4 : T;
  cte_0 : T;  cte_1 : T
}.

Definition new (val_nDim val_nVar : nat) (config : CConfig T)
           (fresh : array T) (fresh0 : T) : t :=
  {| grid_movement := GetGrid_Movement config;
     implicit := TimeIntScheme_eqb (GetKind_TimeIntScheme_Flow config) EULER_IMPLICIT;
     gravity := GetGravityForce config;
     Froude := GetFroude config;
     Param_p := lit 0.3;
     Param_Kappa_2 := GetKappa_2nd_Flow config;
     Param_Kappa_4 := GetKappa_4th_Flow config;
     Diff_U := fresh;
     Diff_Lapl := fresh;
     Velocity_i := fresh;
     Velocity_j := fresh;
     MeanVelocity := fresh;
     ProjFlux := fresh;
     Pressure_i := fresh0;  Pressure_j := fresh0;
     DensityInc_i := fresh0;  DensityInc_j := fresh0;
     sq_vel_i := fresh0;  sq_vel_j := fresh0;
     MeanDensity := fresh0;  MeanPressure := fresh0;
     ProjVelocity_i := fresh0;  ProjVelocity_j := fresh0;
     Area := fresh0;
     Local_Lambda_i := fresh0;  Local_Lambda_j := fresh0;
     MeanLambda := fresh0;
     Phi_i := fresh0;  Phi_j := fresh0;
     StretchingFactor := fresh0;
     sc2 := fresh0;  sc4 := fresh0;
     Epsilon_2 := fresh0;  Epsilon_4 := fresh0;
     cte_0 := fresh0;  cte_1 := fresh0 |}.

(** First loop: velocities, half squared speeds, mean velocity. *)
Definition velocity_loop (n : CNumerics T)
  : nat -> array T * array T * T * T * array T
        -> array T * array T * T * T * array T :=
  fun iDim '(Vel_i, Vel_j, sq_i, sq_j, MeanVel) =>
    let Vel_i := store Vel_i iDim (V_i n (iDim + 1)%nat) in
    let Vel_j := store Vel_j iDim (V_j n (iDim + 1)%nat) in
    let sq_i := sq_i + lit 0.5 * Vel_i iDim * Vel_i iDim in
    let sq_j := sq_j + lit 0.5 * Vel_j iDim * Vel_j iDim in
    let MeanVel := store MeanVel iDim (lit 0.5 * (Vel_i iDim + Vel_j iDim)) in
    (Vel_i, Vel_j, sq_i, sq_j, MeanVel).

(** Differences of the undivided Laplacians and of the conservative
    variables. *)
Definition diff_loop (n : CNumerics T)
  : nat -> array T * array T -> array T * array T :=
  fun iVar '(DLapl, DU) =>
    let DLapl := store DLapl iVar (Und_Lapl_i n iVar - Und_Lapl_j n iVar) in
    let DU := store DU iVar (U_i n iVar - U_j n iVar) in
    (DLapl, DU).

(** Projected velocities and squared area. *)
Definition proj_loop (n : CNumerics T) (Vel_i Vel_j : array T)
  : nat -> T * T * T -> T * T * T :=
  fun iDim '(PV_i, PV_j, A) =>
    let PV_i := PV_i + Vel_i iDim * Normal n iDim in
    let PV_j := PV_j + Vel_j iDim * Normal n iDim in
    let A := A + Normal n iDim * Normal n iDim in
    (PV_i, PV_j, A).

Definition ComputeResidual (k : t) (n : CNumerics T)
           (res : array T) (Jac_i Jac_j : matrix T) : Call t T :=
  let P_i := V_i n 0 in
  let P_j := V_j n 0 in
  let rho_i := V_i n (nDim n + 1)%nat in
  let rho_j := V_j n (nDim n + 1)%nat in
  let '(Vel_i, Vel_j, sq_i, sq_j, MeanVel) :=
    for_loop (nDim n) (velocity_loop n)
             (Velocity_i k, Velocity_j k, lit 0.0, lit 0.0, MeanVelocity k) in
  let MeanRho := lit 0.5 * (rho_i + rho_j) in
  let MeanP := lit 0.5 * (P_i + P_j) in
  let PFlux :=
    GetInviscidPBProjFlux (nDim n) MeanRho MeanVel MeanP (Normal n) (ProjFlux k) in
  let res := for_loop (nVar n) (fun iVar r => store r iVar (PFlux iVar)) res in
  let '(Jac_i, Jac_j) :=
    if implicit k then
      let Jac_i := GetInviscidPBProjJac (nDim n) MeanRho MeanVel (Normal n) (lit 0.5) Jac_i in
      let Jac_j :=
        for_loop (nVar n) (fun iVar =>
          for_loop (nVar n) (fun jVar Jj => store2 Jj iVar jVar (Jac_i iVar jVar)))
          Jac_j in
      (Jac_i, Jac_j)
    else (Jac_i, Jac_j) in
  let '(DLapl, DU) := for_loop (nVar n) (diff_loop n) (Diff_Lapl k, Diff_U k) in
  let '(PV_i, PV_j, A) :=
    for_loop (nDim n) (proj_loop n Vel_i Vel_j) (lit 0.0, lit 0.0, lit 0.0) in
  let A := sqrt A in
  let LL_i := fabs (lit 2.0 * PV_i) in
  let LL_j := fabs (lit 2.0 * PV_j) in
  let ML := lit 0.5 * (LL_i + LL_j) in
  let Ph_i := pow (Lambda_i n / (lit 4.0 * ML)) (Param_p k) in
  let Ph_j := pow (Lambda_j n / (lit 4.0 * ML)) (Param_p k) in
  let SF := lit 4.0 * Ph_i * Ph_j / (Ph_i + Ph_j) in
  let s2 := lit 3.0 * (cast (Neighbor_i n) + cast (Neighbor_j n))
            / (cast (Neighbor_i n) * cast (Neighbor_j n)) in
  let s4 := s2 * s2 / lit 4.0 in
  let Eps_2 := Param_Kappa_2 k * lit 0.5 * (Sensor_i n + Sensor_j n) * s2 in
  let Eps_4 := max (lit 0.0) (Param_Kappa_4 k - Eps_2) * s4 in
  let res :=
    for_loop (nVar n) (fun iVar r =>
      store r iVar (r iVar + (Eps_2 * DU iVar - Eps_4 * DLapl iVar) * SF * ML)) res in
  let c0 := (Eps_2 + Eps_4 * cast (Neighbor_i n + 1)%nat) * SF * ML in
  let c1 := (Eps_2 + Eps_4 * cast (Neighbor_j n + 1)%nat) * SF * ML in
  let '(Jac_i, Jac_j) :=
    if implicit k then
      for_loop (nVar n) (fun iVar '(Ji, Jj) =>
        let Ji := store2 Ji iVar iVar (Ji iVar iVar + c0) in
        let Jj := store2 Jj iVar iVar (Jj iVar iVar - c1) in
        (Ji, Jj)) (Jac_i, Jac_j)
    else (Jac_i, Jac_j) in
  {| self := {| implicit := implicit k;
                grid_movement := grid_movement k;
                gravity := gravity k;
                Froude := Froude k;
                Param_p := Param_p k;
                Param_Kappa_2 := Param_Kappa_2 k;
                Param_Kappa_4 := Param_Kappa_4 k;
                Diff_U := DU;
                Diff_Lapl := DLapl;
                Velocity_i := Vel_i;
                Velocity_j := Vel_j;
                MeanVelocity := MeanVel;
                ProjFlux := PFlux;
                Pressure_i := P_i;  Pressure_j := P_j;
                DensityInc_i := rho_i;  DensityInc_j := rho_j;
                sq_vel_i := sq_i;  sq_vel_j := sq_j;
                MeanDensity := MeanRho;  MeanPressure := MeanP;
                ProjVelocity_i := PV_i;  ProjVelocity_j := PV_j;
                Area := A;
                Local_Lambda_i := LL_i;  Local_Lambda_j := LL_j;
                MeanLambda := ML;
                Phi_i := Ph_i;  Phi_j := Ph_j;
                StretchingFactor := SF;
                sc2 := s2;  sc4 := s4;
                Epsilon_2 := Eps_2;  Epsilon_4 := Eps_4;
                cte_0 := if implicit k then c0 else cte_0 k;
                cte_1 := if implicit k then c1 else cte_1 k |};
     val_residual := res;
     val_Jacobian_i := Jac_i;
     val_Jacobian_j := Jac_j |}.

End Kernel.
End CCentJSTPB_Flow.

(** ** CCentLaxPB_Flow *)

Module CCentLaxPB_Flow.
Section Kernel.
Context {T : Type} `{SU2Double T}.
Local Open Scope su2_scope.

Variable GetInviscidPBProjFlux :
  nat -> T -> array T -> T -> array T -> array T -> array T.
Variable GetInviscidPBProjJac :
  nat -> T -> array T -> array T -> T -> matrix T -> matrix T.

Record t : Type := {
  implicit : bool;
  grid_movement : bool;
  gravity : bool;
  Froude : T;
  Param_p : T;
  Param_Kappa_0 : T;
  Diff_U : array T;
  Velocity_i : array T;
  Velocity_j : array T;
  MeanVelocity : array T;
  ProjFlux : array T;
  Pressure_i : T;  Pressure_j : T;
  DensityInc_i : T;  DensityInc_j : T;
  sq_vel_i : T;  sq_vel_j : T;
  MeanDensity : T;  MeanPressure : T;
  ProjVelocity_i : T;  ProjVelocity_j : T;
  Area : T;
  Local_Lambda_i : T;  Local_Lambda_j : T;
  MeanLambda : T;
  Phi_i : T;  Phi_j : T;
  StretchingFactor : T;
  sc0 : T;
  Epsilon_0 : T
}.

Definition new (val_nDim val_nVar : nat) (config : CConfig T)
           (fresh : array T) (fresh0 : T) : t :=
  {| implicit := TimeIntScheme_eqb (GetKind_TimeIntScheme_Flow config) EULER_IMPLICIT;
     grid_movement := GetGrid_Movement config;
     gravity := GetGravityForce config;
     Froude := GetFroude config;
     Param_p := lit 0.3;
     Param_Kappa_0 := GetKappa_1st_Flow config;
     Diff_U := fresh;
     Velocity_i := fresh;
     Velocity_j := fresh;
     MeanVelocity := fresh;
     ProjFlux := fresh;
     Pressure_i := fresh0;  Pressure_j := fresh0;
     DensityInc_i := fresh0;  DensityInc_j := fresh0;
     sq_vel_i := fresh0;  sq_vel_j := fresh0;
     MeanDensity := fresh0;  MeanPressure := fresh0;
     ProjVelocity_i := fresh0;  ProjVelocity_j := fresh0;
     Area := fresh0;
     Local_Lambda_i := fresh0;  Local_Lambda_j := fresh0;
     MeanLambda := fresh0;
     Phi_i := fresh0;  Phi_j := fresh0;
     StretchingFactor := fresh0;
     sc0 := fresh0;
     Epsilon_0 := fresh0 |}.

(** First loop: velocities and half squared speeds. *)
Definition velocity_loop (n : CNumerics T)
  : nat -> array T * array T * T * T -> array T * array T * T * T :=
  fun iDim '(Vel_i, Vel_j, sq_i, sq_j) =>
    let Vel_i := store Vel_i iDim (V_i n (iDim + 1)%nat) in
    let Vel_j := store Vel_j iDim (V_j n (iDim + 1)%nat) in
    let sq_i := sq_i + lit 0.5 * Vel_i iDim * Vel_i iDim in
    let sq_j := sq_j + lit 0.5 * Vel_j iDim * Vel_j iDim in
    (Vel_i, Vel_j, sq_i, sq_j).

(** Second loop: the local conservative variables. *)
Definition conservative_loop (rho_i rho_j : T) (Vel_i Vel_j : array T)
  : nat -> array T * array T -> array T * array T :=
  fun iDim '(Ui, Uj) =>
    let Ui := store Ui iDim (rho_i * Vel_i iDim) in
    let Uj := store Uj iDim (rho_j * Vel_j iDim) in
    (Ui, Uj).

Definition proj_loop (n : CNumerics T) (Vel_i Vel_j : array T)
  : nat -> T * T * T -> T * T * T :=
  fun iDim '(PV_i, PV_j, A) =>
    let PV_i := PV_i + Vel_i iDim * Normal n iDim in
    let PV_j := PV_j + Vel_j iDim * Normal n iDim in
    let A := A + Normal n iDim * Normal n iDim in
    (PV_i, PV_j, A).

Definition ComputeResidual (k : t) (n : CNumerics T)
           (res : array T) (Jac_i Jac_j : matrix T) : Call t T :=
  (* the locals U_i[3], U_j[3] hide the members of the same name *)
  let Ui := of_list [lit 0.0; lit 0.0; lit 0.0] in
  let Uj := of_list [lit 0.0; lit 0.0; lit 0.0] in
  let P_i := V_i n 0 in
  let P_j := V_j n 0 in
  let rho_i := V_i n (nDim n + 1)%nat in
  let rho_j := V_j n (nDim n + 1)%nat in
  let '(Vel_i, Vel_j, sq_i, sq_j) :=
    for_loop (nDim n) (velocity_loop n)
             (Velocity_i k, Velocity_j k, lit 0.0, lit 0.0) in
  let '(Ui, Uj) :=
    for_loop (nDim n) (conservative_loop rho_i rho_j Vel_i Vel_j) (Ui, Uj) in
  let MeanRho := lit 0.5 * (rho_i + rho_j) in
  let MeanP := lit 0.5 * (P_i + P_j) in
  let MeanVel :=
    for_loop (nDim n) (fun iDim M =>
      store M iDim (lit 0.5 * (Vel_i iDim + Vel_j iDim))) (MeanVelocity k) in
  let PFlux :=
    GetInviscidPBProjFlux (nDim n) MeanRho MeanVel MeanP (Normal n) (ProjFlux k) in
  let res := for_loop (nVar n) (fun iVar r => store r iVar (PFlux iVar)) res in
  let '(Jac_i, Jac_j) :=
    if implicit k then
      let Jac_i := GetInviscidPBProjJac (nDim n) MeanRho MeanVel (Normal n) (lit 0.5) Jac_i in
      let Jac_j :=
        for_loop (nVar n) (fun iVar =>
          for_loop (nVar n) (fun jVar Jj => store2 Jj iVar jVar (Jac_i iVar jVar)))
          Jac_j in
      (Jac_i, Jac_j)
    else (Jac_i, Jac_j) in
  let DU :=
    for_loop (nVar n) (fun iVar D => store D iVar (Ui iVar - Uj iVar)) (Diff_U k) in
  let '(PV_i, PV_j, A) :=
    (* the integer literal 0 of the source is the constant 0.0 *)
  for_loop (nDim n) (proj_loop n Vel_i Vel_j) (lit 0.0, lit 0.0, lit 0.0) in
  let A := sqrt A in
  let LL_i := fabs (lit 2.0 * PV_i) in
  let LL_j := fabs (lit 2.0 * PV_j) in
  let ML := lit 0.5 * (LL_i + LL_j) in
  let Ph_i := pow (Lambda_i n / (lit 4.0 * ML)) (Param_p k) in
  let Ph_j := pow (Lambda_j n / (lit 4.0 * ML)) (Param_p k) in
  let SF := lit 4.0 * Ph_i * Ph_j / (Ph_i + Ph_j) in
  let s0 := lit 3.0 * (cast (Neighbor_i n) + cast (Neighbor_j n))
            / (cast (Neighbor_i n) * cast (Neighbor_j n)) in
  let Eps_0 := Param_Kappa_0 k * s0 * cast (nDim n) / lit 3.0 in
  let res :=
    for_loop (nVar n) (fun iVar r =>
      store r iVar (r iVar + Eps_0 * DU iVar * SF * ML)) res in
  let '(Jac_i, Jac_j) :=
    if implicit k then
      for_loop (nVar n) (fun iVar '(Ji, Jj) =>
        let Ji := store2 Ji iVar iVar (Ji iVar iVar + Eps_0 * SF * ML) in
        let Jj := store2 Jj iVar iVar (Jj iVar iVar - Eps_0 * SF * ML) in
        (Ji, Jj)) (Jac_i, Jac_j)
    else (Jac_i, Jac_j) in
  {| self := {| implicit := implicit k;
                grid_movement := grid_movement k;
                gravity := gravity k;
                Froude := Froude k;
                Param_p := Param_p k;
                Param_Kappa_0 := Param_Kappa_0 k;
                Diff_U := DU;
                Velocity_i := Vel_i;
                Velocity_j := Vel_j;
                MeanVelocity := MeanVel;
                ProjFlux := PFlux;
                Pressure_i := P_i;  Pressure_j := P_j;
                DensityInc_i := rho_i;  DensityInc_j := rho_j;
                sq_vel_i := sq_i;  sq_vel_j := sq_j;
                MeanDensity := MeanRho;  MeanPressure := MeanP;
                ProjVelocity_i := PV_i;  ProjVelocity_j := PV_j;
                Area := A;
                Local_Lambda_i := LL_i;  Local_Lambda_j := LL_j;
                MeanLambda := ML;
                Phi_i := Ph_i;  Phi_j := Ph_j;
                StretchingFactor := SF;
                sc0 := s0;
                Epsilon_0 := Eps_0 |};
     val_residual := res;
     val_Jacobian_i := Jac_i;
     val_Jacobian_j := Jac_j |}.

End Kernel.
End CCentLaxPB_Flow.

(** ** The two routines of the base class used above *)

Module CNumerics_routines.
Section Routines.
Context {T : Type} `{SU2Double T}.
Local Open Scope su2_scope.

(** [a . b] over the first [n] components, accumulated from [0.0]. *)
Definition dot (n : nat) (a b : array T) : T :=
  for_loop n (fun iDim acc => acc + a iDim * b iDim) (lit 0.0).

(** Modelled from the spec: [CNumerics::GetInviscidPBProjFlux] is
    declared and defined outside the source file.  "flux component k
    equals density * velocity[k] * (velocity . normal) + pressure *
    normal[k]". *)
Definition GetInviscidPBProjFlux (nDim : nat) (val_density : T)
           (val_velocity : array T) (val_pressure : T)
           (val_normal : array T) (val_Proj_Flux : array T) : array T :=
  let proj_vel := dot nDim val_velocity val_normal in
  for_loop nDim (fun k out =>
    store out k (val_density * val_velocity k * proj_vel
                 + val_pressure * val_normal k)) val_Proj_Flux.

(** Modelled from the spec: [CNumerics::GetInviscidPBProjJac] is
    declared and defined outside the source file.  "linearization of
    ProjectedFlux with respect to the momentum/velocity unknowns, scaled
    by scale": with m = density * velocity the flux component k is
    m[k] * (velocity . normal) + pressure * normal[k], whose derivative
    in m[l] at fixed density is
    [k == l] * (velocity . normal) + velocity[k] * normal[l]. *)
Definition GetInviscidPBProjJac (nDim : nat) (val_density : T)
           (val_velocity : array T) (val_normal : array T) (val_scale : T)
           (val_Proj_Jac_Tensor : matrix T) : matrix T :=
  let proj_vel := dot nDim val_velocity val_normal in
  for_loop nDim (fun k =>
    for_loop nDim (fun l J =>
      store2 J k l
        (val_scale * ((if Nat.eqb k l then proj_vel else lit 0.0)
                      + val_velocity k * val_normal l))))
    val_Proj_Jac_Tensor.

End Routines.
End CNumerics_routines.

(** ** The scalar interface at the real numbers *)

(** [pow] of the C library on a non-negative base and a positive exponent.
    A negative base has no real power for a fractional exponent; it is
    given the value zero here. *)
Definition Rpow (x y : R) : R :=
  if Rlt_dec 0 x then Rpower x y else 0%R.

Definition Rgt_bool (a b : R) : bool :=
  if Rlt_dec b a then true else false.

#[export] Instance SU2Double_R : SU2Double R := {|
  lit := Q2R;
  cast := INR;
  add := Rplus;
  sub := Rminus;
  mul := Rmult;
  div := Rdiv;
  fabs := Rabs;
  sqrt := R_sqrt.sqrt;
  pow := Rpow;
  max := Rmax;
  gt := Rgt_bool
|}.

(** ** The scalar interface with faults *)

Inductive fault : Type :=
| DivideByZero        (* a quotient whose divisor is zero *)
| DomainError.        (* sqrt or fractional pow of a negative number *)

Inductive checked : Type :=
| Val (r : R)
| Fault (f : fault).

(** Operands are evaluated left to right; the first fault wins. *)
Definition lift1 (f : R -> checked) (a : checked) : checked :=
  match a with
  | Val x => f x
  | Fault e => Fault e
  end.

Definition lift2 (f : R -> R -> checked) (a b : checked) : checked :=
  match a, b with
  | Val x, Val y => f x y
  | Fault e, _ => Fault e
  | Val _, Fault e => Fault e
  end.

Definition checked_div (x y : R) : checked :=
  if Req_dec_T y 0 then Fault DivideByZero else Val (x / y).

Definition checked_sqrt (x : R) : checked :=
  if Rlt_dec x 0 then Fault DomainError else Val (R_sqrt.sqrt x).

Definition checked_pow (x y : R) : checked :=
  if Rlt_dec x 0 then Fault DomainError else Val (Rpow x y).

Definition checked_gt (a b : checked) : bool :=
  match a, b with
  | Val x, Val y => Rgt_bool x y
  | _, _ => false
  end.

#[export] Instance SU2Double_checked : SU2Double checked := {|
  lit := fun q => Val (Q2R q);
  cast := fun n => Val (INR n);
  add := lift2 (fun x y => Val (x + y));
  sub := lift2 (fun x y => Val (x - y));
  mul := lift2 (fun x y => Val (x * y));
  div := lift2 checked_div;
  fabs := lift1 (fun x => Val (Rabs x));
  sqrt := lift1 checked_sqrt;
  pow := lift2 checked_pow;
  max := lift2 (fun x y => Val (Rmax x y));
  gt := checked_gt
|}.

(** ** Vocabulary of the statements *)

Module Face.
Section Face.
Context {T : Type} `{SU2Double T}.
Local Open Scope su2_scope.

(** The parts of a primitive array laid out as
    [pressure, velocity_0, .., velocity_(nDim-1), density]. *)
Definition pressure (V : array T) : T := V 0.
Definition velocity (V : array T) : array T := fun d => V (d + 1)%nat.
Definition density (nDim : nat) (V : array T) : T := V (nDim + 1)%nat.


(** The same face with another normal, and with other nodal lambdas. *)
Definition with_normal (n : CNumerics T) (N : array T) : CNumerics T :=
  {| nDim := nDim n;  nVar := nVar n;
     V_i := V_i n;  V_j := V_j n;
     U_i := U_i n;  U_j := U_j n;
     Normal := N;
     Und_Lapl_i := Und_Lapl_i n;  Und_Lapl_j := Und_Lapl_j n;
     Sensor_i := Sensor_i n;  Sensor_j := Sensor_j n;
     Neighbor_i := Neighbor_i n;  Neighbor_j := Neighbor_j n;
     Lambda_i := Lambda_i n;  Lambda_j := Lambda_j n |}.

Definition with_lambda (n : CNumerics T) (l_i l_j : T) : CNumerics T :=
  {| nDim := nDim n;  nVar := nVar n;
     V_i := V_i n;  V_j := V_j n;
     U_i := U_i n;  U_j := U_j n;
     Normal := Normal n;
     Und_Lapl_i := Und_Lapl_i n;  Und_Lapl_j := Und_Lapl_j n;
     Sensor_i := Sensor_i n;  Sensor_j := Sensor_j n;
     Neighbor_i := Neighbor_i n;  Neighbor_j := Neighbor_j n;
     Lambda_i := l_i;  Lambda_j := l_j |}.

(** The normal of a face of twice the area. *)
Definition twice (N : array T) : array T := fun d => lit 2 * N d.

End Face.
End Face.

(** ** Sample faces *)

Module Samples.
Local Open Scope R_scope.

Definition zeros : array R := fun _ => 0.
Definition zeros2 : matrix R := fun _ _ => 0.

Definition config (scheme : TimeIntScheme) : CConfig R :=
  {| GetKind_TimeIntScheme_Flow := scheme;
     GetGravityForce := false;
     GetFroude := 1;
     GetGrid_Movement := false;
     GetKappa_1st_Flow := 1;
     GetKappa_2nd_Flow := 1;
     GetKappa_4th_Flow := 1 |}.

(** A two-dimensional face with its normal along x, unit density and
    velocities along x, three neighbours on each side; primitive arrays
    are laid out as [pressure, velocity_0, velocity_1, density]. *)
Definition face (p_i p_j u_i u_j lam sens nx : R) : CNumerics R :=
  {| nDim := 2;  nVar := 2;
     V_i := of_list [p_i; u_i; 0; 1];
     V_j := of_list [p_j; u_j; 0; 1];
     U_i := of_list [u_i; 0];
     U_j := of_list [u_j; 0];
     Normal := of_list [nx; 0];
     Und_Lapl_i := zeros;  Und_Lapl_j := zeros;
     Sensor_i := sens;  Sensor_j := sens;
     Neighbor_i := 3;  Neighbor_j := 3;
     Lambda_i := lam;  Lambda_j := lam |}.

(** One object of each kernel, explicit and implicit. *)
Definition upwind (scheme : TimeIntScheme) : CUpwPB_Flow.t :=
  CUpwPB_Flow.new 2 2 (config scheme) zeros 0.
Definition jst (scheme : TimeIntScheme) : CCentJSTPB_Flow.t :=
  CCentJSTPB_Flow.new 2 2 (config scheme) zeros 0.
Definition lax (scheme : TimeIntScheme) : CCentLaxPB_Flow.t :=
  CCentLaxPB_Flow.new 2 2 (config scheme) zeros 0.

(** The two routines of the base class, at the reals. *)
Definition PF := @CNumerics_routines.GetInviscidPBProjFlux R _.
Definition PJ := @CNumerics_routines.GetInviscidPBProjJac R _.

(** The same data with every quotient checked. *)
Definition inject (n : CNumerics R) : CNumerics checked :=
  {| nDim := nDim n;  nVar := nVar n;
     V_i := fun d => Val (V_i n d);  V_j := fun d => Val (V_j n d);
     U_i := fun d => Val (U_i n d);  U_j := fun d => Val (U_j n d);
     Normal := fun d => Val (Normal n d);
     Und_Lapl_i := fun d => Val (Und_Lapl_i n d);
     Und_Lapl_j := fun d => Val (Und_Lapl_j n d);
     Sensor_i := Val (Sensor_i n);  Sensor_j := Val (Sensor_j n);
     Neighbor_i := Neighbor_i n;  Neighbor_j := Neighbor_j n;
     Lambda_i := Val (Lambda_i n);  Lambda_j := Val (Lambda_j n) |}.

Definition checked_config (scheme : TimeIntScheme) : CConfig checked :=
  {| GetKind_TimeIntScheme_Flow := scheme;
     GetGravityForce := false;
     GetFroude := Val 1;
     GetGrid_Movement := false;
     GetKappa_1st_Flow := Val 1;
     GetKappa_2nd_Flow := Val 1;
     GetKappa_4th_Flow := Val 1 |}.

Definition checked_jst (scheme : TimeIntScheme) : CCentJSTPB_Flow.t :=
  CCentJSTPB_Flow.new 2 2 (checked_config scheme) (fun _ => Val 0) (Val 0).
Definition checked_lax (scheme : TimeIntScheme) : CCentLaxPB_Flow.t :=
  CCentLaxPB_Flow.new 2 2 (checked_config scheme) (fun _ => Val 0) (Val 0).
Definition checked_PF := @CNumerics_routines.GetInviscidPBProjFlux checked _.
Definition checked_PJ := @CNumerics_routines.GetInviscidPBProjJac checked _.

(** A configuration without artificial dissipation, and central objects
    built from it. *)
Definition undamped_config (scheme : TimeIntScheme) : CConfig checked :=
  {| GetKind_TimeIntScheme_Flow := scheme;
     GetGravityForce := false;
     GetFroude := Val 1;
     GetGrid_Movement := false;
     GetKappa_1st_Flow := Val 0;
     GetKappa_2nd_Flow := Val 0;
     GetKappa_4th_Flow := Val 0 |}.
Definition undamped_jst (scheme : TimeIntScheme) : CCentJSTPB_Flow.t :=
  CCentJSTPB_Flow.new 2 2 (undamped_config scheme) (fun _ => Val 0) (Val 0).
Definition undamped_lax (scheme : TimeIntScheme) : CCentLaxPB_Flow.t :=
  CCentLaxPB_Flow.new 2 2 (undamped_config scheme) (fun _ => Val 0) (Val 0).


(** A face across which nothing moves. *)
Definition still_face : CNumerics checked := inject (face 0 0 0 0 16 1 1).

(** A face crossed with velocities 3 and 1. *)
Definition moving_face : CNumerics checked := inject (face 0 0 3 1 16 1 1).

End Samples.

(** ** CDiscAdjVariable *)

(** The adjoint variables of all points: one [MatrixType] per quantity,
    indexed by point and component, and one [VectorOfMatrix] indexed by point,
    component and kind.  The containers are maps from their indices to a
    value; [nDim] and [nVar] are the members of the base class [CVariable]
    that bound the copying loops.  The constructor and
    [Set_OldSolution_Geometry] are only declared in this file. *)

Module CDiscAdjVariable.
Section Variable_class.
Context {T : Type}.

Definition tensor : Type := nat -> nat -> nat -> T.

(** [m(i,j,k) = v] *)
Definition store3 (m : tensor) (i j k : nat) (v : T) : tensor :=
  fun a b c => if Nat.eqb a i && Nat.eqb b j && Nat.eqb c k then v else m a b c.

Record t : Type := {
  nDim : nat;
  nVar : nat;
  Sensitivity : matrix T;
  Solution_Direct : matrix T;
  DualTime_Derivative : matrix T;
  DualTime_Derivative_n : matrix T;
  Cross_Term_Derivative : matrix T;
  Geometry_CrossTerm_Derivative : matrix T;
  Geometry_CrossTerm_Derivative_Flow : matrix T;
  Solution_Geometry : matrix T;
  Solution_Geometry_Old : matrix T;
  Geometry_Direct : matrix T;
  Solution_BGS : matrix T;
  Solution_Geometry_BGS_k : matrix T;
  Sensitivity_ShiftedLagrangian : matrix T;
  Sensitivity_AugmentedLagrangian : tensor
}.

(** The object with one of its containers replaced. *)
Definition with_Sensitivity (s : t) (M : matrix T) : t :=
  {| nDim := nDim s;
     nVar := nVar s;
     Sensitivity := M;
     Solution_Direct := Solution_Direct s;
     DualTime_Derivative := DualTime_Derivative s;
     DualTime_Derivative_n := DualTime_Derivative_n s;
     Cross_Term_Derivative := Cross_Term_Derivative s;
     Geometry_CrossTerm_Derivative := Geometry_CrossTerm_Derivative s;
     Geometry_CrossTerm_Derivative_Flow := Geometry_CrossTerm_Derivative_Flow s;
     Solution_Geometry := Solution_Geometry s;
     Solution_Geometry_Old := Solution_Geometry_Old s;
     Geometry_Direct := Geometry_Direct s;
     Solution_BGS := Solution_BGS s;
     Solution_Geometry_BGS_k := Solution_Geometry_BGS_k s;
     Sensitivity_ShiftedLagrangian := Sensitivity_ShiftedLagrangian s;
     Sensitivity_AugmentedLagrangian := Sensitivity_AugmentedLagrangian s |}.

Definition with_DualTime_Derivative (s : t) (M : matrix T) : t :=
  {| nDim := nDim s;
     nVar := nVar s;
     Sensitivity := Sensitivity s;
     Solution_Direct := Solution_Direct s;
     DualTime_Derivative := M;
     DualTime_Derivative_n := DualTime_Derivative_n s;
     Cross_Term_Derivative := Cross_Term_Derivative s;
     Geometry_CrossTerm_Derivative := Geometry_CrossTerm_Derivative s;
     Geometry_CrossTerm_Derivative_Flow := Geometry_CrossTerm_Derivative_Flow s;
     Solution_Geometry := Solution_Geometry s;
     Solution_Geometry_Old := Solution_Geometry_Old s;
     Geometry_Direct := Geometry_Direct s;
     Solution_BGS := Solution_BGS s;
     Solution_Geometry_BGS_k := Solution_Geometry_BGS_k s;
     Sensitivity_ShiftedLagrangian := Sensitivity_ShiftedLagrangian s;
     Sensitivity_AugmentedLagrangian := Sensitivity_AugmentedLagrangian s |}.

Definition with_DualTime_Derivative_n (s : t) (M : matrix T) : t :=
  {| nDim := nDim s;
     nVar := nVar s;
     Sensitivity := Sensitivity s;
     Solution_Direct := Solution_Direct s;
     DualTime_Derivative := DualTime_Derivative s;
     DualTime_Derivative_n := M;
     Cross_Term_Derivative := Cross_Term_Derivative s;
     Geometry_CrossTerm_Derivative := Geometry_CrossTerm_Derivative s;
     Geometry_CrossTerm_Derivative_Flow := Geometry_CrossTerm_Derivative_Flow s;
     Solution_Geometry := Solution_Geometry s;
     Solution_Geometry_Old := Solution_Geometry_Old s;
     Geometry_Direct := Geometry_Direct s;
     Solution_BGS := Solution_BGS s;
     Solution_Geometry_BGS_k := Solution_Geometry_BGS_k s;
     Sensitivity_ShiftedLagrangian := Sensitivity_ShiftedLagrangian s;
     Sensitivity_AugmentedLagrangian := Sensitivity_AugmentedLagrangian s |}.

Definition with_Solution_Direct (s : t) (M : matrix T) : t :=
  {| nDim := nDim s;
     nVar := nVar s;
     Sensitivity := Sensitivity s;
     Solution_Direct := M;
     DualTime_Derivative := DualTime_Derivative s;
     DualTime_Derivative_n := DualTime_Derivative_n s;
     Cross_Term_Derivative := Cross_Term_Derivative s;
     Geometry_CrossTerm_Derivative := Geometry_CrossTerm_Derivative s;
     Geometry_CrossTerm_Derivative_Flow := Geometry_CrossTerm_Derivative_Flow s;
     Solution_Geometry := Solution_Geometry s;
     Solution_Geometry_Old := Solution_Geometry_Old s;
     Geometry_Direct := Geometry_Direct s;
     Solution_BGS := Solution_BGS s;
     Solution_Geometry_BGS_k := Solution_Geometry_BGS_k s;
     Sensitivity_ShiftedLagrangian := Sensitivity_ShiftedLagrangian s;
     Sensitivity_AugmentedLagrangian := Sensitivity_AugmentedLagrangian s |}.

Definition with_Geometry_Direct (s : t) (M : matrix T) : t :=
  {| nDim := nDim s;
     nVar := nVar s;
     Sensitivity := Sensitivity s;
     Solution_Direct := Solution_Direct s;
     DualTime_Derivative := DualTime_Derivative s;
     DualTime_Derivative_n := DualTime_Derivative_n s;
     Cross_Term_Derivative := Cross_Term_Derivative s;
     Geometry_CrossTerm_Derivative := Geometry_CrossTerm_Derivative s;
     Geometry_CrossTerm_Derivative_Flow := Geometry_CrossTerm_Derivative_Flow s;
     Solution_Geometry := Solution_Geometry s;
     Solution_Geometry_Old := Solution_Geometry_Old s;
     Geometry_Direct := M;
     Solution_BGS := Solution_BGS s;
     Solution_Geometry_BGS_k := Solution_Geometry_BGS_k s;
     Sensitivity_ShiftedLagrangian := Sensitivity_ShiftedLagrangian s;
     Sensitivity_AugmentedLagrangian := Sensitivity_AugmentedLagrangian s |}.

Definition with_Solution_Geometry (s : t) (M : matrix T) : t :=
  {| nDim := nDim s;
     nVar := nVar s;
     Sensitivity := Sensitivity s;
     Solution_Direct := Solution_Direct s;
     DualTime_Derivative := DualTime_Derivative s;
     DualTime_Derivative_n := DualTime_Derivative_n s;
     Cross_Term_Derivative := Cross_Term_Derivative s;
     Geometry_CrossTerm_Derivative := Geometry_CrossTerm_Derivative s;
     Geometry_CrossTerm_Derivative_Flow := Geometry_CrossTerm_Derivative_Flow s;
     Solution_Geometry := M;
     Solution_Geometry_Old := Solution_Geometry_Old s;
     Geometry_Direct := Geometry_Direct s;
     Solution_BGS := Solution_BGS s;
     Solution_Geometry_BGS_k := Solution_Geometry_BGS_k s;
     Sensitivity_ShiftedLagrangian := Sensitivity_ShiftedLagrangian s;
     Sensitivity_AugmentedLagrangian := Sensitivity_AugmentedLagrangian s |}.

Definition with_Geometry_CrossTerm_Derivative (s : t) (M : matrix T) : t :=
  {| nDim := nDim s;
     nVar := nVar s;
     Sensitivity := Sensitivity s;
     Solution_Direct := Solution_Direct s;
     DualTime_Derivative := DualTime_Derivative s;
     DualTime_Derivative_n := DualTime_Derivative_n s;
     Cross_Term_Derivative := Cross_Term_Derivative s;
     Geometry_CrossTerm_Derivative := M;
     Geometry_CrossTerm_Derivative_Flow := Geometry_CrossTerm_Derivative_Flow s;
     Solution_Geometry := Solution_Geometry s;
     Solution_Geometry_Old := Solution_Geometry_Old s;
     Geometry_Direct := Geometry_Direct s;
     Solution_BGS := Solution_BGS s;
     Solution_Geometry_BGS_k := Solution_Geometry_BGS_k s;
     Sensitivity_ShiftedLagrangian := Sensitivity_ShiftedLagrangian s;
     Sensitivity_AugmentedLagrangian := Sensitivity_AugmentedLagrangian s |}.

Definition with_Geometry_CrossTerm_Derivative_Flow (s : t) (M : matrix T) : t :=
  {| nDim := nDim s;
     nVar := nVar s;
     Sensitivity := Sensitivity s;
     Solution_Direct := Solution_Direct s;
     DualTime_Derivative := DualTime_Derivative s;
     DualTime_Derivative_n := DualTime_Derivative_n s;
     Cross_Term_Derivative := Cross_Term_Derivative s;
     Geometry_CrossTerm_Derivative := Geometry_CrossTerm_Derivative s;
     Geometry_CrossTerm_Derivative_Flow := M;
     Solution_Geometry := Solution_Geometry s;
     Solution_Geometry_Old := Solution_Geometry_Old s;
     Geometry_Direct := Geometry_Direct s;
     Solution_BGS := Solution_BGS s;
     Solution_Geometry_BGS_k := Solution_Geometry_BGS_k s;
     Sensitivity_ShiftedLagrangian := Sensitivity_ShiftedLagrangian s;
     Sensitivity_AugmentedLagrangian := Sensitivity_AugmentedLagrangian s |}.

Definition with_Solution_BGS (s : t) (M : matrix T) : t :=
  {| nDim := nDim s;
     nVar := nVar s;
     Sensitivity := Sensitivity s;
     Solution_Direct := Solution_Direct s;
     DualTime_Derivative := DualTime_Derivative s;
     DualTime_Derivative_n := DualTime_Derivative_n s;
     Cross_Term_Derivative := Cross_Term_Derivative s;
     Geometry_CrossTerm_Derivative := Geometry_CrossTerm_Derivative s;
     Geometry_CrossTerm_Derivative_Flow := Geometry_CrossTerm_Derivative_Flow s;
     Solution_Geometry := Solution_Geometry s;
     Solution_Geometry_Old := Solution_Geometry_Old s;
     Geometry_Direct := Geometry_Direct s;
     Solution_BGS := M;
     Solution_Geometry_BGS_k := Solution_Geometry_BGS_k s;
     Sensitivity_ShiftedLagrangian := Sensitivity_ShiftedLagrangian s;
     Sensitivity_AugmentedLagrangian := Sensitivity_AugmentedLagrangian s |}.

Definition with_Cross_Term_Derivative (s : t) (M : matrix T) : t :=
  {| nDim := nDim s;
     nVar := nVar s;
     Sensitivity := Sensitivity s;
     Solution_Direct := Solution_Direct s;
     DualTime_Derivative := DualTime_Derivative s;
     DualTime_Derivative_n := DualTime_Derivative_n s;
     Cross_Term_Derivative := M;
     Geometry_CrossTerm_Derivative := Geometry_CrossTerm_Derivative s;
     Geometry_CrossTerm_Derivative_Flow := Geometry_CrossTerm_Derivative_Flow s;
     Solution_Geometry := Solution_Geometry s;
     Solution_Geometry_Old := Solution_Geometry_Old s;
     Geometry_Direct := Geometry_Direct s;
     Solution_BGS := Solution_BGS s;
     Solution_Geometry_BGS_k := Solution_Geometry_BGS_k s;
     Sensitivity_ShiftedLagrangian := Sensitivity_ShiftedLagrangian s;
     Sensitivity_AugmentedLagrangian := Sensitivity_AugmentedLagrangian s |}.

Definition with_Sensitivity_ShiftedLagrangian (s : t) (M : matrix T) : t :=
  {| nDim := nDim s;
     nVar := nVar s;
     Sensitivity := Sensitivity s;
     Solution_Direct := Solution_Direct s;
     DualTime_Derivative := DualTime_Derivative s;
     DualTime_Derivative_n := DualTime_Derivative_n s;
     Cross_Term_Derivative := Cross_Term_Derivative s;
     Geometry_CrossTerm_Derivative := Geometry_CrossTerm_Derivative s;
     Geometry_CrossTerm_Derivative_Flow := Geometry_CrossTerm_Derivative_Flow s;
     Solution_Geometry := Solution_Geometry s;
     Solution_Geometry_Old := Solution_Geometry_Old s;
     Geometry_Direct := Geometry_Direct s;
     Solution_BGS := Solution_BGS s;
     Solution_Geometry_BGS_k := Solution_Geometry_BGS_k s;
     Sensitivity_ShiftedLagrangian := M;
     Sensitivity_AugmentedLagrangian := Sensitivity_AugmentedLagrangian s |}.

Definition with_Sensitivity_AugmentedLagrangian (s : t) (M : tensor) : t :=
  {| nDim := nDim s;
     nVar := nVar s;
     Sensitivity := Sensitivity s;
     Solution_Direct := Solution_Direct s;
     DualTime_Derivative := DualTime_Derivative s;
     DualTime_Derivative_n := DualTime_Derivative_n s;
     Cross_Term_Derivative := Cross_Term_Derivative s;
     Geometry_CrossTerm_Derivative := Geometry_CrossTerm_Derivative s;
     Geometry_CrossTerm_Derivative_Flow := Geometry_CrossTerm_Derivative_Flow s;
     Solution_Geometry := Solution_Geometry s;
     Solution_Geometry_Old := Solution_Geometry_Old s;
     Geometry_Direct := Geometry_Direct s;
     Solution_BGS := Solution_BGS s;
     Solution_Geometry_BGS_k := Solution_Geometry_BGS_k s;
     Sensitivity_ShiftedLagrangian := Sensitivity_ShiftedLagrangian s;
     Sensitivity_AugmentedLagrangian := M |}.

Definition SetSensitivity (s : t) (iPoint iDim : nat) (val : T) : t :=
  with_Sensitivity s (store2 (Sensitivity s) iPoint iDim val).

Definition GetSensitivity (s : t) (iPoint iDim : nat) : T :=
  Sensitivity s iPoint iDim.

Definition SetDual_Time_Derivative (s : t) (iPoint iVar : nat) (der : T) : t :=
  with_DualTime_Derivative s (store2 (DualTime_Derivative s) iPoint iVar der).

Definition SetDual_Time_Derivative_n (s : t) (iPoint iVar : nat) (der : T) : t :=
  with_DualTime_Derivative_n s (store2 (DualTime_Derivative_n s) iPoint iVar der).

Definition GetDual_Time_Derivative (s : t) (iPoint iVar : nat) : T :=
  DualTime_Derivative s iPoint iVar.

Definition GetDual_Time_Derivative_n (s : t) (iPoint iVar : nat) : T :=
  DualTime_Derivative_n s iPoint iVar.

Definition SetSolution_Direct (s : t) (iPoint : nat) (val_solution_direct : array T) : t :=
  with_Solution_Direct s
    (for_loop (nVar s) (fun iVar M => store2 M iPoint iVar (val_solution_direct iVar))
              (Solution_Direct s)).

(** The returned pointer is the row of the point. *)
Definition GetSolution_Direct (s : t) (iPoint : nat) : array T :=
  Solution_Direct s iPoint.

Definition SetGeometry_Direct (s : t) (iPoint : nat) (val_geometry_direct : array T) : t :=
  with_Geometry_Direct s
    (for_loop (nDim s) (fun iDim M => store2 M iPoint iDim (val_geometry_direct iDim))
              (Geometry_Direct s)).

Definition GetGeometry_Direct (s : t) (iPoint : nat) : array T :=
  Geometry_Direct s iPoint.

(** The overload with a component index. *)
Definition GetGeometry_Direct_at (s : t) (iPoint iDim : nat) : T :=
  Geometry_Direct s iPoint iDim.

Definition GetSolution_Geometry (s : t) (iPoint iDim : nat) : T :=
  Solution_Geometry s iPoint iDim.

Definition SetSolution_Geometry (s : t) (iPoint : nat) (val_solution_geometry : array T) : t :=
  with_Solution_Geometry s
    (for_loop (nDim s) (fun iDim M => store2 M iPoint iDim (val_solution_geometry iDim))
              (Solution_Geometry s)).

(** The overload with a component index. *)
Definition SetSolution_Geometry_at (s : t) (iPoint iVar : nat) (val_solution_geometry : T) : t :=
  with_Solution_Geometry s (store2 (Solution_Geometry s) iPoint iVar val_solution_geometry).

Definition GetGeometry_CrossTerm_Derivative (s : t) (iPoint iVar : nat) : T :=
  Geometry_CrossTerm_Derivative s iPoint iVar.

Definition SetGeometry_CrossTerm_Derivative (s : t) (iPoint iDim : nat) (der : T) : t :=
  with_Geometry_CrossTerm_Derivative s (store2 (Geometry_CrossTerm_Derivative s) iPoint iDim der).

Definition GetGeometry_CrossTerm_Derivative_Flow (s : t) (iPoint iVar : nat) : T :=
  Geometry_CrossTerm_Derivative_Flow s iPoint iVar.

Definition SetGeometry_CrossTerm_Derivative_Flow (s : t) (iPoint iDim : nat) (der : T) : t :=
  with_Geometry_CrossTerm_Derivative_Flow s (store2 (Geometry_CrossTerm_Derivative_Flow s) iPoint iDim der).

Definition Get_OldSolution_Geometry (s : t) (iPoint iDim : nat) : T :=
  Solution_Geometry_Old s iPoint iDim.

Definition Set_BGSSolution (s : t) (iPoint iDim : nat) (val_solution : T) : t :=
  with_Solution_BGS s (store2 (Solution_BGS s) iPoint iDim val_solution).

Definition Get_BGSSolution (s : t) (iPoint iDim : nat) : T :=
  Solution_BGS s iPoint iDim.

Definition SetCross_Term_Derivative (s : t) (iPoint iVar : nat) (der : T) : t :=
  with_Cross_Term_Derivative s (store2 (Cross_Term_Derivative s) iPoint iVar der).

Definition GetCross_Term_Derivative (s : t) (iPoint iVar : nat) : T :=
  Cross_Term_Derivative s iPoint iVar.

Definition SetSensitivity_ShiftedLagrangian (s : t) (iPoint iDim : nat) (val : T) : t :=
  with_Sensitivity_ShiftedLagrangian s (store2 (Sensitivity_ShiftedLagrangian s) iPoint iDim val).

Definition SetSensitivity_AugmentedLagrangian (s : t) (iPoint iDim kind : nat)
           (val : T) : t :=
  with_Sensitivity_AugmentedLagrangian s
    (store3 (Sensitivity_AugmentedLagrangian s) iPoint iDim kind val).

Definition GetSensitivity_ShiftedLagrangian (s : t) (iPoint iDim : nat) : T :=
  Sensitivity_ShiftedLagrangian s iPoint iDim.

Definition GetSensitivity_AugmentedLagrangian (s : t) (iPoint iDim kind : nat) : T :=
  Sensitivity_AugmentedLagrangian s iPoint iDim kind.

End Variable_class.
End CDiscAdjVariable.

(** ** Faces seen from the other side *)

Module Reversed.
Local Open Scope R_scope.

(** The normal pointing the other way. *)
Definition opposite (N : array R) : array R := fun d => - N d.

(** The same face with its two sides exchanged and its normal reversed:
    what the kernel sees when the edge is traversed from j to i. *)
Definition face (n : CNumerics R) : CNumerics R :=
  {| nDim := nDim n;  nVar := nVar n;
     V_i := V_j n;  V_j := V_i n;
     U_i := U_j n;  U_j := U_i n;
     Normal := opposite (Normal n);
     Und_Lapl_i := Und_Lapl_j n;  Und_Lapl_j := Und_Lapl_i n;
     Sensor_i := Sensor_j n;  Sensor_j := Sensor_i n;
     Neighbor_i := Neighbor_j n;  Neighbor_j := Neighbor_i n;
     Lambda_i := Lambda_j n;  Lambda_j := Lambda_i n |}.

End Reversed.

(** * Properties *)

(** ** Stores and loops *)

Section Loops.
Context {T : Type}.

Lemma store_same (a : array T) i v : store a i v i = v.
Proof. unfold store. now rewrite Nat.eqb_refl. Qed.

Lemma store_other (a : array T) i v k : k <> i -> store a i v k = a k.
Proof.
  intros Hk. unfold store.
  destruct (Nat.eqb_spec k i); [contradiction | reflexivity].
Qed.

Lemma store2_same (m : matrix T) i j v : store2 m i j v i j = v.
Proof. unfold store2. now rewrite !Nat.eqb_refl. Qed.

Lemma store2_other (m : matrix T) i j v r c :
  r <> i \/ c <> j -> store2 m i j v r c = m r c.
Proof.
  intros Hrc. unfold store2.
  destruct (Nat.eqb_spec r i), (Nat.eqb_spec c j); simpl; try reflexivity.
  destruct Hrc; contradiction.
Qed.

(** A loop that rewrites cell [i] from its own content at step [i]
    leaves the cells from [n] on as they were ... *)
Lemma for_loop_store_beyond (h : nat -> T -> T) (a : array T) n k :
  n <= k ->
  for_loop n (fun i r => store r i (h i (r i))) a k = a k.
Proof.
  induction n as [|n IH]; simpl; intros Hk.
  - reflexivity.
  - rewrite store_other by lia. apply IH. lia.
Qed.

(** ... and has rewritten each cell below [n] exactly once. *)
Lemma for_loop_store (h : nat -> T -> T) (a : array T) n k :
  for_loop n (fun i r => store r i (h i (r i))) a k
  = if k <? n then h k (a k) else a k.
Proof.
  induction n as [|n IH]; simpl.
  - reflexivity.
  - destruct (Nat.eq_dec k n) as [->|Hk].
    + rewrite store_same, for_loop_store_beyond by lia.
      now rewrite (proj2 (Nat.ltb_lt n (S n))) by lia.
    + rewrite store_other by assumption. rewrite IH.
      destruct (Nat.ltb_spec k n), (Nat.ltb_spec k (S n)); try reflexivity; lia.
Qed.

End Loops.

(** ** The scalar interface at the reals, unfolded *)

(** Evaluate a closed call down to an expression over the reals. *)
Ltac real_eval :=
  cbv -[Rplus Rmult Rinv Rminus Rdiv Ropp IZR Rabs Rmax Rpow R_sqrt.sqrt
        Rlt_dec Rle_dec Req_dec_T].

Ltac su2_real :=
  cbn [lit cast add sub mul div fabs sqrt pow max gt SU2Double_R] in *;
  unfold Q2R in *; cbn [Qnum Qden] in *.

Lemma to_list_ext {T} (n : nat) (a : array T) (f : nat -> T) :
  (forall k, k < n -> a k = f k) -> to_list n a = map f (seq 0 n).
Proof.
  intros Hk. unfold to_list. apply map_ext_in.
  intros k Hin. apply in_seq in Hin. apply Hk. lia.
Qed.

(** ** CPressureSource *)

(** C6.  The residual of [CPressureSource::ComputeResidual] is, in each of
    the [nDim] directions, the mean of the two pressures times the normal
    component; cells beyond stay as they were and the Jacobian buffer comes
    back as it went in.  For pressures 10 and 20 and normal (1,0) the
    residual is (15,0). *)
Theorem pressure_source_residual :
  (forall (T : Type) (A : SU2Double T) (k : CPressureSource.t)
          (n : CNumerics T) (res : array T) (Jac : matrix T),
      let out := CPressureSource.ComputeResidual k n res Jac in
      to_list (nDim n) (CPressureSource.val_residual out)
      = map (fun d => (lit 0.5 * (V_i n 0 + V_j n 0) * Normal n d)%su2)
            (seq 0 (nDim n))
      /\ (forall d, nDim n <= d -> CPressureSource.val_residual out d = res d)
      /\ CPressureSource.val_Jacobian_i out = Jac)
  /\ (let out := CPressureSource.ComputeResidual
                   (CPressureSource.new 2 2 (Samples.config EULER_IMPLICIT) 0%R)
                   (Samples.face 10 20 0 0 0 0 1) Samples.zeros Samples.zeros2 in
      to_list 2 (CPressureSource.val_residual out) = [15; 0]%R
      /\ CPressureSource.val_Jacobian_i out = Samples.zeros2).
Proof.
  split.
  - intros T A k n res Jac out. repeat split.
    + apply to_list_ext. intros d Hd. subst out. cbn.
      rewrite (for_loop_store (fun i _ => _)).
      now rewrite (proj2 (Nat.ltb_lt d (nDim n))) by assumption.
    + intros d Hd. subst out. cbn.
      now rewrite (for_loop_store_beyond (fun i _ => _)) by assumption.
  - split; [|reflexivity].
    cbn. unfold store, of_list. cbn. su2_real. f_equal; [lra|f_equal; lra].
Qed.

(** ** CUpwPB_Flow *)

Section Upwind_loops.
Context {T : Type} `{SU2Double T}.
Local Open Scope su2_scope.

(** What the first loop of [CUpwPB_Flow::ComputeResidual] leaves behind
    after [m] rounds. *)
Lemma upwind_flux_loop (n : CNumerics T) (rho_i rho_j : T)
      (a b c : array T) (f0 : T) (m : nat) :
  let '(Vel_i, Vel_j, MeanVel, FF) :=
    for_loop m (CUpwPB_Flow.flux_loop n rho_i rho_j) (a, b, c, f0) in
  (forall d, Vel_i d = if d <? m then V_i n (d + 1)%nat else a d)
  /\ (forall d, Vel_j d = if d <? m then V_j n (d + 1)%nat else b d)
  /\ (forall d, MeanVel d
                = if d <? m
                  then lit 0.5 * (V_i n (d + 1)%nat + V_j n (d + 1)%nat)
                  else c d)
  /\ FF = for_loop m (fun d acc =>
            acc + lit 0.5 * (rho_i + rho_j)
                  * (lit 0.5 * (V_i n (d + 1)%nat + V_j n (d + 1)%nat))
                  * Normal n d) f0.
Proof.
  induction m as [|m IH]; cbn [for_loop].
  - repeat split; reflexivity.
  - destruct (for_loop m (CUpwPB_Flow.flux_loop n rho_i rho_j) (a, b, c, f0))
      as [[[Vi Vj] Mv] FF].
    destruct IH as (HVi & HVj & HMv & HFF). cbn -[Nat.ltb].
    assert (Hlt : forall d, d <> m -> (d <? S m) = (d <? m)).
    { intros d Hd.
      destruct (Nat.ltb_spec d m), (Nat.ltb_spec d (S m)); try reflexivity; lia. }
    repeat split.
    + intros d. destruct (Nat.eq_dec d m) as [->|Hd].
      * rewrite store_same. now rewrite (proj2 (Nat.ltb_lt m (S m))) by lia.
      * rewrite store_other, Hlt by assumption. apply HVi.
    + intros d. destruct (Nat.eq_dec d m) as [->|Hd].
      * rewrite store_same. now rewrite (proj2 (Nat.ltb_lt m (S m))) by lia.
      * rewrite store_other, Hlt by assumption. apply HVj.
    + intros d. destruct (Nat.eq_dec d m) as [->|Hd].
      * rewrite !store_same. now rewrite (proj2 (Nat.ltb_lt m (S m))) by lia.
      * rewrite store_other, Hlt by assumption. apply HMv.
    + rewrite !store_same. now rewrite HFF.
Qed.

End Upwind_loops.

(** Over the reals a common factor leaves the accumulated sum. *)
Lemma dot_scaled (c : R) (x y : array R) (m : nat) :
  for_loop m (fun d acc => (acc + c * x d * y d)%su2) (lit 0.0)
  = (c * CNumerics_routines.dot m x y)%R.
Proof.
  unfold CNumerics_routines.dot.
  induction m as [|m IH]; cbn [for_loop].
  - su2_real. lra.
  - rewrite IH. su2_real. lra.
Qed.

(** C2.  With the mass flux built from the arithmetic means of the two
    sides, the residual of [CUpwPB_Flow::ComputeResidual] is the mass flux
    times the velocity of side i when the mass flux is positive and times the
    velocity of side j otherwise, a zero mass flux included. *)
Theorem upwind_residual_donor
        (PJ : nat -> R -> array R -> array R -> R -> matrix R -> matrix R)
        (k : CUpwPB_Flow.t) (n : CNumerics R)
        (res : array R) (Jac_i Jac_j : matrix R) :
  let out := CUpwPB_Flow.ComputeResidual PJ k n res Jac_i Jac_j in
  let velocity_i := Face.velocity (V_i n) in
  let velocity_j := Face.velocity (V_j n) in
  let meanVelocity := fun d => (/ 2 * (velocity_i d + velocity_j d))%R in
  let meanDensity :=
    (/ 2 * (Face.density (nDim n) (V_i n) + Face.density (nDim n) (V_j n)))%R in
  let massFlux :=
    (meanDensity * CNumerics_routines.dot (nDim n) meanVelocity (Normal n))%R in
  CUpwPB_Flow.Face_Flux (self out) = massFlux
  /\ ((massFlux > 0)%R ->
      forall iVar, iVar < nVar n ->
        val_residual out iVar = (massFlux * velocity_i iVar)%R)
  /\ ((massFlux <= 0)%R ->
      forall iVar, iVar < nVar n ->
        val_residual out iVar = (massFlux * velocity_j iVar)%R).
Proof.
  intros out velocity_i velocity_j meanVelocity meanDensity massFlux.
  subst out velocity_i velocity_j meanVelocity meanDensity massFlux.
  unfold CUpwPB_Flow.ComputeResidual, Face.density, Face.velocity.
  pose proof (upwind_flux_loop n (V_i n (nDim n + 1)) (V_j n (nDim n + 1))
                (CUpwPB_Flow.Velocity_i k) (CUpwPB_Flow.Velocity_j k)
                (CUpwPB_Flow.MeanVelocity k) (lit 0.0) (nDim n)) as L.
  destruct (for_loop (nDim n) _ _) as [[[Vi Vj] Mv] FF].
  destruct L as (_ & _ & _ & HFF).
  assert (HFF' : FF = (/ 2 * (V_i n (nDim n + 1)%nat + V_j n (nDim n + 1)%nat)
                       * CNumerics_routines.dot (nDim n)
                           (fun d => / 2 * (V_i n (d + 1)%nat + V_j n (d + 1)%nat))
                           (Normal n))%R).
  { rewrite HFF, <- dot_scaled. su2_real.
    replace (5 * / 10)%R with (/ 2)%R by lra. reflexivity. }
  destruct (CUpwPB_Flow.implicit k);
    [ destruct (for_loop (nVar n) _ (Jac_i, Jac_j)) as [Ji Jj] | ];
    cbn [self val_residual CUpwPB_Flow.Face_Flux].
  all: repeat match goal with |- context [let '(_, _) := ?c in _] =>
                destruct c end;
    cbn [self val_residual CUpwPB_Flow.Face_Flux].
  all: rewrite <- HFF'; (split; [reflexivity|]);
    (split; intros Hsign iVar HiVar).
  all: cbn [gt SU2Double_R]; unfold Rgt_bool; su2_real;
    replace (0 * / 10)%R with 0%R by lra;
    destruct (Rlt_dec 0 FF) as [Hpos|Hneg]; try lra;
    rewrite (for_loop_store (fun i _ => _)), (proj2 (Nat.ltb_lt _ _)) by assumption;
    reflexivity.
Qed.

(** On a face with unit density, velocity (1,0) on both sides and normal
    (1,0) the mass flux is 1 and the residual is (1,0). *)
Lemma upwind_residual_donor_witness :
  let n := Samples.face 0 0 1 1 0 0 1 in
  let out := CUpwPB_Flow.ComputeResidual Samples.PJ
               (Samples.upwind EULER_EXPLICIT) n
               Samples.zeros Samples.zeros2 Samples.zeros2 in
  val_residual out 0 = 1%R /\ val_residual out 1 = 0%R.
Proof.
  intros n out.
  pose proof (upwind_residual_donor Samples.PJ (Samples.upwind EULER_EXPLICIT)
                n Samples.zeros Samples.zeros2 Samples.zeros2) as P.
  cbv zeta in P. fold out in P.
  destruct P as (_ & Hpos & _).
  assert (Hm : (/ 2 * (Face.density (nDim n) (V_i n) + Face.density (nDim n) (V_j n))
                * CNumerics_routines.dot (nDim n)
                    (fun d => / 2 * (Face.velocity (V_i n) d + Face.velocity (V_j n) d))
                    (Normal n) = 1)%R).
  { subst n. real_eval. lra. }
  rewrite Hm in Hpos.
  assert (H1 : (1 > 0)%R) by lra.
  split.
  - rewrite (Hpos H1 0) by (cbn; lia). subst n. real_eval. lra.
  - rewrite (Hpos H1 1) by (cbn; lia). subst n. real_eval. lra.
Defined.

(** ** Loops of the two central kernels *)

Section Central_loops.
Context {T : Type} `{SU2Double T}.
Local Open Scope su2_scope.

Lemma ltb_succ_other (d m : nat) : d <> m -> (d <? S m) = (d <? m).
Proof.
  intros Hd.
  destruct (Nat.ltb_spec d m), (Nat.ltb_spec d (S m)); try reflexivity; lia.
Qed.

Lemma ltb_succ_same (m : nat) : (m <? S m) = true.
Proof. apply Nat.ltb_lt. lia. Qed.

Lemma jst_velocity_loop (n : CNumerics T) (a b c : array T) (s t : T) (m : nat) :
  let '(Vel_i, Vel_j, _, _, MeanVel) :=
    for_loop m (CCentJSTPB_Flow.velocity_loop n) (a, b, s, t, c) in
  (forall d, Vel_i d = if d <? m then V_i n (d + 1)%nat else a d)
  /\ (forall d, Vel_j d = if d <? m then V_j n (d + 1)%nat else b d)
  /\ (forall d, MeanVel d
                = if d <? m
                  then lit 0.5 * (V_i n (d + 1)%nat + V_j n (d + 1)%nat)
                  else c d).
Proof.
  induction m as [|m IH]; cbn [for_loop].
  - repeat split; reflexivity.
  - destruct (for_loop m (CCentJSTPB_Flow.velocity_loop n) (a, b, s, t, c))
      as [[[[Vi Vj] si] sj] Mv].
    destruct IH as (HVi & HVj & HMv). cbn -[Nat.ltb].
    repeat split; intros d; (destruct (Nat.eq_dec d m) as [->|Hd];
      [ rewrite !store_same, ltb_succ_same; reflexivity
      | rewrite store_other, ltb_succ_other by assumption; auto ]).
Qed.

Lemma lax_velocity_loop (n : CNumerics T) (a b : array T) (s t : T) (m : nat) :
  let '(Vel_i, Vel_j, _, _) :=
    for_loop m (CCentLaxPB_Flow.velocity_loop n) (a, b, s, t) in
  (forall d, Vel_i d = if d <? m then V_i n (d + 1)%nat else a d)
  /\ (forall d, Vel_j d = if d <? m then V_j n (d + 1)%nat else b d).
Proof.
  induction m as [|m IH]; cbn [for_loop].
  - repeat split; reflexivity.
  - destruct (for_loop m (CCentLaxPB_Flow.velocity_loop n) (a, b, s, t))
      as [[[Vi Vj] si] sj].
    destruct IH as (HVi & HVj). cbn -[Nat.ltb].
    repeat split; intros d; (destruct (Nat.eq_dec d m) as [->|Hd];
      [ rewrite !store_same, ltb_succ_same; reflexivity
      | rewrite store_other, ltb_succ_other by assumption; auto ]).
Qed.

Lemma lax_conservative_loop (rho_i rho_j : T) (Vi Vj a b : array T) (m : nat) :
  let '(Ui, Uj) :=
    for_loop m (CCentLaxPB_Flow.conservative_loop rho_i rho_j Vi Vj) (a, b) in
  (forall d, Ui d = if d <? m then rho_i * Vi d else a d)
  /\ (forall d, Uj d = if d <? m then rho_j * Vj d else b d).
Proof.
  induction m as [|m IH]; cbn [for_loop].
  - repeat split; reflexivity.
  - destruct (for_loop m _ (a, b)) as [Ui Uj].
    destruct IH as (HUi & HUj). cbn -[Nat.ltb].
    repeat split; intros d; (destruct (Nat.eq_dec d m) as [->|Hd];
      [ rewrite !store_same, ltb_succ_same; reflexivity
      | rewrite store_other, ltb_succ_other by assumption; auto ]).
Qed.

Lemma jst_diff_loop (n : CNumerics T) (a b : array T) (m : nat) :
  let '(DLapl, DU) := for_loop m (CCentJSTPB_Flow.diff_loop n) (a, b) in
  (forall v, DLapl v = if v <? m then Und_Lapl_i n v - Und_Lapl_j n v else a v)
  /\ (forall v, DU v = if v <? m then U_i n v - U_j n v else b v).
Proof.
  induction m as [|m IH]; cbn [for_loop].
  - repeat split; reflexivity.
  - destruct (for_loop m _ (a, b)) as [DL DU].
    destruct IH as (HDL & HDU). cbn -[Nat.ltb].
    repeat split; intros d; (destruct (Nat.eq_dec d m) as [->|Hd];
      [ rewrite !store_same, ltb_succ_same; reflexivity
      | rewrite store_other, ltb_succ_other by assumption; auto ]).
Qed.

(** The projection loops accumulate three independent sums. *)
Lemma jst_proj_loop (n : CNumerics T) (Vi Vj : array T) (x y z : T) (m : nat) :
  for_loop m (CCentJSTPB_Flow.proj_loop n Vi Vj) (x, y, z)
  = (for_loop m (fun d acc => acc + Vi d * Normal n d) x,
     for_loop m (fun d acc => acc + Vj d * Normal n d) y,
     for_loop m (fun d acc => acc + Normal n d * Normal n d) z).
Proof.
  induction m as [|m IH]; cbn [for_loop].
  - reflexivity.
  - rewrite IH. reflexivity.
Qed.

Lemma lax_proj_loop (n : CNumerics T) (Vi Vj : array T) (x y z : T) (m : nat) :
  for_loop m (CCentLaxPB_Flow.proj_loop n Vi Vj) (x, y, z)
  = (for_loop m (fun d acc => acc + Vi d * Normal n d) x,
     for_loop m (fun d acc => acc + Vj d * Normal n d) y,
     for_loop m (fun d acc => acc + Normal n d * Normal n d) z).
Proof.
  induction m as [|m IH]; cbn [for_loop].
  - reflexivity.
  - rewrite IH. reflexivity.
Qed.

(** An accumulated sum reads only the first [m] cells of its operands. *)
Lemma sum_loop_ext (x x' y : array T) (z : T) (m : nat) :
  (forall d, d < m -> x d = x' d) ->
  for_loop m (fun d acc => acc + x d * y d) z
  = for_loop m (fun d acc => acc + x' d * y d) z.
Proof.
  intros Hx. induction m as [|m IH]; cbn [for_loop].
  - reflexivity.
  - rewrite IH, Hx by (intros; try apply Hx; lia). reflexivity.
Qed.

(** Row by row, column by column: a rectangle of cells is overwritten. *)
Lemma fill_loop (f : nat -> nat -> T) (J : matrix T) (rows cols r c : nat) :
  for_loop rows (fun i => for_loop cols (fun j M => store2 M i j (f i j))) J r c
  = if (r <? rows) && (c <? cols) then f r c else J r c.
Proof.
  assert (Hrow : forall i M cs,
    for_loop cs (fun j M => store2 M i j (f i j)) M r c
    = if Nat.eqb r i && (c <? cs) then f r c else M r c).
  { intros i M cs. induction cs as [|cs IH]; cbn [for_loop].
    - now rewrite andb_false_r.
    - destruct (Nat.eq_dec r i) as [->|Hr].
      + rewrite Nat.eqb_refl in *. cbn [andb] in *.
        destruct (Nat.eq_dec c cs) as [->|Hc].
        * now rewrite store2_same, ltb_succ_same.
        * rewrite store2_other, ltb_succ_other by auto. exact IH.
      + rewrite store2_other by auto. rewrite IH.
        destruct (Nat.eqb_spec r i); [contradiction | reflexivity]. }
  induction rows as [|rows IH]; cbn [for_loop].
  - reflexivity.
  - rewrite Hrow, IH.
    destruct (Nat.eq_dec r rows) as [->|Hr].
    + rewrite Nat.eqb_refl, ltb_succ_same. cbn [andb].
      rewrite (proj2 (Nat.ltb_ge rows rows)) by lia. reflexivity.
    + rewrite ltb_succ_other by assumption.
      destruct (Nat.eqb_spec r rows); [contradiction | reflexivity].
Qed.

(** The last loop of the implicit branch touches the diagonal only. *)
Lemma diagonal_loop (c0 c1 : T) (A B : matrix T) (m r c : nat) :
  let '(Ji, Jj) :=
    for_loop m (fun iVar '(Ji, Jj) =>
      let Ji := store2 Ji iVar iVar (Ji iVar iVar + c0) in
      let Jj := store2 Jj iVar iVar (Jj iVar iVar - c1) in
      (Ji, Jj)) (A, B) in
  Ji r c = (if Nat.eqb r c && (r <? m) then A r c + c0 else A r c)
  /\ Jj r c = (if Nat.eqb r c && (r <? m) then B r c - c1 else B r c).
Proof.
  induction m as [|m IH]; cbn [for_loop].
  - rewrite andb_false_r. split; reflexivity.
  - destruct (for_loop m _ (A, B)) as [Ji Jj]. destruct IH as [Hi Hj].
    destruct (Nat.eq_dec r m) as [->|Hr].
    + destruct (Nat.eq_dec c m) as [->|Hc].
      * rewrite !store2_same.
        rewrite Nat.eqb_refl, ltb_succ_same. cbn [andb].
        rewrite Nat.eqb_refl in Hi, Hj.
        rewrite (proj2 (Nat.ltb_ge m m)) in Hi, Hj by lia.
        cbn [andb] in Hi, Hj. rewrite Hi, Hj. split; reflexivity.
      * rewrite !store2_other by auto.
        rewrite Hi, Hj.
        destruct (Nat.eqb_spec m c); [congruence | split; reflexivity].
    + rewrite !store2_other by auto.
      rewrite ltb_succ_other by assumption. rewrite Hi, Hj. split; reflexivity.
Qed.

End Central_loops.

(** ** Opening a call of a central kernel *)

(** Open a call of [CCentJSTPB_Flow::ComputeResidual]: name what its loops
    produce and keep what the loop lemmas say about them. *)
Ltac open_jst k n :=
  unfold CCentJSTPB_Flow.ComputeResidual;
  let LV := fresh "LV" in
  let LD := fresh "LD" in
  pose proof (jst_velocity_loop n (CCentJSTPB_Flow.Velocity_i k)
                (CCentJSTPB_Flow.Velocity_j k) (CCentJSTPB_Flow.MeanVelocity k)
                (lit 0.0) (lit 0.0) (nDim n)) as LV;
  destruct (for_loop (nDim n) (CCentJSTPB_Flow.velocity_loop n) _)
    as [[[[?Vi ?Vj] ?si] ?sj] ?Mv];
  pose proof (jst_diff_loop n (CCentJSTPB_Flow.Diff_Lapl k)
                (CCentJSTPB_Flow.Diff_U k) (nVar n)) as LD;
  destruct (for_loop (nVar n) (CCentJSTPB_Flow.diff_loop n) _) as [?DL ?DU];
  rewrite jst_proj_loop.

(** Open a call of [CCentLaxPB_Flow::ComputeResidual]. *)
Ltac open_lax k n :=
  unfold CCentLaxPB_Flow.ComputeResidual; cbv zeta;
  let LV := fresh "LV" in
  let LU := fresh "LU" in
  pose proof (lax_velocity_loop n (CCentLaxPB_Flow.Velocity_i k)
                (CCentLaxPB_Flow.Velocity_j k) (lit 0.0) (lit 0.0) (nDim n)) as LV;
  destruct (for_loop (nDim n) (CCentLaxPB_Flow.velocity_loop n) _)
    as [[[?Vi ?Vj] ?si] ?sj];
  match goal with
  | |- context [for_loop (nDim n)
                  (CCentLaxPB_Flow.conservative_loop ?ri ?rj ?vi ?vj) (?a, ?b)] =>
      pose proof (lax_conservative_loop ri rj vi vj a b (nDim n)) as LU
  end;
  destruct (for_loop (nDim n) (CCentLaxPB_Flow.conservative_loop _ _ _ _) _)
    as [?Ui ?Uj];
  rewrite lax_proj_loop.

(** ** The stretching factor of the two central kernels *)

Section Stretching.
Context {T : Type} `{SU2Double T}.
Variable PF : nat -> T -> array T -> T -> array T -> array T -> array T.
Variable PJ : nat -> T -> array T -> array T -> T -> matrix T -> matrix T.
Variable n : CNumerics T.
Variables (res : array T) (Jac_i Jac_j : matrix T).
Local Open Scope su2_scope.

Lemma jst_stretching (k : CCentJSTPB_Flow.t) :
  let o := self (CCentJSTPB_Flow.ComputeResidual PF PJ k n res Jac_i Jac_j) in
  let local_i :=
    fabs (lit 2.0 * CNumerics_routines.dot (nDim n) (Face.velocity (V_i n)) (Normal n)) in
  let local_j :=
    fabs (lit 2.0 * CNumerics_routines.dot (nDim n) (Face.velocity (V_j n)) (Normal n)) in
  let meanLambda := lit 0.5 * (local_i + local_j) in
  let phi_i := pow (Lambda_i n / (lit 4.0 * meanLambda)) (CCentJSTPB_Flow.Param_p k) in
  let phi_j := pow (Lambda_j n / (lit 4.0 * meanLambda)) (CCentJSTPB_Flow.Param_p k) in
  CCentJSTPB_Flow.ProjVelocity_i o
  = CNumerics_routines.dot (nDim n) (Face.velocity (V_i n)) (Normal n)
  /\ CCentJSTPB_Flow.ProjVelocity_j o
     = CNumerics_routines.dot (nDim n) (Face.velocity (V_j n)) (Normal n)
  /\ CCentJSTPB_Flow.Local_Lambda_i o = local_i
  /\ CCentJSTPB_Flow.Local_Lambda_j o = local_j
  /\ CCentJSTPB_Flow.MeanLambda o = meanLambda
  /\ CCentJSTPB_Flow.Phi_i o = phi_i
  /\ CCentJSTPB_Flow.Phi_j o = phi_j
  /\ CCentJSTPB_Flow.StretchingFactor o = lit 4.0 * phi_i * phi_j / (phi_i + phi_j).
Proof.
  intros o local_i local_j meanLambda phi_i phi_j.
  subst o phi_i phi_j meanLambda local_i local_j.
  assert (Hin : forall d, d < nDim n -> (d <? nDim n) = true)
    by (intros; now apply Nat.ltb_lt).
  open_jst k n. destruct LV as (HVi & HVj & _).
  assert (Ei : for_loop (nDim n) (fun d acc => acc + Vi d * Normal n d) (lit 0.0)
               = CNumerics_routines.dot (nDim n) (Face.velocity (V_i n)) (Normal n)).
  { apply sum_loop_ext. intros d Hd. now rewrite HVi, Hin. }
  assert (Ej : for_loop (nDim n) (fun d acc => acc + Vj d * Normal n d) (lit 0.0)
               = CNumerics_routines.dot (nDim n) (Face.velocity (V_j n)) (Normal n)).
  { apply sum_loop_ext. intros d Hd. now rewrite HVj, Hin. }
  destruct (CCentJSTPB_Flow.implicit k);
    [ destruct (for_loop (nVar n) _ (_, _)) as [Ji Jj] | ];
    cbn; rewrite Ei, Ej; repeat split; reflexivity.
Qed.

Lemma lax_stretching (k : CCentLaxPB_Flow.t) :
  let o := self (CCentLaxPB_Flow.ComputeResidual PF PJ k n res Jac_i Jac_j) in
  let local_i :=
    fabs (lit 2.0 * CNumerics_routines.dot (nDim n) (Face.velocity (V_i n)) (Normal n)) in
  let local_j :=
    fabs (lit 2.0 * CNumerics_routines.dot (nDim n) (Face.velocity (V_j n)) (Normal n)) in
  let meanLambda := lit 0.5 * (local_i + local_j) in
  let phi_i := pow (Lambda_i n / (lit 4.0 * meanLambda)) (CCentLaxPB_Flow.Param_p k) in
  let phi_j := pow (Lambda_j n / (lit 4.0 * meanLambda)) (CCentLaxPB_Flow.Param_p k) in
  CCentLaxPB_Flow.ProjVelocity_i o
  = CNumerics_routines.dot (nDim n) (Face.velocity (V_i n)) (Normal n)
  /\ CCentLaxPB_Flow.ProjVelocity_j o
     = CNumerics_routines.dot (nDim n) (Face.velocity (V_j n)) (Normal n)
  /\ CCentLaxPB_Flow.Local_Lambda_i o = local_i
  /\ CCentLaxPB_Flow.Local_Lambda_j o = local_j
  /\ CCentLaxPB_Flow.MeanLambda o = meanLambda
  /\ CCentLaxPB_Flow.Phi_i o = phi_i
  /\ CCentLaxPB_Flow.Phi_j o = phi_j
  /\ CCentLaxPB_Flow.StretchingFactor o = lit 4.0 * phi_i * phi_j / (phi_i + phi_j).
Proof.
  intros o local_i local_j meanLambda phi_i phi_j.
  subst o phi_i phi_j meanLambda local_i local_j.
  assert (Hin : forall d, d < nDim n -> (d <? nDim n) = true)
    by (intros; now apply Nat.ltb_lt).
  open_lax k n. destruct LV as (HVi & HVj).
  assert (Ei : for_loop (nDim n) (fun d acc => acc + Vi d * Normal n d) (lit 0.0)
               = CNumerics_routines.dot (nDim n) (Face.velocity (V_i n)) (Normal n)).
  { apply sum_loop_ext. intros d Hd. now rewrite HVi, Hin. }
  assert (Ej : for_loop (nDim n) (fun d acc => acc + Vj d * Normal n d) (lit 0.0)
               = CNumerics_routines.dot (nDim n) (Face.velocity (V_j n)) (Normal n)).
  { apply sum_loop_ext. intros d Hd. now rewrite HVj, Hin. }
  destruct (CCentLaxPB_Flow.implicit k);
    [ destruct (for_loop (nVar n) _ (_, _)) as [Ji Jj] | ];
    cbn; rewrite Ei, Ej; repeat split; reflexivity.
Qed.

(** The exponent is set by the constructor and kept by every call. *)
Lemma param_p_kept (kj : CCentJSTPB_Flow.t) (kl : CCentLaxPB_Flow.t)
      (d v : nat) (config : CConfig T) (fresh : array T) (fresh0 : T) :
  CCentJSTPB_Flow.Param_p (CCentJSTPB_Flow.new d v config fresh fresh0) = lit 0.3
  /\ CCentLaxPB_Flow.Param_p (CCentLaxPB_Flow.new d v config fresh fresh0) = lit 0.3
  /\ CCentJSTPB_Flow.Param_p
       (self (CCentJSTPB_Flow.ComputeResidual PF PJ kj n res Jac_i Jac_j))
     = CCentJSTPB_Flow.Param_p kj
  /\ CCentLaxPB_Flow.Param_p
       (self (CCentLaxPB_Flow.ComputeResidual PF PJ kl n res Jac_i Jac_j))
     = CCentLaxPB_Flow.Param_p kl.
Proof.
  split; [reflexivity|]. split; [reflexivity|]. split.
  - open_jst kj n.
    destruct (CCentJSTPB_Flow.implicit kj);
      [ destruct (for_loop (nVar n) _ (_, _)) as [Ji Jj] | ]; reflexivity.
  - open_lax kl n.
    destruct (CCentLaxPB_Flow.implicit kl);
      [ destruct (for_loop (nVar n) _ (_, _)) as [Ji Jj] | ]; reflexivity.
Qed.

End Stretching.

(** C1, as the code has it.  In both central kernels the local spectral
    radii |2 (velocity . normal)| of the call enter the mean lambda only.
    The blending exponents are powers 0.3 of Lambda_i / (4 meanLambda) and
    Lambda_j / (4 meanLambda), where Lambda_i and Lambda_j are the members
    the caller set on the object before the call; the stretching factor is
    4 phi_i phi_j / (phi_i + phi_j). *)
Theorem blending_exponents_from_nodal_lambda :
  forall (T : Type) (A : SU2Double T)
         (PF : nat -> T -> array T -> T -> array T -> array T -> array T)
         (PJ : nat -> T -> array T -> array T -> T -> matrix T -> matrix T)
         (kj : CCentJSTPB_Flow.t) (kl : CCentLaxPB_Flow.t) (n : CNumerics T)
         (res : array T) (Jac_i Jac_j : matrix T),
    CCentJSTPB_Flow.Param_p kj = lit 0.3 ->
    CCentLaxPB_Flow.Param_p kl = lit 0.3 ->
    let oj := self (CCentJSTPB_Flow.ComputeResidual PF PJ kj n res Jac_i Jac_j) in
    let ol := self (CCentLaxPB_Flow.ComputeResidual PF PJ kl n res Jac_i Jac_j) in
    let local_i :=
      fabs (lit 2.0 * CNumerics_routines.dot (nDim n) (Face.velocity (V_i n)) (Normal n))%su2 in
    let local_j :=
      fabs (lit 2.0 * CNumerics_routines.dot (nDim n) (Face.velocity (V_j n)) (Normal n))%su2 in
    let meanLambda := (lit 0.5 * (local_i + local_j))%su2 in
    let phi_i := pow (Lambda_i n / (lit 4.0 * meanLambda))%su2 (lit 0.3) in
    let phi_j := pow (Lambda_j n / (lit 4.0 * meanLambda))%su2 (lit 0.3) in
    let stretch := (lit 4.0 * phi_i * phi_j / (phi_i + phi_j))%su2 in
    (CCentJSTPB_Flow.Local_Lambda_i oj = local_i
     /\ CCentJSTPB_Flow.Local_Lambda_j oj = local_j
     /\ CCentJSTPB_Flow.MeanLambda oj = meanLambda
     /\ CCentJSTPB_Flow.Phi_i oj = phi_i
     /\ CCentJSTPB_Flow.Phi_j oj = phi_j
     /\ CCentJSTPB_Flow.StretchingFactor oj = stretch)
    /\ (CCentLaxPB_Flow.Local_Lambda_i ol = local_i
        /\ CCentLaxPB_Flow.Local_Lambda_j ol = local_j
        /\ CCentLaxPB_Flow.MeanLambda ol = meanLambda
        /\ CCentLaxPB_Flow.Phi_i ol = phi_i
        /\ CCentLaxPB_Flow.Phi_j ol = phi_j
        /\ CCentLaxPB_Flow.StretchingFactor ol = stretch).
Proof.
  intros T A PF PJ kj kl n res Jac_i Jac_j Hpj Hpl
         oj ol local_i local_j meanLambda phi_i phi_j stretch.
  subst oj ol local_i local_j meanLambda phi_i phi_j stretch.
  pose proof (jst_stretching PF PJ n res Jac_i Jac_j kj) as Sj.
  pose proof (lax_stretching PF PJ n res Jac_i Jac_j kl) as Sl.
  cbv zeta in Sj, Sl. rewrite Hpj in Sj. rewrite Hpl in Sl.
  destruct Sj as (_ & _ & Sj). destruct Sl as (_ & _ & Sl).
  split; assumption.
Qed.

(** Both constructors set the exponent to 0.3; on a sample face with nodal
    lambdas 16 the first blending exponent is a power of 16 / (4 meanLambda). *)
Lemma blending_exponents_from_nodal_lambda_witness :
  let kj := Samples.jst EULER_EXPLICIT in
  let kl := Samples.lax EULER_EXPLICIT in
  let n := Samples.face 0 0 3 1 16 1 1 in
  let oj := self (CCentJSTPB_Flow.ComputeResidual Samples.PF Samples.PJ kj n
                    Samples.zeros Samples.zeros2 Samples.zeros2) in
  let local_i :=
    fabs (lit 2.0 * CNumerics_routines.dot (nDim n) (Face.velocity (V_i n)) (Normal n))%su2 in
  let local_j :=
    fabs (lit 2.0 * CNumerics_routines.dot (nDim n) (Face.velocity (V_j n)) (Normal n))%su2 in
  CCentJSTPB_Flow.Param_p kj = lit 0.3
  /\ CCentLaxPB_Flow.Param_p kl = lit 0.3
  /\ CCentJSTPB_Flow.Phi_i oj
     = pow (16%R / (lit 4.0 * (lit 0.5 * (local_i + local_j))))%su2 (lit 0.3).
Proof.
  intros kj kl n oj local_i local_j.
  split; [reflexivity|]. split; [reflexivity|].
  exact (proj1 (proj2 (proj2 (proj2 (proj1
           (blending_exponents_from_nodal_lambda SU2Double_R Samples.PF Samples.PJ
              kj kl n Samples.zeros Samples.zeros2 Samples.zeros2
              eq_refl eq_refl)))))).
Defined.

(** Powers at the reals. *)
Lemma Rpow_one (y : R) : Rpow 1 y = 1%R.
Proof.
  unfold Rpow. destruct (Rlt_dec 0 1) as [_|Hn]; [|exfalso; apply Hn; lra].
  unfold Rpower. rewrite ln_1, Rmult_0_r. apply exp_0.
Qed.

Lemma Rpow_below_one (x y : R) :
  (0 < x < 1)%R -> (0 < y)%R -> (0 < Rpow x y < 1)%R.
Proof.
  intros Hx Hy. unfold Rpow.
  destruct (Rlt_dec 0 x) as [_|Hn]; [|exfalso; apply Hn; lra].
  split.
  - unfold Rpower. apply exp_pos.
  - apply Rlt_le_trans with (Rpower 1 y).
    + apply Rlt_Rpower_l; lra.
    + right. unfold Rpower. rewrite ln_1, Rmult_0_r. apply exp_0.
Qed.

(** Absolute values of non-negative constants. *)
Ltac abs_eval :=
  repeat match goal with
         | |- context [Rabs ?x] => rewrite (Rabs_pos_eq x) by lra
         end.

(** C1, as the claim has it, fails.  On a face with projected velocities 3
    and 1 (local spectral radii 6 and 2, mean 4) and nodal lambdas 16 the
    code computes phi_i = (16/16)^0.3 = 1, not (6/16)^0.3. *)
Lemma blending_exponents_not_from_local_lambda :
  let n := Samples.face 0 0 3 1 16 1 1 in
  let oj := self (CCentJSTPB_Flow.ComputeResidual Samples.PF Samples.PJ
                    (Samples.jst EULER_EXPLICIT) n
                    Samples.zeros Samples.zeros2 Samples.zeros2) in
  let lambda_i :=
    fabs (lit 2.0 * CNumerics_routines.dot (nDim n) (Face.velocity (V_i n)) (Normal n))%su2 in
  let lambda_j :=
    fabs (lit 2.0 * CNumerics_routines.dot (nDim n) (Face.velocity (V_j n)) (Normal n))%su2 in
  let meanLambda := (lit 0.5 * (lambda_i + lambda_j))%su2 in
  let phi_i := pow (lambda_i / (lit 4.0 * meanLambda))%su2 (lit 0.3) in
  let phi_j := pow (lambda_j / (lit 4.0 * meanLambda))%su2 (lit 0.3) in
  ~ (CCentJSTPB_Flow.Phi_i oj = phi_i
     /\ CCentJSTPB_Flow.Phi_j oj = phi_j
     /\ CCentJSTPB_Flow.StretchingFactor oj
        = (lit 4.0 * phi_i * phi_j / (phi_i + phi_j))%su2).
Proof.
  intros n oj lambda_i lambda_j meanLambda phi_i phi_j [Hphi _].
  revert Hphi. subst oj phi_i phi_j meanLambda lambda_i lambda_j n.
  real_eval. abs_eval.
  match goal with
  | |- Rpow ?a _ = Rpow ?b _ -> False =>
      replace a with 1%R by field; replace b with (3 / 8)%R by field
  end.
  rewrite Rpow_one. intros Hphi.
  pose proof (@Rpow_below_one (3 / 8)%R (3 * / 10)%R) as Hlt. lra.
Qed.

(** ** Gravity and Froude number *)


(** ** Divisions, with faults reported *)

Lemma INR_product_zero (a b : nat) :
  (INR a * INR b)%R = 0%R <-> a = 0 \/ b = 0.
Proof.
  split.
  - intros Hab. apply Rmult_integral in Hab.
    destruct Hab as [Ha|Hb]; [left|right]; now apply INR_eq.
  - intros [->| ->]; cbn [INR]; lra.
Qed.

(** The neighbour scaling of both central kernels, evaluated with checked
    quotients. *)
Lemma checked_scaling (a b : nat) :
  (lit 3.0 * (cast a + cast b) / (cast a * cast b))%su2
  = if Nat.eqb a 0 || Nat.eqb b 0
    then Fault DivideByZero
    else Val (3 * (INR a + INR b) / (INR a * INR b)).
Proof.
  cbn. unfold checked_div.
  destruct (Req_dec_T (INR a * INR b) 0) as [Hz|Hnz].
  - apply INR_product_zero in Hz.
    destruct Hz as [->| ->]; cbn [Nat.eqb orb]; [reflexivity|].
    now rewrite orb_true_r.
  - destruct (Nat.eqb_spec a 0) as [->|Ha].
    + exfalso. apply Hnz. cbn [INR]. lra.
    + destruct (Nat.eqb_spec b 0) as [->|Hb].
      * exfalso. apply Hnz. cbn [INR]. lra.
      * cbn [orb]. f_equal. unfold Q2R. cbn [Qnum Qden].
        unfold Rdiv. f_equal. lra.
Qed.

(** C9.  Neither central kernel tests the neighbour counts before dividing
    by their product: the scaling 3 (n_i + n_j) / (n_i n_j) is a division by
    zero exactly when one of the two counts is zero, and has its value when
    both are positive. *)
Theorem neighbour_scaling_defined :
  forall (PF : nat -> checked -> array checked -> checked -> array checked
               -> array checked -> array checked)
         (PJ : nat -> checked -> array checked -> array checked -> checked
               -> matrix checked -> matrix checked)
         (kj : CCentJSTPB_Flow.t) (kl : CCentLaxPB_Flow.t) (n : CNumerics checked)
         (res : array checked) (Jac_i Jac_j : matrix checked),
    let oj := self (CCentJSTPB_Flow.ComputeResidual PF PJ kj n res Jac_i Jac_j) in
    let ol := self (CCentLaxPB_Flow.ComputeResidual PF PJ kl n res Jac_i Jac_j) in
    let n_i := Neighbor_i n in
    let n_j := Neighbor_j n in
    let scaling :=
      if Nat.eqb n_i 0 || Nat.eqb n_j 0
      then Fault DivideByZero
      else Val (3 * (INR n_i + INR n_j) / (INR n_i * INR n_j)) in
    CCentJSTPB_Flow.sc2 oj = scaling /\ CCentLaxPB_Flow.sc0 ol = scaling.
Proof.
  intros PF PJ kj kl n res Jac_i Jac_j oj ol n_i n_j scaling.
  subst oj ol n_i n_j scaling. rewrite <- checked_scaling. split.
  - open_jst kj n.
    destruct (CCentJSTPB_Flow.implicit kj);
      [ destruct (for_loop (nVar n) _ (_, _)) as [Ji Jj] | ]; reflexivity.
  - open_lax kl n.
    destruct (CCentLaxPB_Flow.implicit kl);
      [ destruct (for_loop (nVar n) _ (_, _)) as [Ji Jj] | ]; reflexivity.
Qed.

(** C8, as the code has it.  When both projected velocities are zero the
    mean lambda is zero and both central kernels divide the nodal lambdas by
    4 * 0 without any test: the two blending exponents and the stretching
    factor are divisions by zero. *)
Theorem zero_velocity_division_unguarded :
  forall (PF : nat -> checked -> array checked -> checked -> array checked
               -> array checked -> array checked)
         (PJ : nat -> checked -> array checked -> array checked -> checked
               -> matrix checked -> matrix checked)
         (kj : CCentJSTPB_Flow.t) (kl : CCentLaxPB_Flow.t) (n : CNumerics checked)
         (res : array checked) (Jac_i Jac_j : matrix checked) (l_i l_j : R),
    CNumerics_routines.dot (nDim n) (Face.velocity (V_i n)) (Normal n) = Val 0 ->
    CNumerics_routines.dot (nDim n) (Face.velocity (V_j n)) (Normal n) = Val 0 ->
    Lambda_i n = Val l_i ->
    Lambda_j n = Val l_j ->
    let oj := self (CCentJSTPB_Flow.ComputeResidual PF PJ kj n res Jac_i Jac_j) in
    let ol := self (CCentLaxPB_Flow.ComputeResidual PF PJ kl n res Jac_i Jac_j) in
    (CCentJSTPB_Flow.MeanLambda oj = Val 0
     /\ CCentJSTPB_Flow.Phi_i oj = Fault DivideByZero
     /\ CCentJSTPB_Flow.Phi_j oj = Fault DivideByZero
     /\ CCentJSTPB_Flow.StretchingFactor oj = Fault DivideByZero)
    /\ (CCentLaxPB_Flow.MeanLambda ol = Val 0
        /\ CCentLaxPB_Flow.Phi_i ol = Fault DivideByZero
        /\ CCentLaxPB_Flow.Phi_j ol = Fault DivideByZero
        /\ CCentLaxPB_Flow.StretchingFactor ol = Fault DivideByZero).
Proof.
  intros PF PJ kj kl n res Jac_i Jac_j l_i l_j Hvi Hvj Hli Hlj oj ol.
  assert (Hmean : (lit 0.5 * (fabs (lit 2.0 * Val 0) + fabs (lit 2.0 * Val 0)))%su2
                  = Val 0).
  { cbn. f_equal. unfold Q2R. cbn [Qnum Qden].
    rewrite Rmult_0_r, Rabs_R0. lra. }
  assert (Hdiv : forall l, (Val l / (lit 4.0 * Val 0))%su2 = Fault DivideByZero).
  { intros l. cbn. unfold checked_div.
    destruct (Req_dec_T (Q2R 4.0 * 0) 0) as [_|Hnz]; [reflexivity|].
    exfalso. apply Hnz. lra. }
  split.
  - pose proof (jst_stretching PF PJ n res Jac_i Jac_j kj) as S.
    cbv zeta in S. fold oj in S.
    rewrite Hvi, Hvj, Hli, Hlj, Hmean, !Hdiv in S.
    destruct S as (_ & _ & _ & _ & HM & Hpi & Hpj & HSF).
    rewrite HM, Hpi, Hpj, HSF. repeat split; reflexivity.
  - pose proof (lax_stretching PF PJ n res Jac_i Jac_j kl) as S.
    cbv zeta in S. fold ol in S.
    rewrite Hvi, Hvj, Hli, Hlj, Hmean, !Hdiv in S.
    destruct S as (_ & _ & _ & _ & HM & Hpi & Hpj & HSF).
    rewrite HM, Hpi, Hpj, HSF. repeat split; reflexivity.
Qed.

(** A face across which nothing moves meets the conditions. *)
Lemma zero_velocity_division_unguarded_witness :
  let n := Samples.still_face in
  let oj := self (CCentJSTPB_Flow.ComputeResidual Samples.checked_PF Samples.checked_PJ
                    (Samples.checked_jst EULER_EXPLICIT) n
                    (fun _ => Val 0) (fun _ _ => Val 0) (fun _ _ => Val 0)) in
  (CNumerics_routines.dot (nDim n) (Face.velocity (V_i n)) (Normal n) = Val 0
   /\ CNumerics_routines.dot (nDim n) (Face.velocity (V_j n)) (Normal n) = Val 0
   /\ Lambda_i n = Val 16 /\ Lambda_j n = Val 16)
  /\ CCentJSTPB_Flow.StretchingFactor oj = Fault DivideByZero.
Proof.
  intros n oj.
  assert (Hdot : CNumerics_routines.dot 2 (fun d => Val (nth (d + 1) [0; 0; 0; 1] 0))%R
                   (fun d => Val (nth d [1; 0] 0))%R = Val 0).
  { cbn. f_equal. unfold Q2R. cbn [Qnum Qden]. lra. }
  split.
  - repeat split; try reflexivity; exact Hdot.
  - exact (proj2 (proj2 (proj2 (proj1
      (zero_velocity_division_unguarded Samples.checked_PF Samples.checked_PJ
         (Samples.checked_jst EULER_EXPLICIT) (Samples.checked_lax EULER_EXPLICIT)
         n (fun _ => Val 0) (fun _ _ => Val 0) (fun _ _ => Val 0)
         Hdot Hdot eq_refl eq_refl))))).
Defined.

(** C8, as the claim has it, fails: on a face across which nothing moves
    the blending exponents and the stretching factor of the JST kernel are
    divisions by zero. *)
Lemma zero_velocity_division_not_guarded :
  let oj := self (CCentJSTPB_Flow.ComputeResidual Samples.checked_PF Samples.checked_PJ
                    (Samples.checked_jst EULER_EXPLICIT) Samples.still_face
                    (fun _ => Val 0) (fun _ _ => Val 0) (fun _ _ => Val 0)) in
  ~ (CCentJSTPB_Flow.Phi_i oj <> Fault DivideByZero
     /\ CCentJSTPB_Flow.Phi_j oj <> Fault DivideByZero
     /\ CCentJSTPB_Flow.StretchingFactor oj <> Fault DivideByZero).
Proof.
  intros oj [Hguard _]. apply Hguard. subst oj. real_eval.
  destruct (Req_dec_T _ 0) as [_|Hnz]; [reflexivity|].
  exfalso. apply Hnz. abs_eval. lra.
Qed.

(** ** Doubling the normal *)

Lemma for_loop_S {S : Type} (n : nat) (body : nat -> S -> S) (s : S) :
  for_loop (Datatypes.S n) body s = body n (for_loop n body s).
Proof. reflexivity. Qed.

Section Zero_loop.
Context {T : Type}.

(** The loop that clears both Jacobians clears each of them. *)
Lemma zero_loop (z : T) (A B : matrix T) (rows cols : nat) :
  for_loop rows (fun iVar =>
    for_loop cols (fun jVar '(Ji, Jj) =>
      let Jj := store2 Jj iVar jVar z in
      let Ji := store2 Ji iVar jVar z in
      (Ji, Jj))) (A, B)
  = (for_loop rows (fun i => for_loop cols (fun j M => store2 M i j z)) A,
     for_loop rows (fun i => for_loop cols (fun j M => store2 M i j z)) B).
Proof.
  assert (Hrow : forall i cs (M N : matrix T),
    for_loop cs (fun jVar '(Ji, Jj) =>
      let Jj := store2 Jj i jVar z in
      let Ji := store2 Ji i jVar z in
      (Ji, Jj)) (M, N)
    = (for_loop cs (fun j M => store2 M i j z) M,
       for_loop cs (fun j M => store2 M i j z) N)).
  { intros i cs M N. induction cs as [|cs IH].
    - reflexivity.
    - rewrite !for_loop_S, IH. reflexivity. }
  induction rows as [|rows IH].
  - reflexivity.
  - rewrite !for_loop_S, IH. apply Hrow.
Qed.

End Zero_loop.

Lemma twice_real (N : array R) (d : nat) : Face.twice N d = (2 * N d)%R.
Proof. unfold Face.twice. su2_real. lra. Qed.

Lemma sum_twice (g : nat -> R) (N : array R) (m : nat) :
  for_loop m (fun d acc => (acc + g d * Face.twice N d)%su2) (lit 0.0)
  = (2 * for_loop m (fun d acc => (acc + g d * N d)%su2) (lit 0.0))%R.
Proof.
  induction m as [|m IH]; cbn [for_loop].
  - su2_real. lra.
  - rewrite IH, twice_real. su2_real. lra.
Qed.

Lemma Rgt_bool_twice (x : R) : Rgt_bool (2 * x) (lit 0.0) = Rgt_bool x (lit 0.0).
Proof.
  unfold Rgt_bool. su2_real.
  destruct (Rlt_dec (0 * / 10) (2 * x)), (Rlt_dec (0 * / 10) x);
    try reflexivity; exfalso; lra.
Qed.

(** Doubling the normal doubles the upwind residual, and the Jacobians of the
    implicit branch when the Jacobian routine is linear in the normal. *)
Lemma upwind_twice
      (PJ : nat -> R -> array R -> array R -> R -> matrix R -> matrix R)
      (k : CUpwPB_Flow.t) (n : CNumerics R)
      (res : array R) (Jac_i Jac_j : matrix R) :
  (forall rho v N s J r c, r < nVar n -> c < nVar n ->
     PJ (nDim n) rho v (Face.twice N) s J r c
     = (2 * PJ (nDim n) rho v N s J r c)%R) ->
  let out1 := CUpwPB_Flow.ComputeResidual PJ k n res Jac_i Jac_j in
  let out2 := CUpwPB_Flow.ComputeResidual PJ k
                (Face.with_normal n (Face.twice (Normal n))) res Jac_i Jac_j in
  (forall iVar, iVar < nVar n ->
     val_residual out2 iVar = (2 * val_residual out1 iVar)%R)
  /\ (CUpwPB_Flow.implicit k = true ->
      forall r c, r < nVar n -> c < nVar n ->
        val_Jacobian_i out2 r c = (2 * val_Jacobian_i out1 r c)%R
        /\ val_Jacobian_j out2 r c = (2 * val_Jacobian_j out1 r c)%R).
Proof.
  intros HPJ out1 out2. subst out1 out2.
  unfold CUpwPB_Flow.ComputeResidual.
  cbn [nDim nVar V_i V_j Normal Face.with_normal].
  pose proof (upwind_flux_loop n (V_i n (nDim n + 1)) (V_j n (nDim n + 1))
                (CUpwPB_Flow.Velocity_i k) (CUpwPB_Flow.Velocity_j k)
                (CUpwPB_Flow.MeanVelocity k) (lit 0.0) (nDim n)) as L1.
  pose proof (upwind_flux_loop (Face.with_normal n (Face.twice (Normal n)))
                (V_i n (nDim n + 1)) (V_j n (nDim n + 1))
                (CUpwPB_Flow.Velocity_i k) (CUpwPB_Flow.Velocity_j k)
                (CUpwPB_Flow.MeanVelocity k) (lit 0.0) (nDim n)) as L2.
  cbn [nDim nVar V_i V_j Normal Face.with_normal] in L2.
  destruct (for_loop (nDim n) (CUpwPB_Flow.flux_loop n _ _) _)
    as [[[Vi Vj] Mv] FF].
  destruct (for_loop (nDim n) (CUpwPB_Flow.flux_loop (Face.with_normal _ _) _ _) _)
    as [[[Vi' Vj'] Mv'] FF'].
  destruct L1 as (HVi & HVj & _ & HFF). destruct L2 as (HVi' & HVj' & _ & HFF').
  assert (EVi : Vi' = Vi).
  { apply functional_extensionality. intros d. now rewrite HVi, HVi'. }
  assert (EVj : Vj' = Vj).
  { apply functional_extensionality. intros d. now rewrite HVj, HVj'. }
  assert (EFF : FF' = (2 * FF)%R).
  { rewrite HFF, HFF'.
    apply (sum_twice (fun d => (lit 0.5 * (V_i n (nDim n + 1)%nat + V_j n (nDim n + 1)%nat)
                                * (lit 0.5 * (V_i n (d + 1)%nat + V_j n (d + 1)%nat)))%su2)). }
  clear HFF HFF'. subst Vi' Vj' FF'.
  cbn [gt SU2Double_R]. rewrite Rgt_bool_twice.
  rewrite zero_loop.
  destruct (CUpwPB_Flow.implicit k); destruct (Rgt_bool FF (lit 0.0));
    cbn [val_residual val_Jacobian_i val_Jacobian_j].
  all: split;
    [ intros iVar Hi;
      rewrite !(for_loop_store (fun i _ => _)), (proj2 (Nat.ltb_lt _ _)) by assumption;
      su2_real; lra
    | intros Himp r c Hr Hc; try discriminate ].
  all: rewrite ?HPJ, ?fill_loop by assumption;
    rewrite ?(proj2 (Nat.ltb_lt r (nVar n))), ?(proj2 (Nat.ltb_lt c (nVar n))) by assumption;
    cbn [andb]; su2_real; split; lra.
Qed.

Section Diagonal_loops.
Context {T : Type}.

(** The diagonal loop over a pair of matrices works on each of them. *)
Lemma diagonal_pair_loop (f g : T -> T) (A B : matrix T) (m : nat) :
  for_loop m (fun iVar '(Ji, Jj) =>
    (store2 Ji iVar iVar (f (Ji iVar iVar)),
     store2 Jj iVar iVar (g (Jj iVar iVar)))) (A, B)
  = (for_loop m (fun i M => store2 M i i (f (M i i))) A,
     for_loop m (fun i M => store2 M i i (g (M i i))) B).
Proof.
  induction m as [|m IH].
  - reflexivity.
  - rewrite !for_loop_S, IH. reflexivity.
Qed.

Lemma diagonal_store_loop (f : T -> T) (A : matrix T) (m r c : nat) :
  for_loop m (fun i M => store2 M i i (f (M i i))) A r c
  = if Nat.eqb r c && (r <? m) then f (A r c) else A r c.
Proof.
  induction m as [|m IH].
  - cbn [for_loop]. now rewrite andb_false_r.
  - rewrite for_loop_S.
    destruct (Nat.eq_dec r m) as [->|Hr].
    + destruct (Nat.eq_dec c m) as [->|Hc].
      * rewrite store2_same, Nat.eqb_refl, ltb_succ_same. cbn [andb].
        f_equal. clear IH.
        generalize (Nat.le_refl m). generalize m at 1 3 as j.
        induction j as [|j IHj]; intros Hj.
        -- reflexivity.
        -- rewrite for_loop_S, store2_other by lia. apply IHj. lia.
      * rewrite store2_other by auto. rewrite IH.
        destruct (Nat.eqb_spec m c); [congruence | reflexivity].
    + rewrite store2_other by auto.
      rewrite ltb_succ_other by assumption. exact IH.
Qed.

End Diagonal_loops.

Lemma mean_lambda_twice (a b : R) :
  (lit 0.5 * (fabs (lit 2.0 * (2 * a)%R) + fabs (lit 2.0 * (2 * b)%R)))%su2
  = (2 * (lit 0.5 * (fabs (lit 2.0 * a) + fabs (lit 2.0 * b)))%su2)%R.
Proof.
  su2_real.
  replace (20 * / 10 * (2 * a))%R with (2 * (20 * / 10 * a))%R by lra.
  replace (20 * / 10 * (2 * b))%R with (2 * (20 * / 10 * b))%R by lra.
  rewrite !Rabs_mult, (Rabs_pos_eq 2) by lra. lra.
Qed.

(** The quotient is the one of the reals, total: with a zero mean lambda
    both sides are zero. *)
Lemma ratio_twice (L M : R) :
  ((2 * L)%R / (lit 4.0 * (2 * M)%R))%su2 = (L / (lit 4.0 * M))%su2.
Proof.
  su2_real. unfold Rdiv. rewrite !Rinv_mult, Rinv_inv.
  generalize (/ M)%R. intros iM. field.
Qed.

Lemma jst_twice
      (PF : nat -> R -> array R -> R -> array R -> array R -> array R)
      (PJ : nat -> R -> array R -> array R -> R -> matrix R -> matrix R)
      (k : CCentJSTPB_Flow.t) (n : CNumerics R)
      (res : array R) (Jac_i Jac_j : matrix R) :
  (forall rho v p N out iVar, iVar < nVar n ->
     PF (nDim n) rho v p (Face.twice N) out iVar
     = (2 * PF (nDim n) rho v p N out iVar)%R) ->
  (forall rho v N s J r c, r < nVar n -> c < nVar n ->
     PJ (nDim n) rho v (Face.twice N) s J r c
     = (2 * PJ (nDim n) rho v N s J r c)%R) ->
  let n2 := Face.with_lambda (Face.with_normal n (Face.twice (Normal n)))
                             (2 * Lambda_i n)%R (2 * Lambda_j n)%R in
  let out1 := CCentJSTPB_Flow.ComputeResidual PF PJ k n res Jac_i Jac_j in
  let out2 := CCentJSTPB_Flow.ComputeResidual PF PJ k n2 res Jac_i Jac_j in
  (forall iVar, iVar < nVar n ->
     val_residual out2 iVar = (2 * val_residual out1 iVar)%R)
  /\ (CCentJSTPB_Flow.implicit k = true ->
      forall r c, r < nVar n -> c < nVar n ->
        val_Jacobian_i out2 r c = (2 * val_Jacobian_i out1 r c)%R
        /\ val_Jacobian_j out2 r c = (2 * val_Jacobian_j out1 r c)%R).
Proof.
  intros HPF HPJ n2 out1 out2. subst out1 out2 n2.
  unfold CCentJSTPB_Flow.ComputeResidual.
  change (CCentJSTPB_Flow.velocity_loop (Face.with_lambda _ _ _))
    with (CCentJSTPB_Flow.velocity_loop n).
  change (CCentJSTPB_Flow.diff_loop (Face.with_lambda _ _ _))
    with (CCentJSTPB_Flow.diff_loop n).
  cbn [nDim nVar V_i V_j Normal Lambda_i Lambda_j Sensor_i Sensor_j
       Neighbor_i Neighbor_j Face.with_normal Face.with_lambda].
  destruct (for_loop (nDim n) (CCentJSTPB_Flow.velocity_loop n) _)
    as [[[[Vi Vj] si] sj] Mv].
  destruct (for_loop (nVar n) (CCentJSTPB_Flow.diff_loop n) _) as [DL DU].
  rewrite !jst_proj_loop.
  cbn [nDim nVar V_i V_j Normal Lambda_i Lambda_j Sensor_i Sensor_j
       Neighbor_i Neighbor_j Face.with_normal Face.with_lambda].
  rewrite !sum_twice, mean_lambda_twice, !ratio_twice.
  destruct (CCentJSTPB_Flow.implicit k).
  all: repeat match goal with
         | |- context [for_loop ?m
                         (fun iVar '(Ji, Jj) =>
                            (store2 Ji iVar iVar (Ji iVar iVar + ?c0)%su2,
                             store2 Jj iVar iVar (Jj iVar iVar - ?c1)%su2))
                         (?A0, ?B0)] =>
             rewrite (diagonal_pair_loop (fun x => (x + c0)%su2)
                                         (fun x => (x - c1)%su2) A0 B0 m)
         end.
  all: cbn [val_residual val_Jacobian_i val_Jacobian_j].
  all: split;
    [ intros iVar Hi;
      rewrite !(for_loop_store (fun i (x : R) => (x + _)%su2)),
              !(for_loop_store (fun i _ => _)),
              !(proj2 (Nat.ltb_lt iVar (nVar n))) by assumption;
      rewrite HPF by assumption; cbv beta iota; su2_real; ring
    | intros Himp r c Hr Hc; try discriminate ].
  rewrite !(diagonal_store_loop (fun x : R => (x + _)%su2)),
          !(diagonal_store_loop (fun x : R => (x - _)%su2)), !fill_loop.
  rewrite !(proj2 (Nat.ltb_lt r (nVar n))), !(proj2 (Nat.ltb_lt c (nVar n)))
    by assumption.
  rewrite !HPJ by assumption.
  cbn [andb]. destruct (Nat.eqb r c); cbn [andb]; su2_real; split; ring.
Qed.

Lemma lax_twice
      (PF : nat -> R -> array R -> R -> array R -> array R -> array R)
      (PJ : nat -> R -> array R -> array R -> R -> matrix R -> matrix R)
      (k : CCentLaxPB_Flow.t) (n : CNumerics R)
      (res : array R) (Jac_i Jac_j : matrix R) :
  (forall rho v p N out iVar, iVar < nVar n ->
     PF (nDim n) rho v p (Face.twice N) out iVar
     = (2 * PF (nDim n) rho v p N out iVar)%R) ->
  (forall rho v N s J r c, r < nVar n -> c < nVar n ->
     PJ (nDim n) rho v (Face.twice N) s J r c
     = (2 * PJ (nDim n) rho v N s J r c)%R) ->
  let n2 := Face.with_lambda (Face.with_normal n (Face.twice (Normal n)))
                             (2 * Lambda_i n)%R (2 * Lambda_j n)%R in
  let out1 := CCentLaxPB_Flow.ComputeResidual PF PJ k n res Jac_i Jac_j in
  let out2 := CCentLaxPB_Flow.ComputeResidual PF PJ k n2 res Jac_i Jac_j in
  (forall iVar, iVar < nVar n ->
     val_residual out2 iVar = (2 * val_residual out1 iVar)%R)
  /\ (CCentLaxPB_Flow.implicit k = true ->
      forall r c, r < nVar n -> c < nVar n ->
        val_Jacobian_i out2 r c = (2 * val_Jacobian_i out1 r c)%R
        /\ val_Jacobian_j out2 r c = (2 * val_Jacobian_j out1 r c)%R).
Proof.
  intros HPF HPJ n2 out1 out2. subst out1 out2 n2.
  unfold CCentLaxPB_Flow.ComputeResidual. cbv zeta.
  change (CCentLaxPB_Flow.velocity_loop (Face.with_lambda _ _ _))
    with (CCentLaxPB_Flow.velocity_loop n).
  cbn [nDim nVar V_i V_j Normal Lambda_i Lambda_j Sensor_i Sensor_j
       Neighbor_i Neighbor_j Face.with_normal Face.with_lambda].
  destruct (for_loop (nDim n) (CCentLaxPB_Flow.velocity_loop n) _)
    as [[[Vi Vj] si] sj].
  destruct (for_loop (nDim n) (CCentLaxPB_Flow.conservative_loop _ _ _ _) _)
    as [Ui Uj].
  rewrite !lax_proj_loop.
  cbn [nDim nVar V_i V_j Normal Lambda_i Lambda_j Sensor_i Sensor_j
       Neighbor_i Neighbor_j Face.with_normal Face.with_lambda].
  rewrite !sum_twice, mean_lambda_twice, !ratio_twice.
  destruct (CCentLaxPB_Flow.implicit k).
  all: repeat match goal with
         | |- context [for_loop ?m
                         (fun iVar '(Ji, Jj) =>
                            (store2 Ji iVar iVar (Ji iVar iVar + ?c0)%su2,
                             store2 Jj iVar iVar (Jj iVar iVar - ?c1)%su2))
                         (?A0, ?B0)] =>
             rewrite (diagonal_pair_loop (fun x => (x + c0)%su2)
                                         (fun x => (x - c1)%su2) A0 B0 m)
         end.
  all: cbn [val_residual val_Jacobian_i val_Jacobian_j].
  all: split;
    [ intros iVar Hi;
      rewrite !(for_loop_store (fun i (x : R) => (x + _)%su2)),
              !(for_loop_store (fun i _ => _)),
              !(proj2 (Nat.ltb_lt iVar (nVar n))) by assumption;
      rewrite HPF by assumption; cbv beta iota; su2_real; ring
    | intros Himp r c Hr Hc; try discriminate ].
  rewrite !(diagonal_store_loop (fun x : R => (x + _)%su2)),
          !(diagonal_store_loop (fun x : R => (x - _)%su2)), !fill_loop.
  rewrite !(proj2 (Nat.ltb_lt r (nVar n))), !(proj2 (Nat.ltb_lt c (nVar n)))
    by assumption.
  rewrite !HPJ by assumption.
  cbn [andb]. destruct (Nat.eqb r c); cbn [andb]; su2_real; split; ring.
Qed.

Lemma pressure_source_twice (k : CPressureSource.t) (n : CNumerics R)
      (res : array R) (Jac : matrix R) (d : nat) :
  d < nDim n ->
  CPressureSource.val_residual
    (CPressureSource.ComputeResidual k
       (Face.with_normal n (Face.twice (Normal n))) res Jac) d
  = (2 * CPressureSource.val_residual
           (CPressureSource.ComputeResidual k n res Jac) d)%R.
Proof.
  intros Hd. unfold CPressureSource.ComputeResidual.
  cbn [CPressureSource.val_residual nDim V_i V_j Normal Face.with_normal].
  rewrite !(for_loop_store (fun i _ => _)), (proj2 (Nat.ltb_lt d (nDim n)))
    by assumption.
  rewrite twice_real. su2_real. ring.
Qed.

(** In explicit mode the three kernels hand the Jacobian buffers back as
    they received them. *)
Lemma explicit_keeps_jacobians {T : Type} `{SU2Double T}
      (PF : nat -> T -> array T -> T -> array T -> array T -> array T)
      (PJ : nat -> T -> array T -> array T -> T -> matrix T -> matrix T)
      (ku : CUpwPB_Flow.t) (kj : CCentJSTPB_Flow.t) (kl : CCentLaxPB_Flow.t)
      (n : CNumerics T) (res : array T) (Jac_i Jac_j : matrix T) :
  (CUpwPB_Flow.implicit ku = false ->
   let out := CUpwPB_Flow.ComputeResidual PJ ku n res Jac_i Jac_j in
   val_Jacobian_i out = Jac_i /\ val_Jacobian_j out = Jac_j)
  /\ (CCentJSTPB_Flow.implicit kj = false ->
      let out := CCentJSTPB_Flow.ComputeResidual PF PJ kj n res Jac_i Jac_j in
      val_Jacobian_i out = Jac_i /\ val_Jacobian_j out = Jac_j)
  /\ (CCentLaxPB_Flow.implicit kl = false ->
      let out := CCentLaxPB_Flow.ComputeResidual PF PJ kl n res Jac_i Jac_j in
      val_Jacobian_i out = Jac_i /\ val_Jacobian_j out = Jac_j).
Proof.
  split; [|split]; intros Hexp out; subst out.
  - unfold CUpwPB_Flow.ComputeResidual. rewrite Hexp.
    destruct (for_loop (nDim n) _ _) as [[[Vi Vj] Mv] FF].
    split; reflexivity.
  - open_jst kj n. rewrite Hexp. split; reflexivity.
  - open_lax kl n. rewrite Hexp. split; reflexivity.
Qed.

(** The two routines modelled from the specification are linear in the
    normal. *)
Lemma projected_flux_twice (nD : nat) (rho : R) (v : array R) (p : R)
      (N out : array R) (iVar : nat) :
  iVar < nD ->
  Samples.PF nD rho v p (Face.twice N) out iVar
  = (2 * Samples.PF nD rho v p N out iVar)%R.
Proof.
  intros Hi. unfold Samples.PF, CNumerics_routines.GetInviscidPBProjFlux.
  rewrite !(for_loop_store (fun i _ => _)), (proj2 (Nat.ltb_lt iVar nD))
    by assumption.
  unfold CNumerics_routines.dot. rewrite sum_twice, twice_real.
  su2_real. ring.
Qed.

Lemma projected_jacobian_twice (nD : nat) (rho : R) (v N : array R) (s : R)
      (J : matrix R) (r c : nat) :
  r < nD -> c < nD ->
  Samples.PJ nD rho v (Face.twice N) s J r c
  = (2 * Samples.PJ nD rho v N s J r c)%R.
Proof.
  intros Hr Hc. unfold Samples.PJ, CNumerics_routines.GetInviscidPBProjJac.
  rewrite !fill_loop, (proj2 (Nat.ltb_lt r nD)), (proj2 (Nat.ltb_lt c nD))
    by assumption.
  cbn [andb]. unfold CNumerics_routines.dot. rewrite sum_twice, twice_real.
  destruct (Nat.eqb r c); su2_real; ring.
Qed.

(** C7, as the code has it.  With every other input fixed, doubling the
    normal doubles each residual component of the upwind and the pressure
    source kernel.  For the two central kernels the nodal lambdas are inputs
    of their own: the residual doubles when they are doubled together with
    the normal.  In implicit mode the Jacobians double under the same
    conditions; in explicit mode they are not written.  The projected flux
    and its Jacobian are taken linear in the normal. *)
Theorem normal_doubling
        (PF : nat -> R -> array R -> R -> array R -> array R -> array R)
        (PJ : nat -> R -> array R -> array R -> R -> matrix R -> matrix R)
        (ku : CUpwPB_Flow.t) (kp : CPressureSource.t)
        (kj : CCentJSTPB_Flow.t) (kl : CCentLaxPB_Flow.t) (n : CNumerics R)
        (res : array R) (Jac_i Jac_j : matrix R) (iVar d r c : nat) :
  (forall rho v p N out iVar, iVar < nVar n ->
     PF (nDim n) rho v p (Face.twice N) out iVar
     = (2 * PF (nDim n) rho v p N out iVar)%R) ->
  (forall rho v N s J r c, r < nVar n -> c < nVar n ->
     PJ (nDim n) rho v (Face.twice N) s J r c
     = (2 * PJ (nDim n) rho v N s J r c)%R) ->
  iVar < nVar n -> d < nDim n -> r < nVar n -> c < nVar n ->
  let n2 := Face.with_normal n (Face.twice (Normal n)) in
  let n2L := Face.with_lambda n2 (2 * Lambda_i n)%R (2 * Lambda_j n)%R in
  let up1 := CUpwPB_Flow.ComputeResidual PJ ku n res Jac_i Jac_j in
  let up2 := CUpwPB_Flow.ComputeResidual PJ ku n2 res Jac_i Jac_j in
  let ps1 := CPressureSource.ComputeResidual kp n res Jac_i in
  let ps2 := CPressureSource.ComputeResidual kp n2 res Jac_i in
  let js1 := CCentJSTPB_Flow.ComputeResidual PF PJ kj n res Jac_i Jac_j in
  let js2 := CCentJSTPB_Flow.ComputeResidual PF PJ kj n2L res Jac_i Jac_j in
  let lx1 := CCentLaxPB_Flow.ComputeResidual PF PJ kl n res Jac_i Jac_j in
  let lx2 := CCentLaxPB_Flow.ComputeResidual PF PJ kl n2L res Jac_i Jac_j in
  let jacobians := fun (implicit : bool) K (o1 o2 : Call K R) =>
    if implicit
    then val_Jacobian_i o2 r c = (2 * val_Jacobian_i o1 r c)%R
         /\ val_Jacobian_j o2 r c = (2 * val_Jacobian_j o1 r c)%R
    else val_Jacobian_i o2 r c = val_Jacobian_i o1 r c
         /\ val_Jacobian_j o2 r c = val_Jacobian_j o1 r c in
  (val_residual up2 iVar = (2 * val_residual up1 iVar)%R
   /\ CPressureSource.val_residual ps2 d
      = (2 * CPressureSource.val_residual ps1 d)%R
   /\ val_residual js2 iVar = (2 * val_residual js1 iVar)%R
   /\ val_residual lx2 iVar = (2 * val_residual lx1 iVar)%R)
  /\ jacobians (CUpwPB_Flow.implicit ku) _ up1 up2
  /\ jacobians (CCentJSTPB_Flow.implicit kj) _ js1 js2
  /\ jacobians (CCentLaxPB_Flow.implicit kl) _ lx1 lx2.
Proof.
  intros HPF HPJ Hi Hd Hr Hc n2 n2L up1 up2 ps1 ps2 js1 js2 lx1 lx2 jacobians.
  pose proof (upwind_twice PJ ku n res Jac_i Jac_j HPJ) as [Ur Uj].
  pose proof (jst_twice PF PJ kj n res Jac_i Jac_j HPF HPJ) as [Jr Jj].
  pose proof (lax_twice PF PJ kl n res Jac_i Jac_j HPF HPJ) as [Lr Lj].
  pose proof (explicit_keeps_jacobians PF PJ ku kj kl n res Jac_i Jac_j)
    as (E1u & E1j & E1l).
  pose proof (explicit_keeps_jacobians PF PJ ku kj kl n2 res Jac_i Jac_j)
    as (E2u & _ & _).
  pose proof (explicit_keeps_jacobians PF PJ ku kj kl n2L res Jac_i Jac_j)
    as (_ & E2j & E2l).
  cbv zeta in *. subst jacobians up1 up2 ps1 ps2 js1 js2 lx1 lx2 n2L n2.
  cbv beta.
  split; [repeat split|split; [|split]].
  - apply Ur, Hi.
  - apply pressure_source_twice, Hd.
  - apply Jr, Hi.
  - apply Lr, Hi.
  - destruct (CUpwPB_Flow.implicit ku).
    + apply Uj; auto.
    + destruct (E1u eq_refl) as [-> ->]. destruct (E2u eq_refl) as [-> ->].
      split; reflexivity.
  - destruct (CCentJSTPB_Flow.implicit kj).
    + apply Jj; auto.
    + destruct (E1j eq_refl) as [-> ->]. destruct (E2j eq_refl) as [-> ->].
      split; reflexivity.
  - destruct (CCentLaxPB_Flow.implicit kl).
    + apply Lj; auto.
    + destruct (E1l eq_refl) as [-> ->]. destruct (E2l eq_refl) as [-> ->].
      split; reflexivity.
Qed.

(** The two routines modelled from the specification meet the linearity
    conditions; with normal and nodal lambdas doubled the first residual
    component of the JST kernel doubles. *)
Lemma normal_doubling_witness :
  let n := Samples.face 0 0 3 1 16 1 1 in
  let n2L := Face.with_lambda (Face.with_normal n (Face.twice (Normal n)))
                              (2 * 16)%R (2 * 16)%R in
  let js1 := CCentJSTPB_Flow.ComputeResidual Samples.PF Samples.PJ
               (Samples.jst EULER_IMPLICIT) n
               Samples.zeros Samples.zeros2 Samples.zeros2 in
  let js2 := CCentJSTPB_Flow.ComputeResidual Samples.PF Samples.PJ
               (Samples.jst EULER_IMPLICIT) n2L
               Samples.zeros Samples.zeros2 Samples.zeros2 in
  ((forall rho v p N out iVar, iVar < nVar n ->
      Samples.PF (nDim n) rho v p (Face.twice N) out iVar
      = (2 * Samples.PF (nDim n) rho v p N out iVar)%R)
   /\ (forall rho v N s J r c, r < nVar n -> c < nVar n ->
         Samples.PJ (nDim n) rho v (Face.twice N) s J r c
         = (2 * Samples.PJ (nDim n) rho v N s J r c)%R)
   /\ 0 < nVar n /\ 1 < nDim n /\ 0 < nVar n /\ 1 < nVar n)
  /\ val_residual js2 0 = (2 * val_residual js1 0%nat)%R.
Proof.
  intros n n2L js1 js2.
  assert (HPF : forall rho v p N out iVar, iVar < nVar n ->
            Samples.PF (nDim n) rho v p (Face.twice N) out iVar
            = (2 * Samples.PF (nDim n) rho v p N out iVar)%R).
  { intros rho v p N out iVar Hi. now apply projected_flux_twice. }
  assert (HPJ : forall rho v N s J r c, r < nVar n -> c < nVar n ->
            Samples.PJ (nDim n) rho v (Face.twice N) s J r c
            = (2 * Samples.PJ (nDim n) rho v N s J r c)%R).
  { intros rho v N s J r c Hr Hc. now apply projected_jacobian_twice. }
  assert (H0 : 0 < nVar n) by (cbn; lia).
  assert (H1 : 1 < nVar n) by (cbn; lia).
  assert (H1d : 1 < nDim n) by (cbn; lia).
  split.
  - repeat split; assumption.
  - exact (proj1 (proj2 (proj2 (proj1
      (@normal_doubling Samples.PF Samples.PJ (Samples.upwind EULER_IMPLICIT)
         (CPressureSource.new 2 2 (Samples.config EULER_IMPLICIT) 0%R)
         (Samples.jst EULER_IMPLICIT) (Samples.lax EULER_IMPLICIT) n
         Samples.zeros Samples.zeros2 Samples.zeros2 0 1 0 1
         HPF HPJ H0 H1d H0 H1))))).
Defined.

(** C7, as the claim has it, fails for the central kernels.  On a face with
    projected velocities 3 and 1 and nodal lambdas 16, doubling the normal
    alone turns the blending exponents from 1 into (1/2)^0.3: the first
    residual component of the JST kernel goes from 36 to 8 + 64 (1/2)^0.3,
    which is less than 72. *)
Lemma normal_doubling_fails_for_jst :
  let n := Samples.face 0 0 3 1 16 1 1 in
  let n2 := Face.with_normal n (Face.twice (Normal n)) in
  let out1 := CCentJSTPB_Flow.ComputeResidual Samples.PF Samples.PJ
                (Samples.jst EULER_EXPLICIT) n
                Samples.zeros Samples.zeros2 Samples.zeros2 in
  let out2 := CCentJSTPB_Flow.ComputeResidual Samples.PF Samples.PJ
                (Samples.jst EULER_EXPLICIT) n2
                Samples.zeros Samples.zeros2 Samples.zeros2 in
  ~ (val_residual out2 0 = (2 * val_residual out1 0%nat)%R).
Proof.
  intros n n2 out1 out2. subst out1 out2 n2 n. real_eval. abs_eval.
  repeat match goal with
         | |- context [Rmax ?a ?b] => rewrite (Rmax_left a b) by lra
         end.
  repeat match goal with
         | |- context [Rpow (16 / ?a) _] =>
             first [ replace (16 / a)%R with 1%R by (field_simplify; lra)
                   | replace (16 / a)%R with (/ 2)%R by (field_simplify; lra) ]
         end.
  rewrite !Rpow_one.
  pose proof (@Rpow_below_one (/ 2)%R (3 * / 10)%R) as Hq.
  set (q := Rpow (/ 2) (3 * / 10)) in *.
  replace (40 * / 10 * q * q / (q + q))%R with (2 * q)%R by (field; lra).
  intros Heq. lra.
Qed.

(** * Further properties of the kernels *)

(** ** What a call leaves alone *)

(** X1.  In explicit mode the upwind, JST and Lax kernels hand both Jacobian
    buffers back exactly as they received them. *)
Theorem explicit_mode_leaves_jacobians :
  forall (T : Type) (A : SU2Double T)
         (PF : nat -> T -> array T -> T -> array T -> array T -> array T)
         (PJ : nat -> T -> array T -> array T -> T -> matrix T -> matrix T)
         (ku : CUpwPB_Flow.t) (kj : CCentJSTPB_Flow.t) (kl : CCentLaxPB_Flow.t)
         (n : CNumerics T) (res : array T) (Jac_i Jac_j : matrix T),
    CUpwPB_Flow.implicit ku = false ->
    CCentJSTPB_Flow.implicit kj = false ->
    CCentLaxPB_Flow.implicit kl = false ->
    let up := CUpwPB_Flow.ComputeResidual PJ ku n res Jac_i Jac_j in
    let js := CCentJSTPB_Flow.ComputeResidual PF PJ kj n res Jac_i Jac_j in
    let lx := CCentLaxPB_Flow.ComputeResidual PF PJ kl n res Jac_i Jac_j in
    (val_Jacobian_i up = Jac_i /\ val_Jacobian_j up = Jac_j)
    /\ (val_Jacobian_i js = Jac_i /\ val_Jacobian_j js = Jac_j)
    /\ (val_Jacobian_i lx = Jac_i /\ val_Jacobian_j lx = Jac_j).
Proof.
  intros T A PF PJ ku kj kl n res Jac_i Jac_j Hu Hj Hl up js lx.
  destruct (explicit_keeps_jacobians PF PJ ku kj kl n res Jac_i Jac_j)
    as (Eu & Ej & El).
  split; [|split]; [apply Eu | apply Ej | apply El]; assumption.
Qed.

(** Explicit sample objects: the buffers come back as the zero matrices that
    went in. *)
Lemma explicit_mode_leaves_jacobians_witness :
  let n := Samples.face 0 0 3 1 16 1 1 in
  let js := CCentJSTPB_Flow.ComputeResidual Samples.PF Samples.PJ
              (Samples.jst EULER_EXPLICIT) n
              Samples.zeros Samples.zeros2 Samples.zeros2 in
  (CUpwPB_Flow.implicit (Samples.upwind EULER_EXPLICIT) = false
   /\ CCentJSTPB_Flow.implicit (Samples.jst EULER_EXPLICIT) = false
   /\ CCentLaxPB_Flow.implicit (Samples.lax EULER_EXPLICIT) = false)
  /\ val_Jacobian_i js = Samples.zeros2 /\ val_Jacobian_j js = Samples.zeros2.
Proof.
  intros n js. split; [repeat split|].
  exact (proj1 (proj2
    (explicit_mode_leaves_jacobians SU2Double_R Samples.PF Samples.PJ
       (Samples.upwind EULER_EXPLICIT) (Samples.jst EULER_EXPLICIT)
       (Samples.lax EULER_EXPLICIT) n
       Samples.zeros Samples.zeros2 Samples.zeros2 eq_refl eq_refl eq_refl))).
Defined.

(** X2.  The upwind, JST and Lax kernels write the first [nVar] cells of the
    residual buffer and no other: every cell from [nVar] on keeps the value
    the caller left there. *)
Theorem residual_beyond_nVar_untouched :
  forall (T : Type) (A : SU2Double T)
         (PF : nat -> T -> array T -> T -> array T -> array T -> array T)
         (PJ : nat -> T -> array T -> array T -> T -> matrix T -> matrix T)
         (ku : CUpwPB_Flow.t) (kj : CCentJSTPB_Flow.t) (kl : CCentLaxPB_Flow.t)
         (n : CNumerics T) (res : array T) (Jac_i Jac_j : matrix T) (c : nat),
    nVar n <= c ->
    val_residual (CUpwPB_Flow.ComputeResidual PJ ku n res Jac_i Jac_j) c = res c
    /\ val_residual (CCentJSTPB_Flow.ComputeResidual PF PJ kj n res Jac_i Jac_j) c
       = res c
    /\ val_residual (CCentLaxPB_Flow.ComputeResidual PF PJ kl n res Jac_i Jac_j) c
       = res c.
Proof.
  intros T A PF PJ ku kj kl n res Jac_i Jac_j c Hc.
  split; [|split].
  - unfold CUpwPB_Flow.ComputeResidual.
    destruct (for_loop (nDim n) _ _) as [[[Vi Vj] Mv] FF].
    destruct (CUpwPB_Flow.implicit ku);
      [ destruct (for_loop (nVar n) _ (Jac_i, Jac_j)) as [Ji Jj] | ].
    all: destruct (gt FF (lit 0.0)); cbn [val_residual];
      apply (for_loop_store_beyond (fun i _ => _)); assumption.
  - open_jst kj n.
    destruct (CCentJSTPB_Flow.implicit kj);
      [ destruct (for_loop (nVar n) _ (_, _)) as [Ji Jj] | ];
      cbn [val_residual];
      rewrite (for_loop_store_beyond (fun i (x : T) => add x _)) by assumption;
      apply (for_loop_store_beyond (fun i _ => _)); assumption.
  - open_lax kl n.
    destruct (CCentLaxPB_Flow.implicit kl);
      [ destruct (for_loop (nVar n) _ (_, _)) as [Ji Jj] | ];
      cbn [val_residual];
      rewrite (for_loop_store_beyond (fun i (x : T) => add x _)) by assumption;
      apply (for_loop_store_beyond (fun i _ => _)); assumption.
Qed.

(** On a two-dimensional face the third cell of the buffer is not written. *)
Lemma residual_beyond_nVar_untouched_witness :
  let n := Samples.face 0 0 3 1 16 1 1 in
  nVar n <= 2
  /\ val_residual (CCentLaxPB_Flow.ComputeResidual Samples.PF Samples.PJ
                     (Samples.lax EULER_IMPLICIT) n
                     (fun _ => 7%R) Samples.zeros2 Samples.zeros2) 2 = 7%R.
Proof.
  intros n.
  assert (H2 : nVar n <= 2) by (cbn; lia).
  split; [exact H2|].
  exact (proj2 (proj2
    (residual_beyond_nVar_untouched SU2Double_R Samples.PF Samples.PJ
       (Samples.upwind EULER_IMPLICIT) (Samples.jst EULER_IMPLICIT)
       (Samples.lax EULER_IMPLICIT) n (fun _ => 7%R)
       Samples.zeros2 Samples.zeros2 H2))).
Defined.

(** X3.  The residual and the face flux of the upwind kernel are functions of
    the face and of the residual buffer alone: the state earlier calls left
    in the object, its time-integration flag, the Jacobian routine and the
    Jacobian buffers have no influence on them. *)
Theorem upwind_residual_ignores_object_state :
  forall (T : Type) (A : SU2Double T)
         (PJ PJ' : nat -> T -> array T -> array T -> T -> matrix T -> matrix T)
         (k k' : CUpwPB_Flow.t) (n : CNumerics T) (res : array T)
         (Jac_i Jac_j Jac_i' Jac_j' : matrix T) (c : nat),
    let out := CUpwPB_Flow.ComputeResidual PJ k n res Jac_i Jac_j in
    let out' := CUpwPB_Flow.ComputeResidual PJ' k' n res Jac_i' Jac_j' in
    CUpwPB_Flow.Face_Flux (self out) = CUpwPB_Flow.Face_Flux (self out')
    /\ val_residual out c = val_residual out' c.
Proof.
  intros T A PJ PJ' k k' n res Jac_i Jac_j Jac_i' Jac_j' c out out'.
  subst out out'. unfold CUpwPB_Flow.ComputeResidual.
  pose proof (upwind_flux_loop n (V_i n (nDim n + 1)) (V_j n (nDim n + 1))
                (CUpwPB_Flow.Velocity_i k) (CUpwPB_Flow.Velocity_j k)
                (CUpwPB_Flow.MeanVelocity k) (lit 0.0) (nDim n)) as L.
  pose proof (upwind_flux_loop n (V_i n (nDim n + 1)) (V_j n (nDim n + 1))
                (CUpwPB_Flow.Velocity_i k') (CUpwPB_Flow.Velocity_j k')
                (CUpwPB_Flow.MeanVelocity k') (lit 0.0) (nDim n)) as L'.
  destruct (for_loop (nDim n) _ (CUpwPB_Flow.Velocity_i k, _, _, _))
    as [[[Vi Vj] Mv] FF].
  destruct (for_loop (nDim n) _ (CUpwPB_Flow.Velocity_i k', _, _, _))
    as [[[Vi' Vj'] Mv'] FF'].
  destruct L as (_ & _ & _ & HFF). destruct L' as (_ & _ & _ & HFF').
  assert (E : FF' = FF) by (rewrite HFF, HFF'; reflexivity).
  clear HFF HFF'. subst FF'.
  destruct (CUpwPB_Flow.implicit k);
    [ destruct (for_loop (nVar n) _ (Jac_i, Jac_j)) as [Ji Jj] | ];
    (destruct (CUpwPB_Flow.implicit k');
      [ destruct (for_loop (nVar n) _ (Jac_i', Jac_j')) as [Ji' Jj'] | ]).
  all: destruct (gt FF (lit 0.0)); split; reflexivity.
Qed.

(** ** The dissipation of the central kernels *)

Section Central_cells.
Context {T : Type} `{SU2Double T}.
Variable PF : nat -> T -> array T -> T -> array T -> array T -> array T.
Variable PJ : nat -> T -> array T -> array T -> T -> matrix T -> matrix T.
Variable n : CNumerics T.
Variables (res : array T) (Jac_i Jac_j : matrix T).
Local Open Scope su2_scope.

(** The coefficients and the residual cells of a JST call, in closed form. *)
Lemma jst_cells (k : CCentJSTPB_Flow.t) :
  let out := CCentJSTPB_Flow.ComputeResidual PF PJ k n res Jac_i Jac_j in
  let o := self out in
  CCentJSTPB_Flow.Epsilon_2 o
  = CCentJSTPB_Flow.Param_Kappa_2 k * lit 0.5 * (Sensor_i n + Sensor_j n)
    * CCentJSTPB_Flow.sc2 o
  /\ CCentJSTPB_Flow.Epsilon_4 o
     = max (lit 0.0) (CCentJSTPB_Flow.Param_Kappa_4 k - CCentJSTPB_Flow.Epsilon_2 o)
       * (CCentJSTPB_Flow.sc2 o * CCentJSTPB_Flow.sc2 o / lit 4.0)
  /\ CCentJSTPB_Flow.sc2 o
     = lit 3.0 * (cast (Neighbor_i n) + cast (Neighbor_j n))
       / (cast (Neighbor_i n) * cast (Neighbor_j n))
  /\ CCentJSTPB_Flow.ProjFlux o
     = PF (nDim n) (lit 0.5 * (V_i n (nDim n + 1)%nat + V_j n (nDim n + 1)%nat))
          (CCentJSTPB_Flow.MeanVelocity o)
          (lit 0.5 * (V_i n 0%nat + V_j n 0%nat)) (Normal n)
          (CCentJSTPB_Flow.ProjFlux k)
  /\ (forall d, CCentJSTPB_Flow.MeanVelocity o d
                = if d <? nDim n
                  then lit 0.5 * (V_i n (d + 1)%nat + V_j n (d + 1)%nat)
                  else CCentJSTPB_Flow.MeanVelocity k d)
  /\ (forall v, v < nVar n ->
        val_residual out v
        = CCentJSTPB_Flow.ProjFlux o v
          + (CCentJSTPB_Flow.Epsilon_2 o * (U_i n v - U_j n v)
             - CCentJSTPB_Flow.Epsilon_4 o * (Und_Lapl_i n v - Und_Lapl_j n v))
            * CCentJSTPB_Flow.StretchingFactor o * CCentJSTPB_Flow.MeanLambda o).
Proof.
  intros out o. subst out o. open_jst k n.
  destruct LV as (_ & _ & HMv). destruct LD as [HDL HDU].
  destruct (CCentJSTPB_Flow.implicit k);
    [ destruct (for_loop (nVar n) _ (_, _)) as [Ji Jj] | ];
    cbn -[Nat.ltb]; (repeat split; try reflexivity; try exact HMv).
  all: intros v Hv;
    rewrite (for_loop_store (fun i (x : T) => x + _)),
            (for_loop_store (fun i _ => _)),
            (proj2 (Nat.ltb_lt v (nVar n))) by assumption;
    rewrite HDL, HDU, (proj2 (Nat.ltb_lt v (nVar n))) by assumption;
    reflexivity.
Qed.

(** The same for a Lax call; the conservative variables are the momenta the
    call recomputes in its local arrays. *)
Lemma lax_cells (k : CCentLaxPB_Flow.t) :
  let out := CCentLaxPB_Flow.ComputeResidual PF PJ k n res Jac_i Jac_j in
  let o := self out in
  let local (rho : T) (V : array T) := fun v =>
    if v <? nDim n then rho * V (v + 1)%nat
    else of_list [lit 0.0; lit 0.0; lit 0.0] v in
  CCentLaxPB_Flow.Epsilon_0 o
  = CCentLaxPB_Flow.Param_Kappa_0 k * CCentLaxPB_Flow.sc0 o * cast (nDim n) / lit 3.0
  /\ CCentLaxPB_Flow.ProjFlux o
     = PF (nDim n) (lit 0.5 * (V_i n (nDim n + 1)%nat + V_j n (nDim n + 1)%nat))
          (CCentLaxPB_Flow.MeanVelocity o)
          (lit 0.5 * (V_i n 0%nat + V_j n 0%nat)) (Normal n)
          (CCentLaxPB_Flow.ProjFlux k)
  /\ (forall d, CCentLaxPB_Flow.MeanVelocity o d
                = if d <? nDim n
                  then lit 0.5 * (V_i n (d + 1)%nat + V_j n (d + 1)%nat)
                  else CCentLaxPB_Flow.MeanVelocity k d)
  /\ (forall v, v < nVar n ->
        val_residual out v
        = CCentLaxPB_Flow.ProjFlux o v
          + CCentLaxPB_Flow.Epsilon_0 o
            * (local (V_i n (nDim n + 1)%nat) (V_i n) v
               - local (V_j n (nDim n + 1)%nat) (V_j n) v)
            * CCentLaxPB_Flow.StretchingFactor o * CCentLaxPB_Flow.MeanLambda o).
Proof.
  intros out o local. subst out o local. open_lax k n.
  destruct LV as [HVi HVj]. destruct LU as [HUi HUj].
  assert (HMv : forall d,
            for_loop (nDim n) (fun iDim M =>
              store M iDim (lit 0.5 * (Vi iDim + Vj iDim)))
              (CCentLaxPB_Flow.MeanVelocity k) d
            = if d <? nDim n
              then lit 0.5 * (V_i n (d + 1)%nat + V_j n (d + 1)%nat)
              else CCentLaxPB_Flow.MeanVelocity k d).
  { intros d. rewrite (for_loop_store (fun i _ => _)), HVi, HVj.
    destruct (d <? nDim n); reflexivity. }
  assert (HU : forall v, Ui v - Uj v
                 = (if v <? nDim n then V_i n (nDim n + 1)%nat * V_i n (v + 1)%nat
                    else of_list [lit 0.0; lit 0.0; lit 0.0] v)
                   - (if v <? nDim n then V_j n (nDim n + 1)%nat * V_j n (v + 1)%nat
                      else of_list [lit 0.0; lit 0.0; lit 0.0] v)).
  { intros v. rewrite HUi, HUj, HVi, HVj. destruct (v <? nDim n); reflexivity. }
  destruct (CCentLaxPB_Flow.implicit k);
    [ destruct (for_loop (nVar n) _ (_, _)) as [Ji Jj] | ];
    cbn -[Nat.ltb of_list]; (repeat split; try reflexivity; try exact HMv).
  all: intros v Hv;
    rewrite (for_loop_store (fun i (x : T) => x + _)),
            (for_loop_store (fun i _ => _)),
            (proj2 (Nat.ltb_lt v (nVar n))) by assumption;
    rewrite (for_loop_store (fun i _ => _)),
            (proj2 (Nat.ltb_lt v (nVar n))) by assumption;
    rewrite HU; reflexivity.
Qed.

End Central_cells.

(** X5.  The fourth-difference coefficient of the JST kernel is never
    negative; it is zero as soon as the second-difference coefficient reaches
    kappa4, and (kappa4 - eps2) * sc2^2 / 4 below that. *)
Theorem jst_fourth_difference_switch
        (PF : nat -> R -> array R -> R -> array R -> array R -> array R)
        (PJ : nat -> R -> array R -> array R -> R -> matrix R -> matrix R)
        (k : CCentJSTPB_Flow.t) (n : CNumerics R)
        (res : array R) (Jac_i Jac_j : matrix R) :
  let o := self (CCentJSTPB_Flow.ComputeResidual PF PJ k n res Jac_i Jac_j) in
  let eps2 := CCentJSTPB_Flow.Epsilon_2 o in
  let eps4 := CCentJSTPB_Flow.Epsilon_4 o in
  let kappa4 := CCentJSTPB_Flow.Param_Kappa_4 k in
  (0 <= eps4)%R
  /\ ((kappa4 <= eps2)%R -> eps4 = 0%R)
  /\ ((eps2 <= kappa4)%R ->
      eps4 = ((kappa4 - eps2) * (CCentJSTPB_Flow.sc2 o * CCentJSTPB_Flow.sc2 o / 4))%R).
Proof.
  intros o eps2 eps4 kappa4.
  pose proof (jst_cells PF PJ n res Jac_i Jac_j k) as C. cbv zeta in C.
  destruct C as (_ & H4 & _).
  subst eps4 eps2 kappa4 o. rewrite H4.
  set (e2 := CCentJSTPB_Flow.Epsilon_2 _).
  set (s2 := CCentJSTPB_Flow.sc2 _).
  su2_real.
  replace (0 * / 10)%R with 0%R by lra.
  replace (s2 * s2 / (40 * / 10))%R with (s2 * s2 / 4)%R by (unfold Rdiv; f_equal; lra).
  assert (Hs : (0 <= s2 * s2 / 4)%R).
  { unfold Rdiv. apply Rmult_le_pos; [apply Rle_0_sqr | lra]. }
  split; [|split].
  - apply Rmult_le_pos; [apply Rmax_l | exact Hs].
  - intros Hle. rewrite Rmax_left by lra. lra.
  - intros Hle. rewrite Rmax_right by lra. reflexivity.
Qed.

(** With kappa2 = kappa4 = 1, sensors 1 and three neighbours on each side the
    second-difference coefficient is 2 and the fourth-difference one is off. *)
Lemma jst_fourth_difference_switch_witness :
  let k := Samples.jst EULER_EXPLICIT in
  let o := self (CCentJSTPB_Flow.ComputeResidual Samples.PF Samples.PJ k
                   (Samples.face 0 0 3 1 16 1 1)
                   Samples.zeros Samples.zeros2 Samples.zeros2) in
  (CCentJSTPB_Flow.Param_Kappa_4 k <= CCentJSTPB_Flow.Epsilon_2 o)%R
  /\ CCentJSTPB_Flow.Epsilon_4 o = 0%R.
Proof.
  intros k o.
  assert (Hle : (CCentJSTPB_Flow.Param_Kappa_4 k <= CCentJSTPB_Flow.Epsilon_2 o)%R).
  { subst o k. real_eval. unfold Rdiv.
    replace (/ ((1 + 1 + 1) * (1 + 1 + 1)))%R with (/ 9)%R by (f_equal; lra). lra. }
  split; [exact Hle|].
  exact (proj1 (proj2 (jst_fourth_difference_switch Samples.PF Samples.PJ k
                         (Samples.face 0 0 3 1 16 1 1)
                         Samples.zeros Samples.zeros2 Samples.zeros2)) Hle).
Defined.

(** X6.  In both central kernels the mean lambda is never negative, and it is
    zero exactly when the velocities of both sides have no component along
    the normal. *)
Theorem mean_lambda_sign
        (PF : nat -> R -> array R -> R -> array R -> array R -> array R)
        (PJ : nat -> R -> array R -> array R -> R -> matrix R -> matrix R)
        (kj : CCentJSTPB_Flow.t) (kl : CCentLaxPB_Flow.t) (n : CNumerics R)
        (res : array R) (Jac_i Jac_j : matrix R) :
  let oj := self (CCentJSTPB_Flow.ComputeResidual PF PJ kj n res Jac_i Jac_j) in
  let ol := self (CCentLaxPB_Flow.ComputeResidual PF PJ kl n res Jac_i Jac_j) in
  let proj_i := CNumerics_routines.dot (nDim n) (Face.velocity (V_i n)) (Normal n) in
  let proj_j := CNumerics_routines.dot (nDim n) (Face.velocity (V_j n)) (Normal n) in
  CCentJSTPB_Flow.MeanLambda oj = CCentLaxPB_Flow.MeanLambda ol
  /\ (0 <= CCentJSTPB_Flow.MeanLambda oj)%R
  /\ (CCentJSTPB_Flow.MeanLambda oj = 0%R <-> proj_i = 0%R /\ proj_j = 0%R).
Proof.
  intros oj ol proj_i proj_j.
  pose proof (jst_stretching PF PJ n res Jac_i Jac_j kj) as Sj.
  pose proof (lax_stretching PF PJ n res Jac_i Jac_j kl) as Sl.
  cbv zeta in Sj, Sl.
  destruct Sj as (_ & _ & _ & _ & Hj & _). destruct Sl as (_ & _ & _ & _ & Hl & _).
  fold oj in Hj. fold ol in Hl. fold proj_i proj_j in Hj, Hl.
  rewrite Hj, Hl. su2_real.
  pose proof (Rabs_pos (20 * / 10 * proj_i)) as Pi.
  pose proof (Rabs_pos (20 * / 10 * proj_j)) as Pj.
  split; [reflexivity|]. split; [lra|].
  split.
  - intros Hz.
    assert (Zi : Rabs (20 * / 10 * proj_i) = 0%R) by lra.
    assert (Zj : Rabs (20 * / 10 * proj_j) = 0%R) by lra.
    split.
    + destruct (Req_dec (20 * / 10 * proj_i) 0) as [E|E]; [lra|].
      apply Rabs_no_R0 in E. contradiction.
    + destruct (Req_dec (20 * / 10 * proj_j) 0) as [E|E]; [lra|].
      apply Rabs_no_R0 in E. contradiction.
  - intros [-> ->]. rewrite Rmult_0_r, Rabs_R0. lra.
Qed.

(** ** Conservation across a face *)

Lemma opposite_real (N : array R) (d : nat) : Reversed.opposite N d = (- N d)%R.
Proof. reflexivity. Qed.

Lemma sum_opposite (g : nat -> R) (N : array R) (m : nat) :
  for_loop m (fun d acc => (acc + g d * Reversed.opposite N d)%su2) (lit 0.0)
  = (- for_loop m (fun d acc => (acc + g d * N d)%su2) (lit 0.0))%R.
Proof.
  induction m as [|m IH]; cbn [for_loop].
  - su2_real. lra.
  - rewrite IH, opposite_real. su2_real. ring.
Qed.

(** The face flux of the upwind kernel changes sign with the face. *)
Lemma flux_sum_reversed (a b : R) (x y N : array R) (m : nat) :
  for_loop m (fun d acc =>
    (acc + lit 0.5 * (b + a) * (lit 0.5 * (y d + x d)) * Reversed.opposite N d)%su2)
    (lit 0.0)
  = (- for_loop m (fun d acc =>
         (acc + lit 0.5 * (a + b) * (lit 0.5 * (x d + y d)) * N d)%su2) (lit 0.0))%R.
Proof.
  induction m as [|m IH]; cbn [for_loop].
  - su2_real. lra.
  - rewrite IH, opposite_real. su2_real. ring.
Qed.

(** X9.  The upwind and the pressure-source kernel are conservative: seen
    from the other side of the face (sides exchanged, normal reversed) each
    residual cell is the opposite of the one seen from this side, whatever
    state the two objects are in. *)
Theorem first_order_kernels_are_conservative
        (PJ PJ' : nat -> R -> array R -> array R -> R -> matrix R -> matrix R)
        (ku ku' : CUpwPB_Flow.t) (kp kp' : CPressureSource.t) (n : CNumerics R)
        (res : array R) (Jac_i Jac_j : matrix R) (v d : nat) :
  v < nVar n ->
  d < nDim n ->
  val_residual (CUpwPB_Flow.ComputeResidual PJ' ku' (Reversed.face n) res Jac_i Jac_j) v
  = (- val_residual (CUpwPB_Flow.ComputeResidual PJ ku n res Jac_i Jac_j) v)%R
  /\ CPressureSource.val_residual
       (CPressureSource.ComputeResidual kp' (Reversed.face n) res Jac_i) d
     = (- CPressureSource.val_residual
            (CPressureSource.ComputeResidual kp n res Jac_i) d)%R.
Proof.
  intros Hv Hd. split.
  - unfold CUpwPB_Flow.ComputeResidual.
    pose proof (upwind_flux_loop n (V_i n (nDim n + 1)) (V_j n (nDim n + 1))
                  (CUpwPB_Flow.Velocity_i ku) (CUpwPB_Flow.Velocity_j ku)
                  (CUpwPB_Flow.MeanVelocity ku) (lit 0.0) (nDim n)) as L.
    pose proof (upwind_flux_loop (Reversed.face n)
                  (V_j n (nDim n + 1)) (V_i n (nDim n + 1))
                  (CUpwPB_Flow.Velocity_i ku') (CUpwPB_Flow.Velocity_j ku')
                  (CUpwPB_Flow.MeanVelocity ku') (lit 0.0) (nDim n)) as L'.
    cbn [nDim nVar V_i V_j Normal Reversed.face] in *.
    destruct (for_loop (nDim n) (CUpwPB_Flow.flux_loop n _ _) _)
      as [[[Vi Vj] Mv] FF].
    destruct (for_loop (nDim n) (CUpwPB_Flow.flux_loop (Reversed.face n) _ _) _)
      as [[[Vi' Vj'] Mv'] FF'].
    destruct L as (_ & _ & _ & HFF). destruct L' as (_ & _ & _ & HFF').
    assert (E : FF' = (- FF)%R).
    { rewrite HFF, HFF'. apply flux_sum_reversed. }
    clear HFF HFF'. subst FF'.
    cbn [gt SU2Double_R]. unfold Rgt_bool. su2_real.
    replace (0 * / 10)%R with 0%R by lra.
    destruct (CUpwPB_Flow.implicit ku), (CUpwPB_Flow.implicit ku');
      try destruct (for_loop (nVar n) _ (Jac_i, Jac_j)) as [Ji Jj].
    all: destruct (Rlt_dec 0 FF) as [Hp|Hp], (Rlt_dec 0 (- FF)) as [Hm|Hm];
      try (exfalso; lra); cbn [val_residual];
      rewrite !(for_loop_store (fun i _ => _)), (proj2 (Nat.ltb_lt v (nVar n)))
        by assumption;
      try ring.
    all: assert (FF = 0%R) by lra; subst FF; ring.
  - unfold CPressureSource.ComputeResidual.
    cbn [CPressureSource.val_residual nDim V_i V_j Normal Reversed.face].
    rewrite !(for_loop_store (fun i _ => _)), (proj2 (Nat.ltb_lt d (nDim n)))
      by assumption.
    rewrite opposite_real. su2_real. ring.
Qed.

(** Seen from side j the first residual cell of the sample face is -6. *)
Lemma first_order_kernels_are_conservative_witness :
  let n := Samples.face 10 20 3 1 16 1 1 in
  (0 < nVar n /\ 0 < nDim n)
  /\ val_residual (CUpwPB_Flow.ComputeResidual Samples.PJ
                     (Samples.upwind EULER_EXPLICIT) (Reversed.face n)
                     Samples.zeros Samples.zeros2 Samples.zeros2) 0
     = (- 6)%R.
Proof.
  intros n.
  assert (H0 : 0 < nVar n) by (cbn; lia).
  assert (H0d : 0 < nDim n) by (cbn; lia).
  split; [split; assumption|].
  rewrite (proj1 (@first_order_kernels_are_conservative Samples.PJ Samples.PJ
                    (Samples.upwind EULER_EXPLICIT) (Samples.upwind EULER_EXPLICIT)
                    (CPressureSource.new 2 2 (Samples.config EULER_EXPLICIT) 0%R)
                    (CPressureSource.new 2 2 (Samples.config EULER_EXPLICIT) 0%R)
                    n Samples.zeros Samples.zeros2 Samples.zeros2 0 0 H0 H0d)).
  subst n. real_eval.
  destruct (Rlt_dec _ _) as [_|Hn]; [lra|]. exfalso. apply Hn. lra.
Defined.

Lemma dot_opposite (x N : array R) (m : nat) :
  CNumerics_routines.dot m x (Reversed.opposite N)
  = (- CNumerics_routines.dot m x N)%R.
Proof. unfold CNumerics_routines.dot. apply sum_opposite. Qed.

Lemma scaling_symmetric (a b : nat) :
  (lit 3.0 * (cast b + cast a) / (cast b * cast a))%su2
  = (lit 3.0 * (cast a + cast b) / (cast a * cast b) : R)%su2.
Proof.
  su2_real. rewrite (Rplus_comm (INR b)), (Rmult_comm (INR b)). reflexivity.
Qed.

Lemma mean_lambda_reversed (a b : R) :
  (lit 0.5 * (fabs (lit 2.0 * (- b)%R) + fabs (lit 2.0 * (- a)%R)))%su2
  = (lit 0.5 * (fabs (lit 2.0 * a) + fabs (lit 2.0 * b)) : R)%su2.
Proof.
  su2_real.
  replace (20 * / 10 * - b)%R with (- (20 * / 10 * b))%R by ring.
  replace (20 * / 10 * - a)%R with (- (20 * / 10 * a))%R by ring.
  rewrite !Rabs_Ropp. ring.
Qed.

Lemma stretch_symmetric (a b : R) :
  (lit 4.0 * b * a / (b + a))%su2 = (lit 4.0 * a * b / (a + b) : R)%su2.
Proof. su2_real. rewrite (Rplus_comm b a). unfold Rdiv. ring. Qed.

(** The neighbour scaling of a Lax call. *)
Lemma lax_scaling {T : Type} `{SU2Double T}
      (PF : nat -> T -> array T -> T -> array T -> array T -> array T)
      (PJ : nat -> T -> array T -> array T -> T -> matrix T -> matrix T)
      (k : CCentLaxPB_Flow.t) (n : CNumerics T)
      (res : array T) (Jac_i Jac_j : matrix T) :
  CCentLaxPB_Flow.sc0 (self (CCentLaxPB_Flow.ComputeResidual PF PJ k n res Jac_i Jac_j))
  = (lit 3.0 * (cast (Neighbor_i n) + cast (Neighbor_j n))
     / (cast (Neighbor_i n) * cast (Neighbor_j n)))%su2.
Proof.
  open_lax k n.
  destruct (CCentLaxPB_Flow.implicit k);
    [ destruct (for_loop (nVar n) _ (_, _)) as [Ji Jj] | ]; reflexivity.
Qed.

(** X10.  The JST kernel is conservative when the projected flux routine is
    odd in the normal: seen from the other side of the face (sides exchanged,
    normal reversed) each residual cell is the opposite of the one seen from
    this side. *)
Theorem jst_residual_is_conservative
        (PF : nat -> R -> array R -> R -> array R -> array R -> array R)
        (PJ : nat -> R -> array R -> array R -> R -> matrix R -> matrix R)
        (k : CCentJSTPB_Flow.t) (n : CNumerics R)
        (res : array R) (Jac_i Jac_j : matrix R) (v : nat) :
  (forall rho vel p N out c, c < nVar n ->
     PF (nDim n) rho vel p (Reversed.opposite N) out c
     = (- PF (nDim n) rho vel p N out c)%R) ->
  v < nVar n ->
  val_residual
    (CCentJSTPB_Flow.ComputeResidual PF PJ k (Reversed.face n) res Jac_i Jac_j) v
  = (- val_residual
         (CCentJSTPB_Flow.ComputeResidual PF PJ k n res Jac_i Jac_j) v)%R.
Proof.
  intros HPF Hv.
  pose proof (jst_cells PF PJ n res Jac_i Jac_j k) as C.
  pose proof (jst_cells PF PJ (Reversed.face n) res Jac_i Jac_j k) as C'.
  pose proof (jst_stretching PF PJ n res Jac_i Jac_j k) as S.
  pose proof (jst_stretching PF PJ (Reversed.face n) res Jac_i Jac_j k) as S'.
  cbv zeta in C, C', S, S'.
  cbn [nDim nVar V_i V_j U_i U_j Normal Und_Lapl_i Und_Lapl_j Sensor_i Sensor_j
       Neighbor_i Neighbor_j Lambda_i Lambda_j Reversed.face] in C', S'.
  unfold Face.velocity in S, S'.
  set (o := self (CCentJSTPB_Flow.ComputeResidual PF PJ k n res Jac_i Jac_j)) in *.
  set (o' := self (CCentJSTPB_Flow.ComputeResidual PF PJ k (Reversed.face n)
                     res Jac_i Jac_j)) in *.
  destruct C as (E2 & E4 & Hs & HP & HM & HR).
  destruct C' as (E2' & E4' & Hs' & HP' & HM' & HR').
  destruct S as (_ & _ & _ & _ & HL & _ & _ & HS).
  destruct S' as (_ & _ & _ & _ & HL' & _ & _ & HS').
  assert (Xs : CCentJSTPB_Flow.sc2 o' = CCentJSTPB_Flow.sc2 o).
  { rewrite Hs, Hs'. apply scaling_symmetric. }
  assert (X2 : CCentJSTPB_Flow.Epsilon_2 o' = CCentJSTPB_Flow.Epsilon_2 o).
  { rewrite E2, E2', Xs. su2_real. ring. }
  assert (X4 : CCentJSTPB_Flow.Epsilon_4 o' = CCentJSTPB_Flow.Epsilon_4 o).
  { rewrite E4, E4', X2, Xs. reflexivity. }
  assert (XL : CCentJSTPB_Flow.MeanLambda o' = CCentJSTPB_Flow.MeanLambda o).
  { rewrite HL, HL', !dot_opposite. apply mean_lambda_reversed. }
  assert (XS : CCentJSTPB_Flow.StretchingFactor o'
               = CCentJSTPB_Flow.StretchingFactor o).
  { rewrite HS, HS', !dot_opposite, mean_lambda_reversed.
    apply stretch_symmetric. }
  assert (XM : CCentJSTPB_Flow.MeanVelocity o' = CCentJSTPB_Flow.MeanVelocity o).
  { apply functional_extensionality. intros d. rewrite HM, HM'.
    destruct (d <? nDim n); [su2_real; ring | reflexivity]. }
  assert (XP : CCentJSTPB_Flow.ProjFlux o' v = (- CCentJSTPB_Flow.ProjFlux o v)%R).
  { rewrite HP, HP', XM, HPF by assumption.
    replace (lit 0.5 * (V_j n (nDim n + 1)%nat + V_i n (nDim n + 1)%nat))%su2
      with (lit 0.5 * (V_i n (nDim n + 1)%nat + V_j n (nDim n + 1)%nat) : R)%su2
      by (su2_real; ring).
    replace (lit 0.5 * (V_j n 0%nat + V_i n 0%nat))%su2
      with (lit 0.5 * (V_i n 0%nat + V_j n 0%nat) : R)%su2
      by (su2_real; ring).
    reflexivity. }
  fold o' in HR'. fold o in HR.
  rewrite (HR' v Hv), (HR v Hv), XP, X2, X4, XS, XL. su2_real. ring.
Qed.

(** X11.  The Lax kernel is conservative when the projected flux routine is
    odd in the normal: seen from the other side of the face each residual
    cell is the opposite of the one seen from this side. *)
Theorem lax_residual_is_conservative
        (PF : nat -> R -> array R -> R -> array R -> array R -> array R)
        (PJ : nat -> R -> array R -> array R -> R -> matrix R -> matrix R)
        (k : CCentLaxPB_Flow.t) (n : CNumerics R)
        (res : array R) (Jac_i Jac_j : matrix R) (v : nat) :
  (forall rho vel p N out c, c < nVar n ->
     PF (nDim n) rho vel p (Reversed.opposite N) out c
     = (- PF (nDim n) rho vel p N out c)%R) ->
  v < nVar n ->
  val_residual
    (CCentLaxPB_Flow.ComputeResidual PF PJ k (Reversed.face n) res Jac_i Jac_j) v
  = (- val_residual
         (CCentLaxPB_Flow.ComputeResidual PF PJ k n res Jac_i Jac_j) v)%R.
Proof.
  intros HPF Hv.
  pose proof (lax_cells PF PJ n res Jac_i Jac_j k) as C.
  pose proof (lax_cells PF PJ (Reversed.face n) res Jac_i Jac_j k) as C'.
  pose proof (lax_stretching PF PJ n res Jac_i Jac_j k) as S.
  pose proof (lax_stretching PF PJ (Reversed.face n) res Jac_i Jac_j k) as S'.
  pose proof (lax_scaling PF PJ k n res Jac_i Jac_j) as Hs.
  pose proof (lax_scaling PF PJ k (Reversed.face n) res Jac_i Jac_j) as Hs'.
  cbv zeta in C, C', S, S'.
  cbn [nDim nVar V_i V_j U_i U_j Normal Und_Lapl_i Und_Lapl_j Sensor_i Sensor_j
       Neighbor_i Neighbor_j Lambda_i Lambda_j Reversed.face] in C', S', Hs'.
  unfold Face.velocity in S, S'.
  set (o := self (CCentLaxPB_Flow.ComputeResidual PF PJ k n res Jac_i Jac_j)) in *.
  set (o' := self (CCentLaxPB_Flow.ComputeResidual PF PJ k (Reversed.face n)
                     res Jac_i Jac_j)) in *.
  destruct C as (E0 & HP & HM & HR).
  destruct C' as (E0' & HP' & HM' & HR').
  destruct S as (_ & _ & _ & _ & HL & _ & _ & HS).
  destruct S' as (_ & _ & _ & _ & HL' & _ & _ & HS').
  assert (Xs : CCentLaxPB_Flow.sc0 o' = CCentLaxPB_Flow.sc0 o).
  { rewrite Hs, Hs'. apply scaling_symmetric. }
  assert (X0 : CCentLaxPB_Flow.Epsilon_0 o' = CCentLaxPB_Flow.Epsilon_0 o).
  { rewrite E0, E0', Xs. reflexivity. }
  assert (XL : CCentLaxPB_Flow.MeanLambda o' = CCentLaxPB_Flow.MeanLambda o).
  { rewrite HL, HL', !dot_opposite. apply mean_lambda_reversed. }
  assert (XS : CCentLaxPB_Flow.StretchingFactor o'
               = CCentLaxPB_Flow.StretchingFactor o).
  { rewrite HS, HS', !dot_opposite, mean_lambda_reversed.
    apply stretch_symmetric. }
  assert (XM : CCentLaxPB_Flow.MeanVelocity o' = CCentLaxPB_Flow.MeanVelocity o).
  { apply functional_extensionality. intros d. rewrite HM, HM'.
    destruct (d <? nDim n); [su2_real; ring | reflexivity]. }
  assert (XP : CCentLaxPB_Flow.ProjFlux o' v = (- CCentLaxPB_Flow.ProjFlux o v)%R).
  { rewrite HP, HP', XM, HPF by assumption.
    replace (lit 0.5 * (V_j n (nDim n + 1)%nat + V_i n (nDim n + 1)%nat))%su2
      with (lit 0.5 * (V_i n (nDim n + 1)%nat + V_j n (nDim n + 1)%nat) : R)%su2
      by (su2_real; ring).
    replace (lit 0.5 * (V_j n 0%nat + V_i n 0%nat))%su2
      with (lit 0.5 * (V_i n 0%nat + V_j n 0%nat) : R)%su2
      by (su2_real; ring).
    reflexivity. }
  fold o' in HR'. fold o in HR.
  rewrite (HR' v Hv), (HR v Hv), XP, X0, XS, XL. su2_real. ring.
Qed.

(** The two routines modelled from the specification are odd in the normal. *)
Lemma projected_flux_opposite (nD : nat) (rho : R) (vel : array R) (p : R)
      (N out : array R) (c : nat) :
  c < nD ->
  Samples.PF nD rho vel p (Reversed.opposite N) out c
  = (- Samples.PF nD rho vel p N out c)%R.
Proof.
  intros Hc. unfold Samples.PF, CNumerics_routines.GetInviscidPBProjFlux.
  rewrite !(for_loop_store (fun i _ => _)), (proj2 (Nat.ltb_lt c nD))
    by assumption.
  rewrite dot_opposite, opposite_real. su2_real. ring.
Qed.

Lemma projected_jacobian_opposite (nD : nat) (rho : R) (vel N : array R) (s : R)
      (J : matrix R) (r c : nat) :
  r < nD -> c < nD ->
  Samples.PJ nD rho vel (Reversed.opposite N) s J r c
  = (- Samples.PJ nD rho vel N s J r c)%R.
Proof.
  intros Hr Hc. unfold Samples.PJ, CNumerics_routines.GetInviscidPBProjJac.
  rewrite !fill_loop, (proj2 (Nat.ltb_lt r nD)), (proj2 (Nat.ltb_lt c nD))
    by assumption.
  cbn [andb]. rewrite dot_opposite, opposite_real.
  destruct (Nat.eqb r c); su2_real; ring.
Qed.

(** With the projected flux of the specification: seen from side j the first
    residual cell of the JST kernel on the sample face is -36. *)
Lemma jst_residual_is_conservative_witness :
  let n := Samples.face 0 0 3 1 16 1 1 in
  let k := Samples.jst EULER_EXPLICIT in
  ((forall rho vel p N out c, c < nVar n ->
      Samples.PF (nDim n) rho vel p (Reversed.opposite N) out c
      = (- Samples.PF (nDim n) rho vel p N out c)%R)
   /\ 0 < nVar n)
  /\ val_residual
       (CCentJSTPB_Flow.ComputeResidual Samples.PF Samples.PJ k (Reversed.face n)
          Samples.zeros Samples.zeros2 Samples.zeros2) 0
     = (- val_residual
            (CCentJSTPB_Flow.ComputeResidual Samples.PF Samples.PJ k n
               Samples.zeros Samples.zeros2 Samples.zeros2) 0%nat)%R.
Proof.
  intros n k.
  assert (HPF : forall rho vel p N out c, c < nVar n ->
            Samples.PF (nDim n) rho vel p (Reversed.opposite N) out c
            = (- Samples.PF (nDim n) rho vel p N out c)%R).
  { intros rho vel p N out c Hc. now apply projected_flux_opposite. }
  assert (H0 : 0 < nVar n) by (cbn; lia).
  split; [split; assumption|].
  exact (@jst_residual_is_conservative Samples.PF Samples.PJ k n
           Samples.zeros Samples.zeros2 Samples.zeros2 0 HPF H0).
Defined.

Lemma lax_residual_is_conservative_witness :
  let n := Samples.face 0 0 3 1 16 1 1 in
  let k := Samples.lax EULER_EXPLICIT in
  ((forall rho vel p N out c, c < nVar n ->
      Samples.PF (nDim n) rho vel p (Reversed.opposite N) out c
      = (- Samples.PF (nDim n) rho vel p N out c)%R)
   /\ 0 < nVar n)
  /\ val_residual
       (CCentLaxPB_Flow.ComputeResidual Samples.PF Samples.PJ k (Reversed.face n)
          Samples.zeros Samples.zeros2 Samples.zeros2) 0
     = (- val_residual
            (CCentLaxPB_Flow.ComputeResidual Samples.PF Samples.PJ k n
               Samples.zeros Samples.zeros2 Samples.zeros2) 0%nat)%R.
Proof.
  intros n k.
  assert (HPF : forall rho vel p N out c, c < nVar n ->
            Samples.PF (nDim n) rho vel p (Reversed.opposite N) out c
            = (- Samples.PF (nDim n) rho vel p N out c)%R).
  { intros rho vel p N out c Hc. now apply projected_flux_opposite. }
  assert (H0 : 0 < nVar n) by (cbn; lia).
  split; [split; assumption|].
  exact (@lax_residual_is_conservative Samples.PF Samples.PJ k n
           Samples.zeros Samples.zeros2 Samples.zeros2 0 HPF H0).
Defined.

(** The Jacobian entries of the two central kernels in implicit mode, in
    closed form. *)
Section Central_jacobians.
Context {T : Type} `{SU2Double T}.
Variable PF : nat -> T -> array T -> T -> array T -> array T -> array T.
Variable PJ : nat -> T -> array T -> array T -> T -> matrix T -> matrix T.
Variable n : CNumerics T.
Variables (res : array T) (Jac_i Jac_j : matrix T).
Local Open Scope su2_scope.

Lemma jst_jacobian_cells (k : CCentJSTPB_Flow.t) (r c : nat) :
  CCentJSTPB_Flow.implicit k = true ->
  r < nVar n -> c < nVar n ->
  let out := CCentJSTPB_Flow.ComputeResidual PF PJ k n res Jac_i Jac_j in
  let o := self out in
  let central :=
    PJ (nDim n) (lit 0.5 * (V_i n (nDim n + 1)%nat + V_j n (nDim n + 1)%nat))
       (CCentJSTPB_Flow.MeanVelocity o) (Normal n) (lit 0.5) Jac_i r c in
  let cte (nb : nat) :=
    (CCentJSTPB_Flow.Epsilon_2 o + CCentJSTPB_Flow.Epsilon_4 o * cast (nb + 1)%nat)
    * CCentJSTPB_Flow.StretchingFactor o * CCentJSTPB_Flow.MeanLambda o in
  val_Jacobian_i out r c
  = (if Nat.eqb r c then central + cte (Neighbor_i n) else central)
  /\ val_Jacobian_j out r c
     = (if Nat.eqb r c then central - cte (Neighbor_j n) else central).
Proof.
  intros Himp Hr Hc out o central cte. subst out o central cte.
  open_jst k n. rewrite Himp.
  match goal with
  | |- context [for_loop (nVar n) (fun iVar '(Ji, Jj) => _) (?A0, ?B0)] =>
      match goal with
      | |- context [store2 _ _ _ (_ + ?c0)] =>
        match goal with
        | |- context [store2 _ _ _ (_ - ?c1)] =>
            pose proof (diagonal_loop c0 c1 A0 B0 (nVar n) r c) as LJ
        end
      end
  end.
  destruct (for_loop (nVar n) _ (_, _)) as [Ji Jj].
  destruct LJ as [HJi HJj].
  cbn -[Nat.ltb]. rewrite HJi, HJj, fill_loop.
  rewrite !(proj2 (Nat.ltb_lt r (nVar n))), !(proj2 (Nat.ltb_lt c (nVar n)))
    by assumption.
  rewrite !andb_true_r. cbn [andb]. split; reflexivity.
Qed.

Lemma lax_jacobian_cells (k : CCentLaxPB_Flow.t) (r c : nat) :
  CCentLaxPB_Flow.implicit k = true ->
  r < nVar n -> c < nVar n ->
  let out := CCentLaxPB_Flow.ComputeResidual PF PJ k n res Jac_i Jac_j in
  let o := self out in
  let central :=
    PJ (nDim n) (lit 0.5 * (V_i n (nDim n + 1)%nat + V_j n (nDim n + 1)%nat))
       (CCentLaxPB_Flow.MeanVelocity o) (Normal n) (lit 0.5) Jac_i r c in
  let cte :=
    CCentLaxPB_Flow.Epsilon_0 o * CCentLaxPB_Flow.StretchingFactor o
    * CCentLaxPB_Flow.MeanLambda o in
  val_Jacobian_i out r c = (if Nat.eqb r c then central + cte else central)
  /\ val_Jacobian_j out r c = (if Nat.eqb r c then central - cte else central).
Proof.
  intros Himp Hr Hc out o central cte. subst out o central cte.
  open_lax k n. rewrite Himp.
  match goal with
  | |- context [for_loop (nVar n) (fun iVar '(Ji, Jj) => _) (?A0, ?B0)] =>
      match goal with
      | |- context [store2 _ _ _ (_ + ?c0)] =>
          pose proof (diagonal_loop c0 c0 A0 B0 (nVar n) r c) as LJ
      end
  end.
  destruct (for_loop (nVar n) _ (_, _)) as [Ji Jj].
  destruct LJ as [HJi HJj].
  cbn -[Nat.ltb]. rewrite HJi, HJj, fill_loop.
  rewrite !(proj2 (Nat.ltb_lt r (nVar n))), !(proj2 (Nat.ltb_lt c (nVar n)))
    by assumption.
  rewrite !andb_true_r. cbn [andb]. split; reflexivity.
Qed.

End Central_jacobians.

(** Seen from the other side of the face the coefficients of the JST
    dissipation are the same, with the roles of the neighbour counts
    exchanged. *)
Lemma jst_reversed_coefficients
      (PF : nat -> R -> array R -> R -> array R -> array R -> array R)
      (PJ : nat -> R -> array R -> array R -> R -> matrix R -> matrix R)
      (k : CCentJSTPB_Flow.t) (n : CNumerics R)
      (res : array R) (Jac_i Jac_j : matrix R) :
  let o := self (CCentJSTPB_Flow.ComputeResidual PF PJ k n res Jac_i Jac_j) in
  let o' := self (CCentJSTPB_Flow.ComputeResidual PF PJ k (Reversed.face n)
                    res Jac_i Jac_j) in
  CCentJSTPB_Flow.Epsilon_2 o' = CCentJSTPB_Flow.Epsilon_2 o
  /\ CCentJSTPB_Flow.Epsilon_4 o' = CCentJSTPB_Flow.Epsilon_4 o
  /\ CCentJSTPB_Flow.MeanLambda o' = CCentJSTPB_Flow.MeanLambda o
  /\ CCentJSTPB_Flow.StretchingFactor o' = CCentJSTPB_Flow.StretchingFactor o
  /\ CCentJSTPB_Flow.MeanVelocity o' = CCentJSTPB_Flow.MeanVelocity o.
Proof.
  intros o o'.
  pose proof (jst_cells PF PJ n res Jac_i Jac_j k) as C.
  pose proof (jst_cells PF PJ (Reversed.face n) res Jac_i Jac_j k) as C'.
  pose proof (jst_stretching PF PJ n res Jac_i Jac_j k) as S.
  pose proof (jst_stretching PF PJ (Reversed.face n) res Jac_i Jac_j k) as S'.
  cbv zeta in C, C', S, S'.
  cbn [nDim nVar V_i V_j U_i U_j Normal Und_Lapl_i Und_Lapl_j Sensor_i Sensor_j
       Neighbor_i Neighbor_j Lambda_i Lambda_j Reversed.face] in C', S'.
  unfold Face.velocity in S, S'.
  fold o in C, S. fold o' in C', S'.
  destruct C as (E2 & E4 & Hs & _ & HM & _).
  destruct C' as (E2' & E4' & Hs' & _ & HM' & _).
  destruct S as (_ & _ & _ & _ & HL & _ & _ & HS).
  destruct S' as (_ & _ & _ & _ & HL' & _ & _ & HS').
  assert (Xs : CCentJSTPB_Flow.sc2 o' = CCentJSTPB_Flow.sc2 o).
  { rewrite Hs, Hs'. apply scaling_symmetric. }
  assert (X2 : CCentJSTPB_Flow.Epsilon_2 o' = CCentJSTPB_Flow.Epsilon_2 o).
  { rewrite E2, E2', Xs. su2_real. ring. }
  repeat split.
  - exact X2.
  - rewrite E4, E4', X2, Xs. reflexivity.
  - rewrite HL, HL', !dot_opposite. apply mean_lambda_reversed.
  - rewrite HS, HS', !dot_opposite, mean_lambda_reversed.
    apply stretch_symmetric.
  - apply functional_extensionality. intros d. rewrite HM, HM'.
    destruct (d <? nDim n); [su2_real; ring | reflexivity].
Qed.

Lemma lax_reversed_coefficients
      (PF : nat -> R -> array R -> R -> array R -> array R -> array R)
      (PJ : nat -> R -> array R -> array R -> R -> matrix R -> matrix R)
      (k : CCentLaxPB_Flow.t) (n : CNumerics R)
      (res : array R) (Jac_i Jac_j : matrix R) :
  let o := self (CCentLaxPB_Flow.ComputeResidual PF PJ k n res Jac_i Jac_j) in
  let o' := self (CCentLaxPB_Flow.ComputeResidual PF PJ k (Reversed.face n)
                    res Jac_i Jac_j) in
  CCentLaxPB_Flow.Epsilon_0 o' = CCentLaxPB_Flow.Epsilon_0 o
  /\ CCentLaxPB_Flow.MeanLambda o' = CCentLaxPB_Flow.MeanLambda o
  /\ CCentLaxPB_Flow.StretchingFactor o' = CCentLaxPB_Flow.StretchingFactor o
  /\ CCentLaxPB_Flow.MeanVelocity o' = CCentLaxPB_Flow.MeanVelocity o.
Proof.
  intros o o'.
  pose proof (lax_cells PF PJ n res Jac_i Jac_j k) as C.
  pose proof (lax_cells PF PJ (Reversed.face n) res Jac_i Jac_j k) as C'.
  pose proof (lax_stretching PF PJ n res Jac_i Jac_j k) as S.
  pose proof (lax_stretching PF PJ (Reversed.face n) res Jac_i Jac_j k) as S'.
  pose proof (lax_scaling PF PJ k n res Jac_i Jac_j) as Hs.
  pose proof (lax_scaling PF PJ k (Reversed.face n) res Jac_i Jac_j) as Hs'.
  cbv zeta in C, C', S, S'.
  cbn [nDim nVar V_i V_j U_i U_j Normal Und_Lapl_i Und_Lapl_j Sensor_i Sensor_j
       Neighbor_i Neighbor_j Lambda_i Lambda_j Reversed.face] in C', S', Hs'.
  unfold Face.velocity in S, S'.
  fold o in C, S, Hs. fold o' in C', S', Hs'.
  destruct C as (E0 & _ & HM & _).
  destruct C' as (E0' & _ & HM' & _).
  destruct S as (_ & _ & _ & _ & HL & _ & _ & HS).
  destruct S' as (_ & _ & _ & _ & HL' & _ & _ & HS').
  repeat split.
  - rewrite E0, E0', Hs, Hs', scaling_symmetric. reflexivity.
  - rewrite HL, HL', !dot_opposite. apply mean_lambda_reversed.
  - rewrite HS, HS', !dot_opposite, mean_lambda_reversed.
    apply stretch_symmetric.
  - apply functional_extensionality. intros d. rewrite HM, HM'.
    destruct (d <? nDim n); [su2_real; ring | reflexivity].
Qed.

(** X12.  In implicit mode, when the Jacobian routine is odd in the normal,
    the Jacobians of the two central kernels seen from the other side of the
    face are the opposites of the ones seen from this side with their roles
    exchanged: the new side-i block is minus the old side-j block and the
    new side-j block is minus the old side-i block. *)
Theorem central_jacobians_seen_from_the_other_side
        (PF : nat -> R -> array R -> R -> array R -> array R -> array R)
        (PJ : nat -> R -> array R -> array R -> R -> matrix R -> matrix R)
        (kj : CCentJSTPB_Flow.t) (kl : CCentLaxPB_Flow.t) (n : CNumerics R)
        (res : array R) (Jac_i Jac_j : matrix R) (r c : nat) :
  (forall rho vel N s J a b, a < nVar n -> b < nVar n ->
     PJ (nDim n) rho vel (Reversed.opposite N) s J a b
     = (- PJ (nDim n) rho vel N s J a b)%R) ->
  CCentJSTPB_Flow.implicit kj = true ->
  CCentLaxPB_Flow.implicit kl = true ->
  r < nVar n -> c < nVar n ->
  let js := CCentJSTPB_Flow.ComputeResidual PF PJ kj n res Jac_i Jac_j in
  let js' := CCentJSTPB_Flow.ComputeResidual PF PJ kj (Reversed.face n)
               res Jac_i Jac_j in
  let lx := CCentLaxPB_Flow.ComputeResidual PF PJ kl n res Jac_i Jac_j in
  let lx' := CCentLaxPB_Flow.ComputeResidual PF PJ kl (Reversed.face n)
               res Jac_i Jac_j in
  (val_Jacobian_i js' r c = (- val_Jacobian_j js r c)%R
   /\ val_Jacobian_j js' r c = (- val_Jacobian_i js r c)%R)
  /\ (val_Jacobian_i lx' r c = (- val_Jacobian_j lx r c)%R
      /\ val_Jacobian_j lx' r c = (- val_Jacobian_i lx r c)%R).
Proof.
  intros HPJ Hj Hl Hr Hc js js' lx lx'. subst js js' lx lx'.
  assert (Hrho : (lit 0.5 * (V_j n (nDim n + 1)%nat + V_i n (nDim n + 1)%nat))%su2
                 = (lit 0.5 * (V_i n (nDim n + 1)%nat + V_j n (nDim n + 1)%nat) : R)%su2)
    by (su2_real; ring).
  split.
  - pose proof (jst_jacobian_cells PF PJ n res Jac_i Jac_j kj Hj Hr Hc) as J.
    pose proof (jst_jacobian_cells PF PJ (Reversed.face n) res Jac_i Jac_j kj
                  Hj Hr Hc) as J'.
    pose proof (jst_reversed_coefficients PF PJ kj n res Jac_i Jac_j)
      as (X2 & X4 & XL & XS & XM).
    cbv zeta in J, J'.
    cbn [nDim nVar V_i V_j Normal Neighbor_i Neighbor_j Reversed.face] in J'.
    destruct J as [Ji Jj]. destruct J' as [Ji' Jj'].
    rewrite Ji, Jj, Ji', Jj', X2, X4, XL, XS, XM, Hrho, HPJ by assumption.
    destruct (Nat.eqb r c); su2_real; split; ring.
  - pose proof (lax_jacobian_cells PF PJ n res Jac_i Jac_j kl Hl Hr Hc) as J.
    pose proof (lax_jacobian_cells PF PJ (Reversed.face n) res Jac_i Jac_j kl
                  Hl Hr Hc) as J'.
    pose proof (lax_reversed_coefficients PF PJ kl n res Jac_i Jac_j)
      as (X0 & XL & XS & XM).
    cbv zeta in J, J'.
    cbn [nDim nVar V_i V_j Normal Neighbor_i Neighbor_j Reversed.face] in J'.
    destruct J as [Ji Jj]. destruct J' as [Ji' Jj'].
    rewrite Ji, Jj, Ji', Jj', X0, XL, XS, XM, Hrho, HPJ by assumption.
    destruct (Nat.eqb r c); su2_real; split; ring.
Qed.

(** Implicit sample objects with the Jacobian routine of the specification. *)
Lemma central_jacobians_seen_from_the_other_side_witness :
  let n := Samples.face 0 0 3 1 16 1 1 in
  let kj := Samples.jst EULER_IMPLICIT in
  let kl := Samples.lax EULER_IMPLICIT in
  ((forall rho vel N s J a b, a < nVar n -> b < nVar n ->
      Samples.PJ (nDim n) rho vel (Reversed.opposite N) s J a b
      = (- Samples.PJ (nDim n) rho vel N s J a b)%R)
   /\ CCentJSTPB_Flow.implicit kj = true /\ CCentLaxPB_Flow.implicit kl = true
   /\ 0 < nVar n /\ 0 < nVar n)
  /\ val_Jacobian_i
       (CCentJSTPB_Flow.ComputeResidual Samples.PF Samples.PJ kj (Reversed.face n)
          Samples.zeros Samples.zeros2 Samples.zeros2) 0 0
     = (- val_Jacobian_j
            (CCentJSTPB_Flow.ComputeResidual Samples.PF Samples.PJ kj n
               Samples.zeros Samples.zeros2 Samples.zeros2) 0%nat 0%nat)%R.
Proof.
  intros n kj kl.
  assert (HPJ : forall rho vel N s J a b, a < nVar n -> b < nVar n ->
            Samples.PJ (nDim n) rho vel (Reversed.opposite N) s J a b
            = (- Samples.PJ (nDim n) rho vel N s J a b)%R).
  { intros rho vel N s J a b Ha Hb. now apply projected_jacobian_opposite. }
  assert (H0 : 0 < nVar n) by (cbn; lia).
  split; [repeat split; assumption|].
  exact (proj1 (proj1
    (@central_jacobians_seen_from_the_other_side Samples.PF Samples.PJ kj kl n
       Samples.zeros Samples.zeros2 Samples.zeros2 0 0
       HPJ eq_refl eq_refl H0 H0))).
Defined.

(** ** When the stretching factor has a value *)

Lemma Rpow_positive (x y : R) : (0 < x)%R -> (0 < Rpow x y)%R.
Proof.
  intros Hx. unfold Rpow.
  destruct (Rlt_dec 0 x) as [_|Hn]; [|contradiction].
  unfold Rpower. apply exp_pos.
Qed.

(** The blending exponents and the stretching factor computed with checked
    quotients from a positive mean lambda and positive nodal lambdas. *)
Lemma checked_stretching (l_i l_j m p : R) :
  (0 < l_i)%R -> (0 < l_j)%R -> (0 < m)%R ->
  exists a b : R,
    (0 < a)%R /\ (0 < b)%R
    /\ pow (Val l_i / (lit 4.0 * Val m))%su2 (Val p) = Val a
    /\ pow (Val l_j / (lit 4.0 * Val m))%su2 (Val p) = Val b
    /\ (lit 4.0 * Val a * Val b / (Val a + Val b))%su2
       = Val (4 * a * b / (a + b)).
Proof.
  intros Hi Hj Hm.
  assert (H4 : (0 < Q2R 4.0 * m)%R) by (unfold Q2R; cbn [Qnum Qden]; lra).
  assert (Hqi : (0 < l_i / (Q2R 4.0 * m))%R) by (apply Rdiv_lt_0_compat; lra).
  assert (Hqj : (0 < l_j / (Q2R 4.0 * m))%R) by (apply Rdiv_lt_0_compat; lra).
  exists (Rpow (l_i / (Q2R 4.0 * m)) p), (Rpow (l_j / (Q2R 4.0 * m)) p).
  pose proof (Rpow_positive p Hqi) as Pa. pose proof (Rpow_positive p Hqj) as Pb.
  split; [exact Pa|]. split; [exact Pb|].
  cbn. unfold checked_div.
  destruct (Req_dec_T (Q2R 4.0 * m) 0) as [Hz|_]; [exfalso; lra|].
  cbn. unfold checked_pow.
  destruct (Rlt_dec (l_i / (Q2R 4.0 * m)) 0) as [Hn|_]; [exfalso; lra|].
  destruct (Rlt_dec (l_j / (Q2R 4.0 * m)) 0) as [Hn|_]; [exfalso; lra|].
  split; [reflexivity|]. split; [reflexivity|].
  destruct (Req_dec_T _ 0) as [Hz|_]; [exfalso; lra|].
  f_equal. unfold Q2R. cbn [Qnum Qden].
  replace (40 * / 10)%R with 4%R by lra. reflexivity.
Qed.

(** X13.  With checked quotients: when the velocity of at least one side has
    a component along the normal and both nodal lambdas are positive, no
    division of the blending step of the central kernels has a zero divisor;
    both exponents are positive numbers a and b and the stretching factor is
    the number 4 a b / (a + b), the same in both kernels. *)
Theorem stretching_factor_defined_when_flow_crosses :
  forall (PF : nat -> checked -> array checked -> checked -> array checked
               -> array checked -> array checked)
         (PJ : nat -> checked -> array checked -> array checked -> checked
               -> matrix checked -> matrix checked)
         (kj : CCentJSTPB_Flow.t) (kl : CCentLaxPB_Flow.t) (n : CNumerics checked)
         (res : array checked) (Jac_i Jac_j : matrix checked)
         (p_i p_j l_i l_j : R),
    CNumerics_routines.dot (nDim n) (Face.velocity (V_i n)) (Normal n) = Val p_i ->
    CNumerics_routines.dot (nDim n) (Face.velocity (V_j n)) (Normal n) = Val p_j ->
    Lambda_i n = Val l_i ->
    Lambda_j n = Val l_j ->
    CCentJSTPB_Flow.Param_p kj = lit 0.3 ->
    CCentLaxPB_Flow.Param_p kl = lit 0.3 ->
    (0 < l_i)%R -> (0 < l_j)%R ->
    p_i <> 0%R \/ p_j <> 0%R ->
    let oj := self (CCentJSTPB_Flow.ComputeResidual PF PJ kj n res Jac_i Jac_j) in
    let ol := self (CCentLaxPB_Flow.ComputeResidual PF PJ kl n res Jac_i Jac_j) in
    exists a b : R,
      (0 < a)%R /\ (0 < b)%R
      /\ (CCentJSTPB_Flow.Phi_i oj = Val a /\ CCentJSTPB_Flow.Phi_j oj = Val b
          /\ CCentJSTPB_Flow.StretchingFactor oj = Val (4 * a * b / (a + b)))
      /\ (CCentLaxPB_Flow.Phi_i ol = Val a /\ CCentLaxPB_Flow.Phi_j ol = Val b
          /\ CCentLaxPB_Flow.StretchingFactor ol = Val (4 * a * b / (a + b))).
Proof.
  intros PF PJ kj kl n res Jac_i Jac_j p_i p_j l_i l_j
         Hvi Hvj Hli Hlj Hpj Hpl Pli Plj Hmove oj ol.
  set (m := (Q2R 0.5 * (Rabs (Q2R 2.0 * p_i) + Rabs (Q2R 2.0 * p_j)))%R).
  assert (Hm : (0 < m)%R).
  { subst m. unfold Q2R. cbn [Qnum Qden].
    pose proof (Rabs_pos (20 * / 10 * p_i)) as Pi.
    pose proof (Rabs_pos (20 * / 10 * p_j)) as Pj.
    destruct Hmove as [Hi|Hj].
    - assert (0 < Rabs (20 * / 10 * p_i))%R by (apply Rabs_pos_lt; lra). lra.
    - assert (0 < Rabs (20 * / 10 * p_j))%R by (apply Rabs_pos_lt; lra). lra. }
  assert (Hmean : (lit 0.5 * (fabs (lit 2.0 * Val p_i) + fabs (lit 2.0 * Val p_j)))%su2
                  = Val m) by reflexivity.
  destruct (checked_stretching (Q2R 0.3) Pli Plj Hm)
    as (a & b & Pa & Pb & Ha & Hb & Hs).
  exists a, b. split; [exact Pa|]. split; [exact Pb|].
  split.
  - pose proof (jst_stretching PF PJ n res Jac_i Jac_j kj) as S.
    cbv zeta in S. fold oj in S.
    rewrite Hvi, Hvj, Hli, Hlj, Hpj, Hmean in S.
    change (@lit checked _ 0.3) with (Val (Q2R 0.3)) in S.
    rewrite Ha, Hb, Hs in S.
    destruct S as (_ & _ & _ & _ & _ & Hpi & Hpj' & HSF).
    repeat split; assumption.
  - pose proof (lax_stretching PF PJ n res Jac_i Jac_j kl) as S.
    cbv zeta in S. fold ol in S.
    rewrite Hvi, Hvj, Hli, Hlj, Hpl, Hmean in S.
    change (@lit checked _ 0.3) with (Val (Q2R 0.3)) in S.
    rewrite Ha, Hb, Hs in S.
    destruct S as (_ & _ & _ & _ & _ & Hpi & Hpj' & HSF).
    repeat split; assumption.
Qed.

(** A face crossed with projected velocities 3 and 1 and nodal lambdas 16. *)
Lemma stretching_factor_defined_when_flow_crosses_witness :
  let n := Samples.moving_face in
  let kj := Samples.checked_jst EULER_EXPLICIT in
  let kl := Samples.checked_lax EULER_EXPLICIT in
  let oj := self (CCentJSTPB_Flow.ComputeResidual Samples.checked_PF Samples.checked_PJ
                    kj n (fun _ => Val 0) (fun _ _ => Val 0) (fun _ _ => Val 0)) in
  (CNumerics_routines.dot (nDim n) (Face.velocity (V_i n)) (Normal n) = Val 3
   /\ CNumerics_routines.dot (nDim n) (Face.velocity (V_j n)) (Normal n) = Val 1
   /\ Lambda_i n = Val 16 /\ Lambda_j n = Val 16
   /\ CCentJSTPB_Flow.Param_p kj = lit 0.3 /\ CCentLaxPB_Flow.Param_p kl = lit 0.3
   /\ (0 < 16)%R /\ (0 < 16)%R /\ (3 <> 0 \/ 1 <> 0)%R)
  /\ exists a b : R,
       (0 < a)%R /\ (0 < b)%R
       /\ CCentJSTPB_Flow.StretchingFactor oj = Val (4 * a * b / (a + b)).
Proof.
  intros n kj kl oj.
  assert (Hi : CNumerics_routines.dot (nDim n) (Face.velocity (V_i n)) (Normal n)
               = Val 3).
  { cbn. f_equal. unfold Q2R. cbn [Qnum Qden]. lra. }
  assert (Hj : CNumerics_routines.dot (nDim n) (Face.velocity (V_j n)) (Normal n)
               = Val 1).
  { cbn. f_equal. unfold Q2R. cbn [Qnum Qden]. lra. }
  assert (P16 : (0 < 16)%R) by lra.
  assert (Hmove : (3 <> 0 \/ 1 <> 0)%R) by (left; lra).
  split; [repeat split; assumption|].
  destruct (stretching_factor_defined_when_flow_crosses
              Samples.checked_PF Samples.checked_PJ kj kl n
              (fun _ => Val 0) (fun _ _ => Val 0) (fun _ _ => Val 0)
              Hi Hj eq_refl eq_refl eq_refl eq_refl P16 P16 Hmove)
    as (a & b & Pa & Pb & (_ & _ & HS) & _).
  exists a, b. repeat split; assumption.
Defined.

(** * The adjoint variables *)

Section Adjoint_variable.
Context {T : Type}.

(** Copying a vector into the row of a point. *)
Lemma row_loop (v : array T) (M : matrix T) (p m r c : nat) :
  for_loop m (fun i (J : matrix T) => store2 J p i (v i)) M r c
  = if Nat.eqb r p && (c <? m) then v c else M r c.
Proof.
  induction m as [|m IH]; cbn [for_loop].
  - now rewrite andb_false_r.
  - destruct (Nat.eq_dec r p) as [->|Hr].
    + rewrite Nat.eqb_refl in *. cbn [andb] in *.
      destruct (Nat.eq_dec c m) as [->|Hc].
      * now rewrite store2_same, ltb_succ_same.
      * rewrite store2_other, ltb_succ_other by auto. exact IH.
    + rewrite store2_other by auto. rewrite IH.
      destruct (Nat.eqb_spec r p); [contradiction | reflexivity].
Qed.

(** X14.  [SetSolution_Direct], [SetGeometry_Direct] and the pointer overload
    of [SetSolution_Geometry] copy the first [nVar] (respectively [nDim])
    values of their argument into the row of the point: reading the row back
    returns them, and every other row and every later column of the
    container keep their content. *)
Theorem pointer_setters_copy_one_row :
  forall (s : CDiscAdjVariable.t) (iPoint : nat) (val : array T) (p c : nat),
    CDiscAdjVariable.GetSolution_Direct
      (CDiscAdjVariable.SetSolution_Direct s iPoint val) p c
    = (if Nat.eqb p iPoint && (c <? CDiscAdjVariable.nVar s) then val c
       else CDiscAdjVariable.GetSolution_Direct s p c)
    /\ CDiscAdjVariable.GetGeometry_Direct
         (CDiscAdjVariable.SetGeometry_Direct s iPoint val) p c
       = (if Nat.eqb p iPoint && (c <? CDiscAdjVariable.nDim s) then val c
          else CDiscAdjVariable.GetGeometry_Direct s p c)
    /\ CDiscAdjVariable.GetSolution_Geometry
         (CDiscAdjVariable.SetSolution_Geometry s iPoint val) p c
       = (if Nat.eqb p iPoint && (c <? CDiscAdjVariable.nDim s) then val c
          else CDiscAdjVariable.GetSolution_Geometry s p c).
Proof.
  intros s iPoint val p c.
  unfold CDiscAdjVariable.GetSolution_Direct, CDiscAdjVariable.SetSolution_Direct,
         CDiscAdjVariable.GetGeometry_Direct, CDiscAdjVariable.SetGeometry_Direct,
         CDiscAdjVariable.GetSolution_Geometry, CDiscAdjVariable.SetSolution_Geometry.
  cbn [CDiscAdjVariable.Solution_Direct CDiscAdjVariable.with_Solution_Direct
       CDiscAdjVariable.Geometry_Direct CDiscAdjVariable.with_Geometry_Direct
       CDiscAdjVariable.Solution_Geometry CDiscAdjVariable.with_Solution_Geometry].
  repeat split; apply row_loop.
Qed.

(** X15.  The pointer overload of [SetSolution_Geometry] does what [nDim]
    calls of the component overload do, one per coordinate in increasing
    order: the two leave the object in the same state. *)
Theorem vector_setter_is_component_setters :
  forall (s : CDiscAdjVariable.t) (iPoint : nat) (val : array T),
    CDiscAdjVariable.SetSolution_Geometry s iPoint val
    = for_loop (CDiscAdjVariable.nDim s)
        (fun iDim s' => CDiscAdjVariable.SetSolution_Geometry_at s' iPoint iDim (val iDim))
        s.
Proof.
  intros s iPoint val. unfold CDiscAdjVariable.SetSolution_Geometry.
  generalize (CDiscAdjVariable.nDim s) as m.
  induction m as [|m IH]; cbn [for_loop].
  - destruct s. reflexivity.
  - rewrite <- IH. reflexivity.
Qed.

End Adjoint_variable.

(** * Consistency of the upwind kernel *)

(** With the same velocity on both sides the summed face flux is the density
    mean times the projected velocity. *)
Lemma uniform_flux_sum (a b : R) (x y N : array R) (m : nat) :
  (forall d, d < m -> x d = y d) ->
  for_loop m (fun d acc =>
    (acc + lit 0.5 * (a + b) * (lit 0.5 * (x d + y d)) * N d)%su2) (lit 0.0)
  = (/ 2 * (a + b) * CNumerics_routines.dot m x N)%R.
Proof.
  intros Hxy. unfold CNumerics_routines.dot.
  induction m as [|m IH]; cbn [for_loop].
  - su2_real. lra.
  - rewrite IH by (intros; apply Hxy; lia).
    rewrite <- (Hxy m) by lia. su2_real. field.
Qed.

(** X16.  The upwind kernel is consistent: when both sides carry the same
    velocity and the same density, each residual cell is the momentum flux
    density * (velocity . normal) * velocity of that common state, whichever
    side the sign of the face flux selects. *)
Theorem upwind_is_consistent
        (PJ : nat -> R -> array R -> array R -> R -> matrix R -> matrix R)
        (k : CUpwPB_Flow.t) (n : CNumerics R)
        (res : array R) (Jac_i Jac_j : matrix R) (v : nat) :
  (forall d, d < nDim n -> Face.velocity (V_i n) d = Face.velocity (V_j n) d) ->
  Face.velocity (V_i n) v = Face.velocity (V_j n) v ->
  Face.density (nDim n) (V_i n) = Face.density (nDim n) (V_j n) ->
  v < nVar n ->
  val_residual (CUpwPB_Flow.ComputeResidual PJ k n res Jac_i Jac_j) v
  = (Face.density (nDim n) (V_i n)
     * CNumerics_routines.dot (nDim n) (Face.velocity (V_i n)) (Normal n)
     * Face.velocity (V_i n) v)%R.
Proof.
  intros Hvel Hv Hrho Hlt.
  unfold CUpwPB_Flow.ComputeResidual.
  pose proof (upwind_flux_loop n (V_i n (nDim n + 1)) (V_j n (nDim n + 1))
                (CUpwPB_Flow.Velocity_i k) (CUpwPB_Flow.Velocity_j k)
                (CUpwPB_Flow.MeanVelocity k) (lit 0.0) (nDim n)) as L.
  destruct (for_loop (nDim n) _ _) as [[[Vi Vj] Mv] FF].
  destruct L as (_ & _ & _ & HFF).
  unfold Face.velocity, Face.density in *.
  assert (E : FF = (V_i n (nDim n + 1)%nat
                    * CNumerics_routines.dot (nDim n)
                        (fun d => V_i n (d + 1)%nat) (Normal n))%R).
  { rewrite HFF.
    rewrite (uniform_flux_sum _ _ (fun d => V_i n (d + 1)%nat)
               (fun d => V_j n (d + 1)%nat) (Normal n) Hvel).
    rewrite <- Hrho. lra. }
  clear HFF.
  destruct (CUpwPB_Flow.implicit k);
    [ destruct (for_loop (nVar n) _ (Jac_i, Jac_j)) as [Ji Jj] | ].
  all: destruct (gt FF (lit 0.0)); cbn [val_residual];
    repeat match goal with |- context [let '(_, _) := ?c in _] => destruct c end;
    cbn [val_residual];
    rewrite (for_loop_store (fun i _ => _)), (proj2 (Nat.ltb_lt v (nVar n)))
      by assumption;
    rewrite E, <- ?Hv; su2_real; reflexivity.
Qed.

(** Velocity (2,0) and unit density on both sides, normal (1,0): the first
    residual cell is 1 * 2 * 2. *)
Lemma upwind_is_consistent_witness :
  let n := Samples.face 0 0 2 2 16 1 1 in
  ((forall d, d < nDim n -> Face.velocity (V_i n) d = Face.velocity (V_j n) d)
   /\ Face.velocity (V_i n) 0 = Face.velocity (V_j n) 0
   /\ Face.density (nDim n) (V_i n) = Face.density (nDim n) (V_j n)
   /\ 0 < nVar n)
  /\ val_residual (CUpwPB_Flow.ComputeResidual Samples.PJ
                     (Samples.upwind EULER_EXPLICIT) n
                     Samples.zeros Samples.zeros2 Samples.zeros2) 0
     = 4%R.
Proof.
  intros n.
  assert (Hvel : forall d, d < nDim n ->
            Face.velocity (V_i n) d = Face.velocity (V_j n) d)
    by (intros d _; reflexivity).
  assert (H0 : 0 < nVar n) by (cbn; lia).
  split; [repeat split; assumption|].
  rewrite (@upwind_is_consistent Samples.PJ (Samples.upwind EULER_EXPLICIT) n
             Samples.zeros Samples.zeros2 Samples.zeros2 0
             Hvel eq_refl eq_refl H0).
  subst n. real_eval. lra.
Defined.

(** * The central kernels, from the inputs of a call *)

Section Central_inputs.
Context {T : Type} `{SU2Double T}.
Variable PF : nat -> T -> array T -> T -> array T -> array T -> array T.
Variable PJ : nat -> T -> array T -> array T -> T -> matrix T -> matrix T.
Variable n : CNumerics T.
Variables (res : array T) (Jac_i Jac_j : matrix T).
Local Open Scope su2_scope.

(** Every member a JST call computes, written from the face data and the
    parameters of the object. *)
Lemma jst_inputs (k : CCentJSTPB_Flow.t) :
  let o := self (CCentJSTPB_Flow.ComputeResidual PF PJ k n res Jac_i Jac_j) in
  let n_i := cast (Neighbor_i n) in
  let n_j := cast (Neighbor_j n) in
  let sc2 := lit 3.0 * (n_i + n_j) / (n_i * n_j) in
  let sc4 := sc2 * sc2 / lit 4.0 in
  let eps2 := CCentJSTPB_Flow.Param_Kappa_2 k * lit 0.5
              * (Sensor_i n + Sensor_j n) * sc2 in
  let eps4 := max (lit 0.0) (CCentJSTPB_Flow.Param_Kappa_4 k - eps2) * sc4 in
  let lambda_i :=
    fabs (lit 2.0 * CNumerics_routines.dot (nDim n) (Face.velocity (V_i n)) (Normal n)) in
  let lambda_j :=
    fabs (lit 2.0 * CNumerics_routines.dot (nDim n) (Face.velocity (V_j n)) (Normal n)) in
  let meanLambda := lit 0.5 * (lambda_i + lambda_j) in
  let phi_i := pow (Lambda_i n / (lit 4.0 * meanLambda)) (CCentJSTPB_Flow.Param_p k) in
  let phi_j := pow (Lambda_j n / (lit 4.0 * meanLambda)) (CCentJSTPB_Flow.Param_p k) in
  let stretch := lit 4.0 * phi_i * phi_j / (phi_i + phi_j) in
  let meanDensity :=
    lit 0.5 * (Face.density (nDim n) (V_i n) + Face.density (nDim n) (V_j n)) in
  let meanPressure := lit 0.5 * (Face.pressure (V_i n) + Face.pressure (V_j n)) in
  let meanVelocity := fun d =>
    if d <? nDim n
    then lit 0.5 * (Face.velocity (V_i n) d + Face.velocity (V_j n) d)
    else CCentJSTPB_Flow.MeanVelocity k d in
  CCentJSTPB_Flow.sc2 o = sc2
  /\ CCentJSTPB_Flow.sc4 o = sc4
  /\ CCentJSTPB_Flow.Epsilon_2 o = eps2
  /\ CCentJSTPB_Flow.Epsilon_4 o = eps4
  /\ CCentJSTPB_Flow.MeanLambda o = meanLambda
  /\ CCentJSTPB_Flow.StretchingFactor o = stretch
  /\ CCentJSTPB_Flow.MeanDensity o = meanDensity
  /\ CCentJSTPB_Flow.MeanPressure o = meanPressure
  /\ CCentJSTPB_Flow.MeanVelocity o = meanVelocity
  /\ CCentJSTPB_Flow.ProjFlux o
     = PF (nDim n) meanDensity meanVelocity meanPressure (Normal n)
          (CCentJSTPB_Flow.ProjFlux k).
Proof.
  intros o n_i n_j sc2 sc4 eps2 eps4 lambda_i lambda_j meanLambda phi_i phi_j
         stretch meanDensity meanPressure meanVelocity.
  subst o n_i n_j sc2 sc4 eps2 eps4 lambda_i lambda_j meanLambda phi_i phi_j
        stretch meanDensity meanPressure meanVelocity.
  assert (Hin : forall d, d < nDim n -> (d <? nDim n) = true)
    by (intros; now apply Nat.ltb_lt).
  open_jst k n. destruct LV as (HVi & HVj & HMv).
  assert (Ei : for_loop (nDim n) (fun d acc => acc + Vi d * Normal n d) (lit 0.0)
               = CNumerics_routines.dot (nDim n) (Face.velocity (V_i n)) (Normal n)).
  { apply sum_loop_ext. intros d Hd. now rewrite HVi, Hin. }
  assert (Ej : for_loop (nDim n) (fun d acc => acc + Vj d * Normal n d) (lit 0.0)
               = CNumerics_routines.dot (nDim n) (Face.velocity (V_j n)) (Normal n)).
  { apply sum_loop_ext. intros d Hd. now rewrite HVj, Hin. }
  assert (EM : Mv = fun d =>
                 if d <? nDim n
                 then lit 0.5 * (Face.velocity (V_i n) d + Face.velocity (V_j n) d)
                 else CCentJSTPB_Flow.MeanVelocity k d).
  { apply functional_extensionality. exact HMv. }
  clear HMv. subst Mv.
  destruct (CCentJSTPB_Flow.implicit k);
    [ destruct (for_loop (nVar n) _ (_, _)) as [Ji Jj] | ];
    cbn -[Nat.ltb]; rewrite Ei, Ej; repeat split; reflexivity.
Qed.

(** In implicit mode the last loop of a JST call moves the diagonals of the
    two blocks the central step wrote. *)
Lemma jst_jacobian_entries (k : CCentJSTPB_Flow.t) (r c : nat) :
  CCentJSTPB_Flow.implicit k = true ->
  let out := CCentJSTPB_Flow.ComputeResidual PF PJ k n res Jac_i Jac_j in
  let o := self out in
  let central_i :=
    PJ (nDim n) (CCentJSTPB_Flow.MeanDensity o)
       (CCentJSTPB_Flow.MeanVelocity o) (Normal n) (lit 0.5) Jac_i in
  let central_j := fun r c =>
    if (r <? nVar n) && (c <? nVar n) then central_i r c else Jac_j r c in
  let cte := fun nb =>
    (CCentJSTPB_Flow.Epsilon_2 o + CCentJSTPB_Flow.Epsilon_4 o * cast (nb + 1)%nat)
    * CCentJSTPB_Flow.StretchingFactor o * CCentJSTPB_Flow.MeanLambda o in
  val_Jacobian_i out r c
  = (if Nat.eqb r c && (r <? nVar n)
     then central_i r c + cte (Neighbor_i n) else central_i r c)
  /\ val_Jacobian_j out r c
     = (if Nat.eqb r c && (r <? nVar n)
        then central_j r c - cte (Neighbor_j n) else central_j r c).
Proof.
  intros Himp out o central_i central_j cte.
  subst out o central_i central_j cte.
  open_jst k n. rewrite Himp.
  match goal with
  | |- context [for_loop (nVar n) ?body (?A0, ?B0)] =>
      match body with
      | (fun iVar '(Ji, Jj) => _) =>
          match goal with
          | |- context [store2 _ _ _ (_ + ?c0)] =>
            match goal with
            | |- context [store2 _ _ _ (_ - ?c1)] =>
                pose proof (diagonal_loop c0 c1 A0 B0 (nVar n) r c) as LJ
            end
          end
      end
  end.
  destruct (for_loop (nVar n) _ (_, _)) as [Ji Jj].
  destruct LJ as [HJi HJj].
  cbn -[Nat.ltb]. rewrite HJi, HJj, fill_loop. split; reflexivity.
Qed.

(** Every member a Lax call computes, written from the face data and the
    parameters of the object. *)
Lemma lax_inputs (k : CCentLaxPB_Flow.t) :
  let o := self (CCentLaxPB_Flow.ComputeResidual PF PJ k n res Jac_i Jac_j) in
  let n_i := cast (Neighbor_i n) in
  let n_j := cast (Neighbor_j n) in
  let sc0 := lit 3.0 * (n_i + n_j) / (n_i * n_j) in
  let eps0 := CCentLaxPB_Flow.Param_Kappa_0 k * sc0 * cast (nDim n) / lit 3.0 in
  let lambda_i :=
    fabs (lit 2.0 * CNumerics_routines.dot (nDim n) (Face.velocity (V_i n)) (Normal n)) in
  let lambda_j :=
    fabs (lit 2.0 * CNumerics_routines.dot (nDim n) (Face.velocity (V_j n)) (Normal n)) in
  let meanLambda := lit 0.5 * (lambda_i + lambda_j) in
  let phi_i := pow (Lambda_i n / (lit 4.0 * meanLambda)) (CCentLaxPB_Flow.Param_p k) in
  let phi_j := pow (Lambda_j n / (lit 4.0 * meanLambda)) (CCentLaxPB_Flow.Param_p k) in
  let stretch := lit 4.0 * phi_i * phi_j / (phi_i + phi_j) in
  let meanDensity :=
    lit 0.5 * (Face.density (nDim n) (V_i n) + Face.density (nDim n) (V_j n)) in
  let meanPressure := lit 0.5 * (Face.pressure (V_i n) + Face.pressure (V_j n)) in
  let meanVelocity := fun d =>
    if d <? nDim n
    then lit 0.5 * (Face.velocity (V_i n) d + Face.velocity (V_j n) d)
    else CCentLaxPB_Flow.MeanVelocity k d in
  CCentLaxPB_Flow.sc0 o = sc0
  /\ CCentLaxPB_Flow.Epsilon_0 o = eps0
  /\ CCentLaxPB_Flow.MeanLambda o = meanLambda
  /\ CCentLaxPB_Flow.StretchingFactor o = stretch
  /\ CCentLaxPB_Flow.DensityInc_i o = Face.density (nDim n) (V_i n)
  /\ CCentLaxPB_Flow.DensityInc_j o = Face.density (nDim n) (V_j n)
  /\ CCentLaxPB_Flow.MeanDensity o = meanDensity
  /\ CCentLaxPB_Flow.MeanPressure o = meanPressure
  /\ CCentLaxPB_Flow.MeanVelocity o = meanVelocity
  /\ CCentLaxPB_Flow.ProjFlux o
     = PF (nDim n) meanDensity meanVelocity meanPressure (Normal n)
          (CCentLaxPB_Flow.ProjFlux k).
Proof.
  intros o n_i n_j sc0 eps0 lambda_i lambda_j meanLambda phi_i phi_j
         stretch meanDensity meanPressure meanVelocity.
  pose proof (lax_stretching PF PJ n res Jac_i Jac_j k) as S.
  pose proof (lax_cells PF PJ n res Jac_i Jac_j k) as C.
  pose proof (lax_scaling PF PJ k n res Jac_i Jac_j) as S0.
  cbv zeta in S, C. fold o in S, C, S0.
  destruct S as (_ & _ & _ & _ & HML & _ & _ & HSF).
  destruct C as (HE0 & HPF & HMv & _).
  assert (EM : CCentLaxPB_Flow.MeanVelocity o = meanVelocity).
  { apply functional_extensionality. exact HMv. }
  rewrite EM in HPF. rewrite S0 in HE0.
  split; [exact S0|]. split; [exact HE0|]. split; [exact HML|].
  split; [exact HSF|].
  assert (Hrest : CCentLaxPB_Flow.DensityInc_i o = Face.density (nDim n) (V_i n)
                  /\ CCentLaxPB_Flow.DensityInc_j o = Face.density (nDim n) (V_j n)
                  /\ CCentLaxPB_Flow.MeanDensity o = meanDensity
                  /\ CCentLaxPB_Flow.MeanPressure o = meanPressure).
  { clear. subst o meanDensity meanPressure. open_lax k n.
    destruct (CCentLaxPB_Flow.implicit k);
      [ destruct (for_loop (nVar n) _ (_, _)) as [Ji Jj] | ];
      repeat split; reflexivity. }
  destruct Hrest as (H1 & H2 & H3 & H4).
  repeat split; assumption.
Qed.

(** The residual cells and the Jacobian entries of a Lax call, in terms of
    the members the call leaves in the object. *)
Lemma lax_call_entries (k : CCentLaxPB_Flow.t) :
  nVar n = nDim n ->
  let out := CCentLaxPB_Flow.ComputeResidual PF PJ k n res Jac_i Jac_j in
  let o := self out in
  let cte := CCentLaxPB_Flow.Epsilon_0 o * CCentLaxPB_Flow.StretchingFactor o
             * CCentLaxPB_Flow.MeanLambda o in
  let dU := fun iVar =>
    CCentLaxPB_Flow.DensityInc_i o * Face.velocity (V_i n) iVar
    - CCentLaxPB_Flow.DensityInc_j o * Face.velocity (V_j n) iVar in
  let central_i :=
    PJ (nDim n) (CCentLaxPB_Flow.MeanDensity o)
       (CCentLaxPB_Flow.MeanVelocity o) (Normal n) (lit 0.5) Jac_i in
  let central_j := fun r c =>
    if (r <? nVar n) && (c <? nVar n) then central_i r c else Jac_j r c in
  (forall iVar, iVar < nVar n ->
     val_residual out iVar
     = CCentLaxPB_Flow.ProjFlux o iVar
       + CCentLaxPB_Flow.Epsilon_0 o * dU iVar
         * CCentLaxPB_Flow.StretchingFactor o * CCentLaxPB_Flow.MeanLambda o)
  /\ (forall r c,
        val_Jacobian_i out r c
        = if CCentLaxPB_Flow.implicit k
          then if Nat.eqb r c && (r <? nVar n)
               then central_i r c + cte else central_i r c
          else Jac_i r c)
  /\ (forall r c,
        val_Jacobian_j out r c
        = if CCentLaxPB_Flow.implicit k
          then if Nat.eqb r c && (r <? nVar n)
               then central_j r c - cte else central_j r c
          else Jac_j r c).
Proof.
  intros Hvar out o cte dU central_i central_j.
  subst out o cte dU central_i central_j.
  open_lax k n.
  destruct LV as [HVi HVj]. destruct LU as [HUi HUj].
  destruct (CCentLaxPB_Flow.implicit k).
  - match goal with
    | |- context [for_loop (nVar n) (fun iVar '(Ji, Jj) => _) (?A0, ?B0)] =>
        match goal with
        | |- context [store2 _ _ _ (_ + ?c0)] =>
            pose proof (fun r c => diagonal_loop c0 c0 A0 B0 (nVar n) r c) as LJ
        end
    end.
    destruct (for_loop (nVar n) _ (_, _)) as [Ji Jj].
    cbn -[Nat.ltb]. repeat split; try reflexivity.
    + intros v Hv.
      rewrite (for_loop_store (fun i (x : T) => x + _)),
              (for_loop_store (fun i _ => _)),
              (proj2 (Nat.ltb_lt v (nVar n))) by assumption.
      rewrite (for_loop_store (fun i _ => _)),
              (proj2 (Nat.ltb_lt v (nVar n))) by assumption.
      rewrite HUi, HUj, HVi, HVj.
      rewrite (proj2 (Nat.ltb_lt v (nDim n))) by lia. reflexivity.
    + intros r c. rewrite (proj1 (LJ r c)). reflexivity.
    + intros r c. rewrite (proj2 (LJ r c)), fill_loop. reflexivity.
  - cbn -[Nat.ltb]. repeat split; try reflexivity.
    intros v Hv.
    rewrite (for_loop_store (fun i (x : T) => x + _)),
            (for_loop_store (fun i _ => _)),
            (proj2 (Nat.ltb_lt v (nVar n))) by assumption.
    rewrite (for_loop_store (fun i _ => _)),
            (proj2 (Nat.ltb_lt v (nVar n))) by assumption.
    rewrite HUi, HUj, HVi, HVj.
    rewrite (proj2 (Nat.ltb_lt v (nDim n))) by lia. reflexivity.
Qed.

End Central_inputs.

(** C3.  After the central flux has been written, each residual component of
    [CCentJSTPB_Flow::ComputeResidual] is raised by
    (eps2 * dU - eps4 * dLapl) * stretch * meanLambda, with
    sc2 = 3 (n_i + n_j) / (n_i n_j), sc4 = sc2^2 / 4,
    eps2 = kappa2 * 0.5 (sensor_i + sensor_j) * sc2 and
    eps4 = max (0, kappa4 - eps2) * sc4.  Every quantity is written from the
    face data of the call: the central flux is the projected flux of the mean
    of the two states, meanLambda is the mean of |2 (velocity . normal)| over
    the two sides, and stretch is 4 phi_i phi_j / (phi_i + phi_j) with phi the
    power [Param_p] of Lambda / (4 meanLambda). *)
Theorem jst_dissipation_residual :
  forall (T : Type) (A : SU2Double T)
         (PF : nat -> T -> array T -> T -> array T -> array T -> array T)
         (PJ : nat -> T -> array T -> array T -> T -> matrix T -> matrix T)
         (k : CCentJSTPB_Flow.t) (n : CNumerics T)
         (res : array T) (Jac_i Jac_j : matrix T),
    let out := CCentJSTPB_Flow.ComputeResidual PF PJ k n res Jac_i Jac_j in
    let o := self out in
    let n_i := cast (Neighbor_i n) in
    let n_j := cast (Neighbor_j n) in
    let sc2 := (lit 3.0 * (n_i + n_j) / (n_i * n_j))%su2 in
    let sc4 := (sc2 * sc2 / lit 4.0)%su2 in
    let eps2 := (CCentJSTPB_Flow.Param_Kappa_2 k * lit 0.5
                 * (Sensor_i n + Sensor_j n) * sc2)%su2 in
    let eps4 := (max (lit 0.0) (CCentJSTPB_Flow.Param_Kappa_4 k - eps2) * sc4)%su2 in
    let dU := fun iVar => (U_i n iVar - U_j n iVar)%su2 in
    let dLapl := fun iVar => (Und_Lapl_i n iVar - Und_Lapl_j n iVar)%su2 in
    let lambda_i :=
      fabs (lit 2.0 * CNumerics_routines.dot (nDim n) (Face.velocity (V_i n)) (Normal n))%su2 in
    let lambda_j :=
      fabs (lit 2.0 * CNumerics_routines.dot (nDim n) (Face.velocity (V_j n)) (Normal n))%su2 in
    let meanLambda := (lit 0.5 * (lambda_i + lambda_j))%su2 in
    let phi_i :=
      pow (Lambda_i n / (lit 4.0 * meanLambda))%su2 (CCentJSTPB_Flow.Param_p k) in
    let phi_j :=
      pow (Lambda_j n / (lit 4.0 * meanLambda))%su2 (CCentJSTPB_Flow.Param_p k) in
    let stretch := (lit 4.0 * phi_i * phi_j / (phi_i + phi_j))%su2 in
    let meanDensity :=
      (lit 0.5 * (Face.density (nDim n) (V_i n) + Face.density (nDim n) (V_j n)))%su2 in
    let meanPressure := (lit 0.5 * (Face.pressure (V_i n) + Face.pressure (V_j n)))%su2 in
    let meanVelocity := fun d =>
      if d <? nDim n
      then (lit 0.5 * (Face.velocity (V_i n) d + Face.velocity (V_j n) d))%su2
      else CCentJSTPB_Flow.MeanVelocity k d in
    let central :=
      PF (nDim n) meanDensity meanVelocity meanPressure (Normal n)
         (CCentJSTPB_Flow.ProjFlux k) in
    (CCentJSTPB_Flow.sc2 o = sc2
     /\ CCentJSTPB_Flow.sc4 o = sc4
     /\ CCentJSTPB_Flow.Epsilon_2 o = eps2
     /\ CCentJSTPB_Flow.Epsilon_4 o = eps4
     /\ CCentJSTPB_Flow.MeanLambda o = meanLambda
     /\ CCentJSTPB_Flow.StretchingFactor o = stretch
     /\ CCentJSTPB_Flow.ProjFlux o = central
     /\ to_list (nVar n) (val_residual out)
        = map (fun iVar =>
                 central iVar
                 + (eps2 * dU iVar - eps4 * dLapl iVar) * stretch * meanLambda)
              (seq 0 (nVar n)))%su2.
Proof.
  intros T A PF PJ k n res Jac_i Jac_j out o n_i n_j sc2 sc4 eps2 eps4 dU dLapl
         lambda_i lambda_j meanLambda phi_i phi_j stretch
         meanDensity meanPressure meanVelocity central.
  pose proof (jst_inputs PF PJ n res Jac_i Jac_j k) as I.
  pose proof (jst_cells PF PJ n res Jac_i Jac_j k) as C.
  cbv zeta in I, C.
  destruct I as (I1 & I2 & I3 & I4 & I5 & I6 & _ & _ & _ & I10).
  destruct C as (_ & _ & _ & _ & _ & Rv).
  repeat (split; [assumption|]).
  apply to_list_ext. intros v Hv.
  subst out. rewrite (Rv v Hv), I10, I3, I4, I5, I6. reflexivity.
Qed.

(** C4.  In implicit mode the last step of [CCentJSTPB_Flow::ComputeResidual]
    changes the two Jacobians on the diagonal only: side i gains
    (eps2 + eps4 (n_i + 1)) * stretch * meanLambda there, side j loses
    (eps2 + eps4 (n_j + 1)) * stretch * meanLambda, and every other entry
    keeps the value the central step gave it.  The coefficients, the
    stretching factor, the mean lambda and the mean state handed to the
    Jacobian routine are written from the face data of the call. *)
Theorem jst_dissipation_jacobian :
  forall (T : Type) (A : SU2Double T)
         (PF : nat -> T -> array T -> T -> array T -> array T -> array T)
         (PJ : nat -> T -> array T -> array T -> T -> matrix T -> matrix T)
         (k : CCentJSTPB_Flow.t) (n : CNumerics T)
         (res : array T) (Jac_i Jac_j : matrix T),
    CCentJSTPB_Flow.implicit k = true ->
    let out := CCentJSTPB_Flow.ComputeResidual PF PJ k n res Jac_i Jac_j in
    let n_i := cast (Neighbor_i n) in
    let n_j := cast (Neighbor_j n) in
    let sc2 := (lit 3.0 * (n_i + n_j) / (n_i * n_j))%su2 in
    let sc4 := (sc2 * sc2 / lit 4.0)%su2 in
    let eps2 := (CCentJSTPB_Flow.Param_Kappa_2 k * lit 0.5
                 * (Sensor_i n + Sensor_j n) * sc2)%su2 in
    let eps4 := (max (lit 0.0) (CCentJSTPB_Flow.Param_Kappa_4 k - eps2) * sc4)%su2 in
    let lambda_i :=
      fabs (lit 2.0 * CNumerics_routines.dot (nDim n) (Face.velocity (V_i n)) (Normal n))%su2 in
    let lambda_j :=
      fabs (lit 2.0 * CNumerics_routines.dot (nDim n) (Face.velocity (V_j n)) (Normal n))%su2 in
    let meanLambda := (lit 0.5 * (lambda_i + lambda_j))%su2 in
    let phi_i :=
      pow (Lambda_i n / (lit 4.0 * meanLambda))%su2 (CCentJSTPB_Flow.Param_p k) in
    let phi_j :=
      pow (Lambda_j n / (lit 4.0 * meanLambda))%su2 (CCentJSTPB_Flow.Param_p k) in
    let stretch := (lit 4.0 * phi_i * phi_j / (phi_i + phi_j))%su2 in
    let meanDensity :=
      (lit 0.5 * (Face.density (nDim n) (V_i n) + Face.density (nDim n) (V_j n)))%su2 in
    let meanVelocity := fun d =>
      if d <? nDim n
      then (lit 0.5 * (Face.velocity (V_i n) d + Face.velocity (V_j n) d))%su2
      else CCentJSTPB_Flow.MeanVelocity k d in
    let central_i :=
      PJ (nDim n) meanDensity meanVelocity (Normal n) (lit 0.5) Jac_i in
    let central_j := fun r c =>
      if (r <? nVar n) && (c <? nVar n) then central_i r c else Jac_j r c in
    let on_diagonal := fun r c => Nat.eqb r c && (r <? nVar n) in
    forall r c,
      (val_Jacobian_i out r c
       = if on_diagonal r c
         then central_i r c
              + (eps2 + eps4 * cast (Neighbor_i n + 1)%nat) * stretch * meanLambda
         else central_i r c)%su2
      /\ (val_Jacobian_j out r c
          = if on_diagonal r c
            then central_j r c
                 - (eps2 + eps4 * cast (Neighbor_j n + 1)%nat) * stretch * meanLambda
            else central_j r c)%su2.
Proof.
  intros T A PF PJ k n res Jac_i Jac_j Himp out n_i n_j sc2 sc4 eps2 eps4
         lambda_i lambda_j meanLambda phi_i phi_j stretch
         meanDensity meanVelocity central_i central_j on_diagonal r c.
  pose proof (jst_inputs PF PJ n res Jac_i Jac_j k) as I.
  pose proof (jst_jacobian_entries PF PJ n res Jac_i Jac_j k r c Himp) as J.
  cbv zeta in I, J.
  destruct I as (_ & _ & I3 & I4 & I5 & I6 & I7 & _ & I9 & _).
  rewrite I3, I4, I5, I6, I7, I9 in J. exact J.
Qed.

(** An implicit JST object on a face crossed with velocities 3 and 1, three
    neighbours on each side, sensors 1 and nodal lambdas 16: eps2 = 2,
    eps4 = 0, meanLambda = 4 and stretch = 2, so the first diagonal entry of
    the central Jacobian, 2, becomes 2 + 16 on side i and 2 - 16 on side j,
    while the entry (0,1) keeps its central value 0. *)
Lemma jst_dissipation_jacobian_witness :
  let k := Samples.jst EULER_IMPLICIT in
  let n := Samples.face 0 0 3 1 16 1 1 in
  let out := CCentJSTPB_Flow.ComputeResidual Samples.PF Samples.PJ k n
               Samples.zeros Samples.zeros2 Samples.zeros2 in
  CCentJSTPB_Flow.implicit k = true
  /\ val_Jacobian_i out 0 0 = 18%R
  /\ val_Jacobian_j out 0 0 = (-14)%R
  /\ val_Jacobian_i out 0 1 = 0%R
  /\ val_Jacobian_j out 0 1 = 0%R.
Proof.
  intros k n out. split; [reflexivity|].
  pose proof (jst_dissipation_jacobian SU2Double_R Samples.PF Samples.PJ k n
                Samples.zeros Samples.zeros2 Samples.zeros2 eq_refl) as P.
  cbv zeta in P. fold out in P.
  destruct (P 0 0) as [D0 D1]. destruct (P 0 1) as [E0 E1]. clear P.
  rewrite D0, D1, E0, E1. clear D0 D1 E0 E1.
  subst k n. real_eval. abs_eval.
  repeat match goal with
         | |- context [Rpow ?a ?b] =>
             progress replace a with 1%R by field
         end.
  rewrite !Rpow_one.
  replace (Rmax (0 * / 10)
             (1 - 1 * (5 * / 10) * (1 + 1) * (30 * / 10 * (1 + 1 + 1 + (1 + 1 + 1))
                                              / ((1 + 1 + 1) * (1 + 1 + 1)))))%R
    with 0%R.
  2:{ rewrite Rmax_left; [lra|]. 
      replace (30 * / 10 * (1 + 1 + 1 + (1 + 1 + 1)) / ((1 + 1 + 1) * (1 + 1 + 1)))%R
        with 2%R by field. lra. }
  repeat split; field.
Defined.

(** C5.  [CCentLaxPB_Flow::ComputeResidual] adds eps0 * dU * stretch * meanLambda
    to each residual component, with eps0 = kappa0 * sc0 * nDim / 3,
    sc0 = 3 (n_i + n_j) / (n_i n_j) and dU the difference of the two momenta
    density * velocity; no Laplacian enters.  In implicit mode
    eps0 * stretch * meanLambda is added on the diagonal of the side-i Jacobian
    and taken from the diagonal of the side-j Jacobian; in explicit mode both
    buffers come back as they went in.  The densities, the stretching factor,
    the mean lambda and the mean state are written from the face data of the
    call. *)
Theorem lax_dissipation :
  forall (T : Type) (A : SU2Double T)
         (PF : nat -> T -> array T -> T -> array T -> array T -> array T)
         (PJ : nat -> T -> array T -> array T -> T -> matrix T -> matrix T)
         (k : CCentLaxPB_Flow.t) (n : CNumerics T)
         (res : array T) (Jac_i Jac_j : matrix T),
    nVar n = nDim n ->
    let out := CCentLaxPB_Flow.ComputeResidual PF PJ k n res Jac_i Jac_j in
    let o := self out in
    let n_i := cast (Neighbor_i n) in
    let n_j := cast (Neighbor_j n) in
    let sc0 := (lit 3.0 * (n_i + n_j) / (n_i * n_j))%su2 in
    let eps0 :=
      (CCentLaxPB_Flow.Param_Kappa_0 k * sc0 * cast (nDim n) / lit 3.0)%su2 in
    let lambda_i :=
      fabs (lit 2.0 * CNumerics_routines.dot (nDim n) (Face.velocity (V_i n)) (Normal n))%su2 in
    let lambda_j :=
      fabs (lit 2.0 * CNumerics_routines.dot (nDim n) (Face.velocity (V_j n)) (Normal n))%su2 in
    let meanLambda := (lit 0.5 * (lambda_i + lambda_j))%su2 in
    let phi_i :=
      pow (Lambda_i n / (lit 4.0 * meanLambda))%su2 (CCentLaxPB_Flow.Param_p k) in
    let phi_j :=
      pow (Lambda_j n / (lit 4.0 * meanLambda))%su2 (CCentLaxPB_Flow.Param_p k) in
    let stretch := (lit 4.0 * phi_i * phi_j / (phi_i + phi_j))%su2 in
    let rho_i := Face.density (nDim n) (V_i n) in
    let rho_j := Face.density (nDim n) (V_j n) in
    let meanDensity := (lit 0.5 * (rho_i + rho_j))%su2 in
    let meanPressure := (lit 0.5 * (Face.pressure (V_i n) + Face.pressure (V_j n)))%su2 in
    let meanVelocity := fun d =>
      if d <? nDim n
      then (lit 0.5 * (Face.velocity (V_i n) d + Face.velocity (V_j n) d))%su2
      else CCentLaxPB_Flow.MeanVelocity k d in
    let central :=
      PF (nDim n) meanDensity meanVelocity meanPressure (Normal n)
         (CCentLaxPB_Flow.ProjFlux k) in
    let dU := fun iVar =>
      (rho_i * Face.velocity (V_i n) iVar - rho_j * Face.velocity (V_j n) iVar)%su2 in
    let central_i :=
      PJ (nDim n) meanDensity meanVelocity (Normal n) (lit 0.5) Jac_i in
    let central_j := fun r c =>
      if (r <? nVar n) && (c <? nVar n) then central_i r c else Jac_j r c in
    let on_diagonal := fun r c => Nat.eqb r c && (r <? nVar n) in
    (CCentLaxPB_Flow.sc0 o = sc0
     /\ CCentLaxPB_Flow.Epsilon_0 o = eps0
     /\ CCentLaxPB_Flow.MeanLambda o = meanLambda
     /\ CCentLaxPB_Flow.StretchingFactor o = stretch
     /\ CCentLaxPB_Flow.ProjFlux o = central
     /\ (forall iVar, iVar < nVar n ->
           val_residual out iVar
           = central iVar + eps0 * dU iVar * stretch * meanLambda)
     /\ (forall r c,
           val_Jacobian_i out r c
           = if CCentLaxPB_Flow.implicit k
             then if on_diagonal r c
                  then central_i r c + eps0 * stretch * meanLambda
                  else central_i r c
             else Jac_i r c)
     /\ (forall r c,
           val_Jacobian_j out r c
           = if CCentLaxPB_Flow.implicit k
             then if on_diagonal r c
                  then central_j r c - eps0 * stretch * meanLambda
                  else central_j r c
             else Jac_j r c))%su2.
Proof.
  intros T A PF PJ k n res Jac_i Jac_j Hvar out o n_i n_j sc0 eps0
         lambda_i lambda_j meanLambda phi_i phi_j stretch rho_i rho_j
         meanDensity meanPressure meanVelocity central dU
         central_i central_j on_diagonal.
  pose proof (lax_inputs PF PJ n res Jac_i Jac_j k) as I.
  pose proof (lax_call_entries PF PJ n res Jac_i Jac_j k Hvar) as E.
  cbv zeta in I, E.
  destruct I as (I1 & I2 & I3 & I4 & I5 & I6 & I7 & _ & I9 & I10).
  rewrite I10, I2, I3, I4, I5, I6, I7, I9 in E.
  destruct E as (Er & Ei & Ej).
  repeat (split; [assumption|]). exact Ej.
Qed.

(** An implicit Lax object on a face crossed with velocities 3 and 1, unit
    densities, three neighbours on each side and nodal lambdas 16:
    eps0 = 4/3, meanLambda = 4 and stretch = 2.  The central flux 4 of the
    first residual cell is raised by 4/3 * (3 - 1) * 2 * 4, and the first
    diagonal entry of the central Jacobian, 2, becomes 2 + 32/3 on side i
    and 2 - 32/3 on side j. *)
Lemma lax_dissipation_witness :
  let k := Samples.lax EULER_IMPLICIT in
  let n := Samples.face 0 0 3 1 16 1 1 in
  let out := CCentLaxPB_Flow.ComputeResidual Samples.PF Samples.PJ k n
               Samples.zeros Samples.zeros2 Samples.zeros2 in
  nVar n = nDim n
  /\ val_residual out 0 = (4 + 64 / 3)%R
  /\ val_Jacobian_i out 0 0 = (2 + 32 / 3)%R
  /\ val_Jacobian_j out 0 0 = (2 - 32 / 3)%R.
Proof.
  intros k n out. split; [reflexivity|].
  pose proof (lax_dissipation SU2Double_R Samples.PF Samples.PJ k n
                Samples.zeros Samples.zeros2 Samples.zeros2 eq_refl) as P.
  cbv zeta in P. fold out in P.
  destruct P as (_ & _ & _ & _ & _ & Pr & Pi & Pj).
  assert (H0 : 0 < nVar n) by (cbn; lia).
  rewrite (Pr 0 H0), (Pi 0 0), (Pj 0 0). clear Pr Pi Pj.
  subst k n. real_eval. abs_eval.
  repeat match goal with
         | |- context [Rpow ?a ?b] =>
             progress replace a with 1%R by field
         end.
  rewrite !Rpow_one.
  repeat split; field.
Defined.

(** * The Jacobians of the upwind kernel *)

(** X4.  In implicit mode the upwind kernel first clears the [nVar] by [nVar]
    block of both Jacobian buffers and then calls the Jacobian routine once,
    with scale 1, on the buffer of the donor side and with the donor's
    density and velocity as the face holds them: side i when the face flux
    (the mean density times the mean velocity, projected on the normal) is
    positive, side j otherwise.  The other buffer holds zeros in the block
    and its old content outside. *)
Theorem upwind_jacobian_goes_to_donor :
  forall (T : Type) (A : SU2Double T)
         (PJ : nat -> T -> array T -> array T -> T -> matrix T -> matrix T)
         (k : CUpwPB_Flow.t) (n : CNumerics T) (res : array T)
         (Jac_i Jac_j : matrix T),
    CUpwPB_Flow.implicit k = true ->
    let out := CUpwPB_Flow.ComputeResidual PJ k n res Jac_i Jac_j in
    let rho_i := Face.density (nDim n) (V_i n) in
    let rho_j := Face.density (nDim n) (V_j n) in
    let vel_i := fun d =>
      if d <? nDim n then Face.velocity (V_i n) d else CUpwPB_Flow.Velocity_i k d in
    let vel_j := fun d =>
      if d <? nDim n then Face.velocity (V_j n) d else CUpwPB_Flow.Velocity_j k d in
    let face_flux :=
      for_loop (nDim n) (fun d acc =>
        (acc + lit 0.5 * (rho_i + rho_j)
               * (lit 0.5 * (Face.velocity (V_i n) d + Face.velocity (V_j n) d))
               * Normal n d)%su2) (lit 0.0) in
    let cleared := fun (J : matrix T) r c =>
      if (r <? nVar n) && (c <? nVar n) then lit 0.0 else J r c in
    CUpwPB_Flow.Face_Flux (self out) = face_flux
    /\ if gt face_flux (lit 0.0)
       then val_Jacobian_i out
            = PJ (nDim n) rho_i vel_i (Normal n) (lit 1.0) (cleared Jac_i)
            /\ val_Jacobian_j out = cleared Jac_j
       else val_Jacobian_i out = cleared Jac_i
            /\ val_Jacobian_j out
               = PJ (nDim n) rho_j vel_j (Normal n) (lit 1.0) (cleared Jac_j).
Proof.
  intros T A PJ k n res Jac_i Jac_j Himp out rho_i rho_j vel_i vel_j
         face_flux cleared.
  subst out. unfold CUpwPB_Flow.ComputeResidual.
  pose proof (upwind_flux_loop n (V_i n (nDim n + 1)) (V_j n (nDim n + 1))
                (CUpwPB_Flow.Velocity_i k) (CUpwPB_Flow.Velocity_j k)
                (CUpwPB_Flow.MeanVelocity k) (lit 0.0) (nDim n)) as L.
  destruct (for_loop (nDim n) _ _) as [[[Vi Vj] Mv] FF].
  destruct L as (HVi & HVj & _ & HFF).
  assert (Ei : Vi = vel_i) by (apply functional_extensionality; exact HVi).
  assert (Ej : Vj = vel_j) by (apply functional_extensionality; exact HVj).
  assert (Ef : FF = face_flux) by exact HFF.
  clear HVi HVj HFF. subst Vi Vj FF.
  rewrite Himp, zero_loop.
  assert (Hclear : forall J : matrix T,
            for_loop (nVar n) (fun i => for_loop (nVar n)
              (fun j M => store2 M i j (lit 0.0))) J = cleared J).
  { intros J. apply functional_extensionality. intros r.
    apply functional_extensionality. intros c.
    apply (fill_loop (fun _ _ => lit 0.0)). }
  rewrite !Hclear.
  destruct (gt face_flux (lit 0.0));
    cbn [self val_Jacobian_i val_Jacobian_j CUpwPB_Flow.Face_Flux];
    split; [reflexivity | split; reflexivity | reflexivity | split; reflexivity].
Qed.

(** An implicit object on a face crossed with velocities 3 and 1 and unit
    densities: the face flux 2 is positive, so side i is the donor.  Its
    Jacobian is the one of density 1 and velocity (3, 0), whose first entry
    is 3 + 3; the block of side j is zero and the buffer keeps its old value
    5 outside the block. *)
Lemma upwind_jacobian_goes_to_donor_witness :
  let n := Samples.face 0 0 3 1 16 1 1 in
  let out := CUpwPB_Flow.ComputeResidual Samples.PJ (Samples.upwind EULER_IMPLICIT)
               n Samples.zeros (fun _ _ => 5%R) (fun _ _ => 5%R) in
  CUpwPB_Flow.implicit (Samples.upwind EULER_IMPLICIT) = true
  /\ CUpwPB_Flow.Face_Flux (self out) = 2%R
  /\ val_Jacobian_i out 0 0 = 6%R
  /\ val_Jacobian_j out 1 1 = 0%R /\ val_Jacobian_j out 2 2 = 5%R.
Proof.
  intros n out. split; [reflexivity|].
  pose proof (upwind_jacobian_goes_to_donor SU2Double_R Samples.PJ
                (Samples.upwind EULER_IMPLICIT) n Samples.zeros
                (fun _ _ => 5%R) (fun _ _ => 5%R) eq_refl) as P.
  cbv zeta in P. fold out in P. destruct P as [Pf P].
  assert (Hflux : for_loop (nDim n) (fun d acc =>
            (acc + lit 0.5 * (Face.density (nDim n) (V_i n)
                              + Face.density (nDim n) (V_j n))
                   * (lit 0.5 * (Face.velocity (V_i n) d + Face.velocity (V_j n) d))
                   * Normal n d)%su2) (lit 0.0) = 2%R).
  { subst n. real_eval. field. }
  rewrite Hflux in Pf, P.
  assert (Hpos : gt 2%R (lit 0.0) = true).
  { real_eval. destruct (Rlt_dec _ _) as [_|Hn]; [reflexivity|].
    exfalso. apply Hn. lra. }
  rewrite Hpos in P. destruct P as [Pi Pj]. rewrite Pf, Pi, Pj.
  split; [reflexivity|]. subst n. repeat split; real_eval; lra.
Defined.

(** * The dissipation of the central kernels, with faults reported *)

(** A sum of products of numbers is a number. *)
Lemma dot_inject (m : nat) (x y : array R) :
  CNumerics_routines.dot m (fun d => Val (x d)) (fun d => Val (y d))
  = Val (CNumerics_routines.dot m x y).
Proof.
  unfold CNumerics_routines.dot.
  induction m as [|m IH]; cbn [for_loop].
  - reflexivity.
  - rewrite IH. reflexivity.
Qed.

(** Adding the number zero changes neither a number nor a fault. *)
Lemma checked_plus_zero (x : checked) (z : R) :
  z = 0%R -> (x + Val z)%su2 = x.
Proof.
  intros ->. destruct x as [r|f]; cbn; [f_equal; lra | reflexivity].
Qed.

Lemma positive_counts (a b : nat) :
  0 < a -> 0 < b -> Nat.eqb a 0 || Nat.eqb b 0 = false.
Proof.
  intros Ha Hb. destruct a, b; try lia. reflexivity.
Qed.

(** The local conservative variables of the Lax kernel hold zero beyond the
    momenta. *)
Lemma local_conservative_zero (v : nat) :
  of_list [lit 0.0; lit 0.0; lit 0.0]%su2 v = Val (Q2R 0.0).
Proof. destruct v as [|[|[|[|v]]]]; reflexivity. Qed.

Section Checked_members.
Variable PF : nat -> checked -> array checked -> checked -> array checked
              -> array checked -> array checked.
Variable PJ : nat -> checked -> array checked -> array checked -> checked
              -> matrix checked -> matrix checked.
Variable n0 : CNumerics R.
Variables (res : array checked) (Jac_i Jac_j : matrix checked).
Hypothesis Hni : 0 < Neighbor_i n0.
Hypothesis Hnj : 0 < Neighbor_j n0.
Hypothesis Hli : (0 < Lambda_i n0)%R.
Hypothesis Hlj : (0 < Lambda_j n0)%R.
Hypothesis Hmove :
  CNumerics_routines.dot (nDim n0) (Face.velocity (V_i n0)) (Normal n0) <> 0%R
  \/ CNumerics_routines.dot (nDim n0) (Face.velocity (V_j n0)) (Normal n0) <> 0%R.

(** On a face crossed by the flow and with positive nodal lambdas the mean
    lambda and the stretching factor are numbers. *)
Lemma checked_blending :
  let n := Samples.inject n0 in
  let lambda_i :=
    fabs (lit 2.0 * CNumerics_routines.dot (nDim n) (Face.velocity (V_i n)) (Normal n))%su2 in
  let lambda_j :=
    fabs (lit 2.0 * CNumerics_routines.dot (nDim n) (Face.velocity (V_j n)) (Normal n))%su2 in
  let meanLambda := (lit 0.5 * (lambda_i + lambda_j))%su2 in
  let phi_i := pow (Lambda_i n / (lit 4.0 * meanLambda))%su2 (lit 0.3) in
  let phi_j := pow (Lambda_j n / (lit 4.0 * meanLambda))%su2 (lit 0.3) in
  exists s m : R,
    (lit 4.0 * phi_i * phi_j / (phi_i + phi_j))%su2 = Val s
    /\ meanLambda = Val m.
Proof.
  intros n lambda_i lambda_j meanLambda phi_i phi_j.
  set (q_i := CNumerics_routines.dot (nDim n0) (Face.velocity (V_i n0)) (Normal n0))
    in Hmove.
  set (q_j := CNumerics_routines.dot (nDim n0) (Face.velocity (V_j n0)) (Normal n0))
    in Hmove.
  assert (Di : CNumerics_routines.dot (nDim n) (Face.velocity (V_i n)) (Normal n)
               = Val q_i)
    by exact (dot_inject (nDim n0) (Face.velocity (V_i n0)) (Normal n0)).
  assert (Dj : CNumerics_routines.dot (nDim n) (Face.velocity (V_j n)) (Normal n)
               = Val q_j)
    by exact (dot_inject (nDim n0) (Face.velocity (V_j n0)) (Normal n0)).
  set (m := (Q2R 0.5 * (Rabs (Q2R 2.0 * q_i) + Rabs (Q2R 2.0 * q_j)))%R).
  assert (Hm : (0 < m)%R).
  { subst m. unfold Q2R. cbn [Qnum Qden].
    pose proof (Rabs_pos (20 * / 10 * q_i)) as Pi.
    pose proof (Rabs_pos (20 * / 10 * q_j)) as Pj.
    destruct Hmove as [Hi|Hj].
    - assert (0 < Rabs (20 * / 10 * q_i))%R by (apply Rabs_pos_lt; lra). lra.
    - assert (0 < Rabs (20 * / 10 * q_j))%R by (apply Rabs_pos_lt; lra). lra. }
  assert (Hmean : meanLambda = Val m).
  { subst meanLambda lambda_i lambda_j. rewrite Di, Dj. reflexivity. }
  destruct (checked_stretching (Q2R 0.3) Hli Hlj Hm)
    as (a & b & Pa & Pb & Ha & Hb & Hs).
  exists (4 * a * b / (a + b))%R, m. split; [|exact Hmean].
  subst phi_i phi_j. rewrite Hmean.
  change (Lambda_i n) with (Val (Lambda_i n0)).
  change (Lambda_j n) with (Val (Lambda_j n0)).
  change (@lit checked _ 0.3) with (Val (Q2R 0.3)).
  rewrite Ha, Hb. exact Hs.
Qed.

(** With neighbours on both sides as well, the coefficients of a JST call
    are numbers. *)
Lemma checked_jst_members (k : CCentJSTPB_Flow.t) (k2 k4 : R) :
  CCentJSTPB_Flow.Param_Kappa_2 k = Val k2 ->
  CCentJSTPB_Flow.Param_Kappa_4 k = Val k4 ->
  CCentJSTPB_Flow.Param_p k = lit 0.3 ->
  let o := self (CCentJSTPB_Flow.ComputeResidual PF PJ k (Samples.inject n0)
                   res Jac_i Jac_j) in
  let sc := (3 * (INR (Neighbor_i n0) + INR (Neighbor_j n0))
             / (INR (Neighbor_i n0) * INR (Neighbor_j n0)))%R in
  let e2 := (k2 * Q2R 0.5 * (Sensor_i n0 + Sensor_j n0) * sc)%R in
  exists s m : R,
    CCentJSTPB_Flow.Epsilon_2 o = Val e2
    /\ CCentJSTPB_Flow.Epsilon_4 o
       = Val (Rmax (Q2R 0.0) (k4 - e2) * (sc * sc / Q2R 4.0))
    /\ CCentJSTPB_Flow.StretchingFactor o = Val s
    /\ CCentJSTPB_Flow.MeanLambda o = Val m.
Proof.
  intros Hk2 Hk4 Hp o sc e2.
  pose proof (jst_inputs PF PJ (Samples.inject n0) res Jac_i Jac_j k) as I.
  cbv zeta in I. fold o in I.
  destruct I as (_ & _ & I3 & I4 & I5 & I6 & _).
  destruct checked_blending as (s & m & Hs & Hm). cbv zeta in Hs, Hm.
  rewrite Hp in I6. rewrite Hs in I6. rewrite Hm in I5.
  exists s, m.
  change (Neighbor_i (Samples.inject n0)) with (Neighbor_i n0) in *.
  change (Neighbor_j (Samples.inject n0)) with (Neighbor_j n0) in *.
  rewrite checked_scaling, positive_counts in I3, I4 by assumption.
  fold sc in I3, I4. rewrite Hk2 in I3, I4. rewrite Hk4 in I4.
  split; [exact I3|]. split; [|split; assumption].
  rewrite I4. cbn. unfold checked_div.
  destruct (Req_dec_T (Q2R 4.0) 0) as [Hz|_].
  - exfalso. revert Hz. unfold Q2R. cbn [Qnum Qden]. lra.
  - reflexivity.
Qed.

(** The same for a Lax call. *)
Lemma checked_lax_members (k : CCentLaxPB_Flow.t) (k0 : R) :
  CCentLaxPB_Flow.Param_Kappa_0 k = Val k0 ->
  CCentLaxPB_Flow.Param_p k = lit 0.3 ->
  let o := self (CCentLaxPB_Flow.ComputeResidual PF PJ k (Samples.inject n0)
                   res Jac_i Jac_j) in
  let sc := (3 * (INR (Neighbor_i n0) + INR (Neighbor_j n0))
             / (INR (Neighbor_i n0) * INR (Neighbor_j n0)))%R in
  exists s m : R,
    CCentLaxPB_Flow.Epsilon_0 o = Val (k0 * sc * INR (nDim n0) / Q2R 3.0)
    /\ CCentLaxPB_Flow.StretchingFactor o = Val s
    /\ CCentLaxPB_Flow.MeanLambda o = Val m.
Proof.
  intros Hk0 Hp o sc.
  pose proof (lax_inputs PF PJ (Samples.inject n0) res Jac_i Jac_j k) as I.
  cbv zeta in I. fold o in I.
  destruct I as (_ & I2 & I3 & I4 & _).
  destruct checked_blending as (s & m & Hs & Hm). cbv zeta in Hs, Hm.
  rewrite Hp in I4. rewrite Hs in I4. rewrite Hm in I3.
  exists s, m.
  change (Neighbor_i (Samples.inject n0)) with (Neighbor_i n0) in *.
  change (Neighbor_j (Samples.inject n0)) with (Neighbor_j n0) in *.
  rewrite checked_scaling, positive_counts in I2 by assumption.
  fold sc in I2. rewrite Hk0 in I2.
  split; [|split; assumption].
  rewrite I2. cbn. unfold checked_div.
  destruct (Req_dec_T (Q2R 3.0) 0) as [Hz|_].
  - exfalso. revert Hz. unfold Q2R. cbn [Qnum Qden]. lra.
  - reflexivity.
Qed.

End Checked_members.



(** X8.  With every quotient and power checked: on a face whose data are
    numbers, crossed by the flow, with neighbours on both sides and positive
    nodal lambdas, central objects whose dissipation coefficients are zero
    (kappa2 and kappa4 for JST, kappa0 for Lax) put in each residual cell the
    projected flux of the mean of the two states and nothing else, whatever
    the difference between the two sides. *)
Theorem zero_kappa_gives_central_flux :
  forall (PF : nat -> checked -> array checked -> checked -> array checked
               -> array checked -> array checked)
         (PJ : nat -> checked -> array checked -> array checked -> checked
               -> matrix checked -> matrix checked)
         (kj : CCentJSTPB_Flow.t) (kl : CCentLaxPB_Flow.t) (n0 : CNumerics R)
         (res : array checked) (Jac_i Jac_j : matrix checked) (v : nat),
    v < nVar n0 ->
    CCentJSTPB_Flow.Param_Kappa_2 kj = Val 0 ->
    CCentJSTPB_Flow.Param_Kappa_4 kj = Val 0 ->
    CCentLaxPB_Flow.Param_Kappa_0 kl = Val 0 ->
    CCentJSTPB_Flow.Param_p kj = lit 0.3 ->
    CCentLaxPB_Flow.Param_p kl = lit 0.3 ->
    0 < Neighbor_i n0 ->
    0 < Neighbor_j n0 ->
    (0 < Lambda_i n0)%R ->
    (0 < Lambda_j n0)%R ->
    CNumerics_routines.dot (nDim n0) (Face.velocity (V_i n0)) (Normal n0) <> 0%R
    \/ CNumerics_routines.dot (nDim n0) (Face.velocity (V_j n0)) (Normal n0) <> 0%R ->
    let n := Samples.inject n0 in
    let js := CCentJSTPB_Flow.ComputeResidual PF PJ kj n res Jac_i Jac_j in
    let lx := CCentLaxPB_Flow.ComputeResidual PF PJ kl n res Jac_i Jac_j in
    let meanDensity :=
      (lit 0.5 * (Face.density (nDim n) (V_i n) + Face.density (nDim n) (V_j n)))%su2 in
    let meanPressure := (lit 0.5 * (Face.pressure (V_i n) + Face.pressure (V_j n)))%su2 in
    let meanVelocity := fun (old : array checked) d =>
      if d <? nDim n
      then (lit 0.5 * (Face.velocity (V_i n) d + Face.velocity (V_j n) d))%su2
      else old d in
    val_residual js v
    = PF (nDim n) meanDensity (meanVelocity (CCentJSTPB_Flow.MeanVelocity kj))
         meanPressure (Normal n) (CCentJSTPB_Flow.ProjFlux kj) v
    /\ val_residual lx v
       = PF (nDim n) meanDensity (meanVelocity (CCentLaxPB_Flow.MeanVelocity kl))
            meanPressure (Normal n) (CCentLaxPB_Flow.ProjFlux kl) v.
Proof.
  intros PF PJ kj kl n0 res Jac_i Jac_j v
         Hv Hk2 Hk4 Hk0 Hpj Hpl Hni Hnj Hli Hlj Hmove
         n js lx meanDensity meanPressure meanVelocity.
  subst meanDensity meanPressure meanVelocity js lx n.
  split.
  - destruct (@checked_jst_members PF PJ n0 res Jac_i Jac_j Hni Hnj Hli Hlj Hmove
                kj 0%R 0%R Hk2 Hk4 Hpj) as (s & m & E2 & E4 & ES & EM).
    pose proof (jst_inputs PF PJ (Samples.inject n0) res Jac_i Jac_j kj) as I.
    pose proof (jst_cells PF PJ (Samples.inject n0) res Jac_i Jac_j kj) as C.
    cbv zeta in I, C. destruct I as (_ & _ & _ & _ & _ & _ & _ & _ & _ & I10).
    destruct C as (_ & _ & _ & _ & _ & Rv).
    rewrite (Rv v Hv), E2, E4, ES, EM, I10.
    apply checked_plus_zero.
    assert (Hmax : forall x : R, x = 0%R -> Rmax (Q2R 0.0) (0 - x) = 0%R).
    { intros x ->. unfold Q2R. cbn [Qnum Qden]. rewrite Rmax_left by lra. lra. }
    rewrite Hmax by ring. ring.
  - destruct (@checked_lax_members PF PJ n0 res Jac_i Jac_j Hni Hnj Hli Hlj Hmove
                kl 0%R Hk0 Hpl) as (s & m & E0 & ES & EM).
    pose proof (lax_inputs PF PJ (Samples.inject n0) res Jac_i Jac_j kl) as I.
    pose proof (lax_cells PF PJ (Samples.inject n0) res Jac_i Jac_j kl) as C.
    cbv zeta in I, C.
    destruct I as (_ & _ & _ & _ & _ & _ & _ & _ & _ & I10).
    destruct C as (_ & _ & _ & Rv).
    rewrite (Rv v Hv), E0, ES, EM, I10, !local_conservative_zero.
    destruct (v <? nDim (Samples.inject n0)); apply checked_plus_zero;
      unfold Rdiv; ring.
Qed.

(** Central objects built from a configuration whose three coefficients are
    zero, on a face crossed with velocities 3 and 1: the residual of both
    kernels is the central flux 1 * 2 * 2 of the mean state. *)
Lemma zero_kappa_gives_central_flux_witness :
  let n0 := Samples.face 0 0 3 1 16 1 1 in
  let kj := Samples.undamped_jst EULER_EXPLICIT in
  let kl := Samples.undamped_lax EULER_EXPLICIT in
  let js := CCentJSTPB_Flow.ComputeResidual Samples.checked_PF Samples.checked_PJ
              kj (Samples.inject n0)
              (fun _ => Val 0) (fun _ _ => Val 0) (fun _ _ => Val 0) in
  let lx := CCentLaxPB_Flow.ComputeResidual Samples.checked_PF Samples.checked_PJ
              kl (Samples.inject n0)
              (fun _ => Val 0) (fun _ _ => Val 0) (fun _ _ => Val 0) in
  (0 < nVar n0
   /\ CCentJSTPB_Flow.Param_Kappa_2 kj = Val 0
   /\ CCentJSTPB_Flow.Param_Kappa_4 kj = Val 0
   /\ CCentLaxPB_Flow.Param_Kappa_0 kl = Val 0
   /\ CCentJSTPB_Flow.Param_p kj = lit 0.3
   /\ CCentLaxPB_Flow.Param_p kl = lit 0.3
   /\ 0 < Neighbor_i n0 /\ 0 < Neighbor_j n0
   /\ (0 < Lambda_i n0)%R /\ (0 < Lambda_j n0)%R
   /\ (CNumerics_routines.dot (nDim n0) (Face.velocity (V_i n0)) (Normal n0) <> 0%R
       \/ CNumerics_routines.dot (nDim n0) (Face.velocity (V_j n0)) (Normal n0) <> 0%R))
  /\ val_residual js 0 = Val 4 /\ val_residual lx 0 = Val 4.
Proof.
  intros n0 kj kl js lx.
  assert (H0 : 0 < nVar n0) by (cbn; lia).
  assert (H3 : 0 < 3) by lia.
  assert (H16 : (0 < 16)%R) by lra.
  assert (Hmove :
    CNumerics_routines.dot (nDim n0) (Face.velocity (V_i n0)) (Normal n0) <> 0%R
    \/ CNumerics_routines.dot (nDim n0) (Face.velocity (V_j n0)) (Normal n0) <> 0%R).
  { left. subst n0. real_eval. lra. }
  split; [repeat split; assumption|].
  pose proof (@zero_kappa_gives_central_flux
                Samples.checked_PF Samples.checked_PJ kj kl n0
                (fun _ => Val 0) (fun _ _ => Val 0) (fun _ _ => Val 0) 0
                H0 eq_refl eq_refl eq_refl eq_refl eq_refl H3 H3 H16 H16 Hmove) as P.
  cbv zeta in P. fold js lx in P. destruct P as [Pj Pl].
  rewrite Pj, Pl. clear.
  split; cbn; f_equal; unfold Q2R; cbn [Qnum Qden]; lra.
Defined.
